(** * ReactOS apiset generator ([dll/apisets/update.py])

    A shallow embedding of the export-record parser, the two resolution
    passes, the spec-file writer and the base-address allocation of
    [update.py], followed by the properties checked against it.

    The script is Python 2: strings are byte strings, dictionaries and sets
    iterate in hash order.  Exceptions are modelled by the [result] type;
    the three places where the script iterates over a dict or a set are
    modelled by the [Runtime] class. *)

From Stdlib Require Import ZArith String Ascii List Sorted Lia.
From stdpp Require Import gmap strings list.
From Equations Require Import Equations.

Local Open Scope string_scope.
Local Open Scope Z_scope.

(** ** Exceptions *)

Inductive exn : Type :=
| InvalidSpecError (message : string)
| AssertionError
| IndexError
| KeyError.

Inductive result (A : Type) : Type :=
| Ok (a : A)
| Raise (e : exn).
Arguments Ok {A} a.
Arguments Raise {A} e.

#[global] Instance result_ret : MRet result := fun A a => Ok a.
#[global] Instance result_bind : MBind result := fun A B k r =>
  match r with
  | Ok a => k a
  | Raise e => Raise e
  end.

(** [assert cond] *)
Definition assert (cond : bool) : result unit :=
  if cond then Ok tt else Raise AssertionError.

(** ** Byte-string primitives of Python 2 used by the script *)

Module Str.

(** [c.isspace()] in the C locale: space, \t, \n, \v, \f, \r. *)
Definition isspace_char (c : ascii) : bool :=
  let n := nat_of_ascii c in
  (n =? 32)%nat || ((9 <=? n)%nat && (n <=? 13)%nat).

Definition isdigit_char (c : ascii) : bool :=
  let n := nat_of_ascii c in
  (48 <=? n)%nat && (n <=? 57)%nat.

Fixpoint all_chars (p : ascii -> bool) (s : string) : bool :=
  match s with
  | EmptyString => true
  | String c s' => p c && all_chars p s'
  end.

Definition nonempty (s : string) : bool :=
  match s with
  | EmptyString => false
  | String _ _ => true
  end.

(** [s.isspace()], [s.isdigit()]: false on the empty string. *)
Definition isspace (s : string) : bool := nonempty s && all_chars isspace_char s.
Definition isdigit (s : string) : bool := nonempty s && all_chars isdigit_char s.

Fixpoint lstrip (s : string) : string :=
  match s with
  | EmptyString => EmptyString
  | String c s' => if isspace_char c then lstrip s' else s
  end.

(** [rstrip]: a character is kept when something that is not white space
    follows it (or when it is not white space itself). *)
Fixpoint rstrip (s : string) : string :=
  match s with
  | EmptyString => EmptyString
  | String c s' =>
      match rstrip s' with
      | EmptyString => if isspace_char c then EmptyString else String c EmptyString
      | r => String c r
      end
  end.

(** [s.strip()] *)
Definition strip (s : string) : string := rstrip (lstrip s).

(** [s.startswith(p)] *)
Definition startswith (s p : string) : bool := String.prefix p s.

(** [s.startswith(tuple)] *)
Definition startswith_any (s : string) (ps : list string) : bool :=
  existsb (startswith s) ps.

(** [s[n:]] *)
Fixpoint drop (n : nat) (s : string) : string :=
  match n, s with
  | O, _ => s
  | S n', String _ s' => drop n' s'
  | S _, EmptyString => EmptyString
  end.

(** [s.split(sep)] for a one-character separator; [cur] holds, reversed,
    the characters of the piece being read. *)
Fixpoint split_go (sep : ascii) (s : string) (cur : string) : list string :=
  match s with
  | EmptyString => [String.rev cur]
  | String c s' =>
      if Ascii.eqb c sep then String.rev cur :: split_go sep s' EmptyString
      else split_go sep s' (String c cur)
  end.

Definition split (sep : ascii) (s : string) : list string :=
  split_go sep s EmptyString.

(** [s.split(sep, maxsplit)]: after [maxsplit] cuts the rest is one piece. *)
Fixpoint splitn_go (sep : ascii) (maxsplit : nat) (s : string) (cur : string)
  : list string :=
  match maxsplit with
  | O => [String.rev cur ++ s]
  | S m =>
      match s with
      | EmptyString => [String.rev cur]
      | String c s' =>
          if Ascii.eqb c sep
          then String.rev cur :: splitn_go sep m s' EmptyString
          else splitn_go sep maxsplit s' (String c cur)
      end
  end.

Definition splitn (sep : ascii) (maxsplit : nat) (s : string) : list string :=
  splitn_go sep maxsplit s EmptyString.

(** [sep.join(l)] *)
Definition join (sep : string) (l : list string) : string := String.concat sep l.

Definition eqb (a b : string) : bool := String.eqb a b.

(** [x in l] on a list of strings *)
Definition mem (x : string) (l : list string) : bool := existsb (eqb x) l.

(** [l.index(x)], where it is known that [x in l] *)
Fixpoint index (x : string) (l : list string) : option nat :=
  match l with
  | [] => None
  | y :: l' => if eqb y x then Some O else option_map S (index x l')
  end.

End Str.

(** ** Python built-ins whose result depends on hash order *)

Module Py.

(** [sorted(l)] is stable; [before y x] says that [y] has to come strictly
    before [x].  An element is placed in front of the elements it ties
    with, and the list is folded from the right, so that ties keep the
    order of the input: this is what [sorted] does, also with
    [reverse=True]. *)
Fixpoint insert {A : Type} (before : A -> A -> bool) (x : A) (l : list A) : list A :=
  match l with
  | [] => [x]
  | y :: l' => if before y x then y :: insert before x l' else x :: l
  end.

Fixpoint sorted {A : Type} (before : A -> A -> bool) (l : list A) : list A :=
  match l with
  | [] => []
  | x :: l' => insert before x (sorted before l')
  end.

(** The keys of a dict in the order of their first insertion. *)
Fixpoint first_seen (l : list string) (seen : list string) : list string :=
  match l with
  | [] => []
  | x :: l' =>
      if Str.mem x seen then first_seen l' seen
      else x :: first_seen l' (x :: seen)
  end.

(** Number of occurrences, the value a [defaultdict(int)] counter holds. *)
Definition count (x : string) (l : list string) : Z :=
  Z.of_nat (length (List.filter (Str.eqb x) l)).

End Py.

(** Python 2 iterates over a dict and over a set in hash-table order, which
    the script does not control.  The three iterations that the script
    performs are parameters of the model:
    - [TO_STR_keys]: the keys of the dict literal [Arch.TO_STR];
    - [set_iter xs]: [list(set(xs))];
    - [dict_iter ks]: the keys of a dict into which the distinct keys [ks]
      were inserted in that order. *)
Class Runtime : Type := {
  TO_STR_keys : list Z;
  set_iter : list string -> list string;
  dict_iter : list string -> list string
}.

(** What Python guarantees of these iterations. *)
Class RuntimeOk (rt : Runtime) : Prop := {
  TO_STR_keys_perm : TO_STR_keys ≡ₚ [1; 2; 4; 8];
  set_iter_NoDup : forall xs, NoDup (set_iter xs);
  set_iter_elem : forall xs x, x ∈ set_iter xs <-> x ∈ xs;
  dict_iter_perm : forall ks, dict_iter ks ≡ₚ ks
}.

(** An admissible runtime: every container iterates in insertion order. *)
Definition insertion_order : Runtime := {|
  TO_STR_keys := [1; 2; 4; 8];
  set_iter := fun xs => Py.first_seen xs [];
  dict_iter := fun ks => ks
|}.

(** Another one: sets iterate in reverse insertion order. *)
Definition reverse_order : Runtime := {|
  TO_STR_keys := [8; 1; 2; 4];
  set_iter := fun xs => reverse (Py.first_seen xs []);
  dict_iter := fun ks => reverse ks
|}.

(** ** Module constants *)

Definition IGNORE_OPTIONS : list string :=
  ["-norelay"; "-ret16"; "-ret64"; "-register"; "-private";
   "-noname"; "-ordinal"; "-i386"; "-arch="; "-stub"].

Definition FUNCTION_BLACKLIST : list string :=
  ["_abs64";
   "_byteswap_uint64"; "_byteswap_ulong"; "_byteswap_ushort";
   "_rotl64"; "_rotr64"].

Definition ALIAS_DLL : list (string * string) :=
  [("ucrtbase", "msvcrt");
   ("kernelbase", "kernel32");
   ("shcore", "shlwapi");
   ("combase", "ole32");
   ("cfgmgr32", "setupapi");
   ("wmi", "advapi32")].

Fixpoint assoc {V : Type} (k : string) (d : list (string * V)) : option V :=
  match d with
  | [] => None
  | (k', v) :: d' => if Str.eqb k' k then Some v else assoc k d'
  end.

(** ** class Arch *)

Module Arch.

Record t : Type := mk { _val : Z }.

Definition none : Z := 0.
Definition i386 : Z := 1.
Definition x86_64 : Z := 2.
Definition arm : Z := 4.
Definition arm64 : Z := 8.
Definition Any : Z := Z.lor (Z.lor (Z.lor i386 x86_64) arm) arm64.

Definition FROM_STR : list (string * Z) :=
  [("i386", i386); ("x86_64", x86_64); ("arm", arm); ("arm64", arm64);
   ("any", Any); ("win32", i386); ("win64", x86_64)].

(** [TO_STR[value]] *)
Definition TO_STR (value : Z) : string :=
  if value =? i386 then "i386"
  else if value =? x86_64 then "x86_64"
  else if value =? arm then "arm"
  else if value =? arm64 then "arm64"
  else "".

(** [Arch()] *)
Definition empty : t := mk none.

(** [[Arch.FROM_STR[arch] for arch in l]]: the first unknown name raises. *)
Fixpoint from_strs (l : list string) : result (list Z) :=
  match l with
  | [] => Ok []
  | a :: l' =>
      match assoc a FROM_STR with
      | None => Raise KeyError
      | Some v => vs ← from_strs l'; Ok (v :: vs)
      end
  end.

Definition sum (l : list Z) : Z := fold_left Z.add l 0.

(** [add]: the values of the listed names are summed, then or-ed in. *)
Definition add (self : t) (text : string) : result t :=
  vs ← from_strs (Str.split "," text);
  let v := Z.lor (_val self) (sum vs) in
  _ ← assert (negb (v =? 0));
  Ok (mk v).

Definition has (self : t) (val : Z) : bool :=
  negb (Z.land (_val self) val =? 0).

Definition to_str `{Runtime} (self : t) : string :=
  Str.join ","
    (map TO_STR
       (List.filter (fun value => negb (Z.land value (_val self) =? 0)) TO_STR_keys)).

Fixpoint ones (p : positive) : Z :=
  match p with
  | xH => 1
  | xO p' => ones p'
  | xI p' => 1 + ones p'
  end.

(** [__len__]: [bin(self._val).count("1")] *)
Definition __len__ (self : t) : Z :=
  match _val self with
  | Z0 => 0
  | Zpos p => ones p
  | Zneg p => ones p
  end.

(** Truth value of an [Arch]: the class has no [__nonzero__], so Python 2
    takes [__len__() != 0]. *)
Definition truth (self : t) : bool := negb (__len__ self =? 0).

Definition __add__ (self other : t) : t := mk (Z.lor (_val self) (_val other)).
Definition __sub__ (self other : t) : t :=
  mk (Z.land (_val self) (Z.lnot (_val other))).
Definition __gt__ (self other : t) : bool := _val other <? _val self.
Definition __lt__ (self other : t) : bool := _val self <? _val other.
Definition __eq__ (self other : t) : bool := _val self =? _val other.
Definition __ne__ (self other : t) : bool := negb (__eq__ self other).

End Arch.

(** ** class SpecEntry *)

(** [a == b] where either side may be [None]. *)
Definition option_eqb {A : Type} (eqb : A -> A -> bool) (a b : option A) : bool :=
  match a, b with
  | Some x, Some y => eqb x y
  | None, None => true
  | _, _ => false
  end.

Module SpecEntry.

(** [spec] is the back-reference to the owning [SpecFile], kept as that
    file's name (the only thing read through it).  [_forwarder] is
    [None], [[]] or a two-element list in the script, and only its truth
    value and its two elements are ever read: [None] stands for both
    falsy values, [Some (module, symbol)] for the list. *)
Record t : Type := mk {
  spec : string;
  _ord : string;
  callconv : option string;
  name : string;
  arch : Arch.t;
  _forwarder : option (string * string);
  noname : bool
}.

Definition is_sep (c : ascii) : bool :=
  Str.isspace_char c ||
  Ascii.eqb c "(" || Ascii.eqb c ")" || Ascii.eqb c "#" || Ascii.eqb c ";".

(** [re.split(r'([\s\(\)#;])', s)]: the pieces between separators and,
    because of the capturing group, the separators themselves. *)
Fixpoint re_split (s : string) (cur : string) : list string :=
  match s with
  | EmptyString => [String.rev cur]
  | String c s' =>
      if is_sep c
      then String.rev cur :: String c EmptyString :: re_split s' EmptyString
      else re_split s' (String c cur)
  end.

(** The token list of a line, comments removed (lines 130-138). *)
Definition tokenize (text : string) : list string :=
  let tokens := re_split (Str.strip text) EmptyString in
  let tokens :=
    List.filter (fun token => Str.nonempty token && negb (Str.isspace token)) tokens in
  let idx :=
    flat_map (fun comment =>
                if Str.mem comment tokens
                then match Str.index comment tokens with
                     | Some i => [i]
                     | None => []
                     end
                else [])
             ["#"; ";"] in
  let idx := Py.sorted Nat.ltb idx in
  match idx with
  | i :: _ => take i tokens
  | [] => tokens
  end.

(** The [while self.name.startswith(IGNORE_OPTIONS)] loop. *)
Fixpoint skip_options (tokens : list string) (name : string) (arch : Arch.t)
  {struct tokens} : result (string * Arch.t * list string) :=
  if Str.startswith_any name IGNORE_OPTIONS then
    arch' ← (if Str.startswith name "-arch=" then Arch.add arch (Str.drop 6 name)
             else if Str.eqb name "-i386" then Arch.add arch "i386"
             else Ok arch);
    match tokens with
    | [] => Raise IndexError
    | t :: ts => skip_options ts t arch'
    end
  else Ok (name, arch, tokens).

(** The [while True: arg = tokens.pop(0)] loop that drops the arguments. *)
Fixpoint skip_args (tokens : list string) : result (list string) :=
  match tokens with
  | [] => Raise IndexError
  | arg :: ts => if Str.eqb arg ")" then Ok ts else skip_args ts
  end.

(** Lines 167-172: the forward target of the last token. *)
Definition parse_forwarder (token : string) : result (string * string) :=
  let parts := Str.splitn "." 2 token in
  let parts := match parts with [symbol] => ["self"; symbol] | _ => parts end in
  match parts with
  | [module; symbol] =>
      match assoc module ALIAS_DLL with
      | Some alias => Ok (alias, symbol)
      | None => Ok (module, symbol)
      end
  | _ => Raise AssertionError
  end.

(** [init(text)], on the fields [__init__] has just cleared. *)
Definition init (text : string) (spec : string) : result t :=
  match tokenize text with
  | [] => Raise (InvalidSpecError text)
  | ord :: tokens =>
      _ ← assert (Str.eqb ord "@" || Str.isdigit ord);
      match tokens with
      | [] => Raise IndexError
      | callconv :: tokens =>
          match tokens with
          | [] => Raise IndexError
          | name :: tokens =>
              '(name, arch, tokens) ← skip_options tokens name Arch.empty;
              let arch := if negb (Arch.truth arch) then Arch.mk Arch.Any else arch in
              _ ← assert (negb (Str.startswith name "-"));
              let entry fwd := mk spec ord (Some callconv) name arch fwd false in
              match tokens with
              | [] => Ok (entry None)
              | tok0 :: _ =>
                  tokens ← (if Str.eqb tok0 "("
                            then _ ← assert (Str.mem ")" tokens);
                                 skip_args (tail tokens)
                            else Ok tokens);
                  match tokens with
                  | [] => Ok (entry None)
                  | [token] => fwd ← parse_forwarder token; Ok (entry (Some fwd))
                  | _ => Raise AssertionError
                  end
              end
          end
      end
  end.

(** [SpecEntry(text, spec)] *)
Definition new (text : string) (spec : string) : result t :=
  self ← init text spec;
  if Str.eqb (name self) "@" then
    match _forwarder self with
    | Some (_, symbol) =>
        Ok (mk (SpecEntry.spec self) (_ord self) (callconv self) symbol (arch self)
               (_forwarder self) true)
    | None =>
        Ok (mk (SpecEntry.spec self) (_ord self) (callconv self) (name self) (arch self)
               (_forwarder self) true)
    end
  else Ok self.

(** [forwarder_module()]: [None] when there is no forward target. *)
Definition forwarder_module (self : t) : option string :=
  match _forwarder self with
  | Some (module, _) => Some module
  | None => None
  end.

(** [forwarder()] *)
Definition forwarder (self : t) : Z :=
  match _forwarder self with
  | Some _ => 1
  | None => 0
  end.

(** Assignments to the fields the resolver and the writer overwrite. *)
Definition set_arch (self : t) (a : Arch.t) : t :=
  mk (spec self) (_ord self) (callconv self) (name self) a (_forwarder self)
     (noname self).

Definition set_resolved (self : t) (a : Arch.t) (fwd : option (string * string))
  (cc : option string) : t :=
  mk (spec self) (_ord self) cc (name self) a fwd (noname self).

Definition nl : string := String (ascii_of_nat 10) EmptyString.

(** ['{} stub{} {}\n'.format(ord, opts, name)] *)
Definition stub_line (ord opts name : string) : string :=
  ord +:+ " stub" +:+ opts +:+ " " +:+ name +:+ nl.

(** ['{ord} {cc}{opts} {name}{args} {fwd}\n'.format(...)] *)
Definition forward_line (ord cc opts name args fwd : string) : string :=
  ord +:+ " " +:+ cc +:+ opts +:+ " " +:+ name +:+ args +:+ " " +:+ fwd +:+ nl.

(** Lines 257-258. *)
Definition arch_opts `{Runtime} (opts : string) (arch : Arch.t) : string :=
  if Arch.__ne__ arch (Arch.mk Arch.Any)
  then opts +:+ " -arch=" +:+ Arch.to_str arch
  else opts.

(** [write(spec_file)]: the lines written to [spec_file], in order, and
    the size estimate returned.  The method calls itself once, on the
    record with x86_64 taken out of its architectures, before it writes
    the x86_64 line; the [match] on [Arch.has] keeps the outcome of the
    test for the proof that this recursion ends.  [self.arch] is restored
    after the inner call, so the record itself is left as it was. *)
Equations? write `{Runtime} (self : t) : result (list string * Z)
  by wf (if Arch.has (arch self) Arch.x86_64 then 1 else 0)%nat lt :=
  write self :=
    let opts := "" in
    let opts := if noname self then opts +:+ " -noname" else opts in
    name ← (if Str.eqb (SpecEntry.name self) "@"
            then _ ← assert (negb (Str.eqb (_ord self) "@"));
                 Ok ("Ordinal" +:+ _ord self)
            else Ok (SpecEntry.name self));
    match _forwarder self with
    | None => Ok ([stub_line (_ord self) opts name], 0x1000)
    | Some (module, symbol) =>
        _ ← assert (Arch.__ne__ (arch self) Arch.empty);
        let name := if negb (noname self) then SpecEntry.name self else "@" in
        if option_eqb Str.eqb (callconv self) (Some "extern") then
          match Arch.has (arch self) Arch.x86_64 as b
                return Arch.has (arch self) Arch.x86_64 = b -> result (list string * Z)
          with
          | true => fun Hhas =>
              let fwd := module +:+ ".__imp_" +:+ symbol in
              '(lines, size) ←
                write (set_arch self (Arch.__sub__ (arch self) (Arch.mk Arch.x86_64)));
              let opts := arch_opts opts (Arch.mk Arch.x86_64) in
              Ok ((lines ++ [forward_line (_ord self) "extern" opts name "" fwd])%list,
                  size + 0x100)
          | false => fun _ =>
              let fwd := module +:+ "._imp__" +:+ symbol in
              let opts := arch_opts opts (arch self) in
              Ok ([forward_line (_ord self) "extern" opts name "" fwd], 0x100)
          end eq_refl
        else
          let fwd := module +:+ "." +:+ symbol in
          let opts := arch_opts opts (arch self) in
          Ok ([forward_line (_ord self) "stdcall" opts name "()" fwd], 0x100)
    end.
Proof.
  unfold Arch.has in *; simpl.
  rewrite <- Z.land_assoc, (Z.land_comm (Z.lnot _)), Z.land_lnot_diag, Z.land_0_r.
  simpl. destruct (Z.land _ _ =? 0); [discriminate | simpl; lia].
Qed.

End SpecEntry.

(** ** class SpecFile *)

Module SpecFile.

(** [_path] is left out: [parse] takes the lines of the file.  The records
    in [_functions] are the objects of [_entries]; the index is only read
    ([find]) on concrete modules, whose records are never written to after
    [parse], so the model stores them by value. *)
Record t : Type := mk {
  name : string;
  _entries : list SpecEntry.t;
  _functions : gmap string (list SpecEntry.t);
  _estimate_size : Z
}.

(** [SpecFile(fullpath, name)] *)
Definition new (name : string) : t := mk name [] ∅ 0.

(** [d[key].append(entry)] on a [defaultdict(list)] *)
Definition append_to (key : string) (entry : SpecEntry.t)
  (d : gmap string (list SpecEntry.t)) : gmap string (list SpecEntry.t) :=
  <[key := (default [] (d !! key) ++ [entry])%list]> d.

(** The loop of [parse]: [InvalidSpecError] is caught, anything else
    propagates. *)
Fixpoint parse_lines (spec : string) (lines : list string)
  (entries : list SpecEntry.t) (functions : gmap string (list SpecEntry.t))
  : result (list SpecEntry.t * gmap string (list SpecEntry.t)) :=
  match lines with
  | [] => Ok (entries, functions)
  | line :: lines' =>
      if Str.nonempty line then
        match SpecEntry.new line spec with
        | Ok entry =>
            parse_lines spec lines' (entries ++ [entry])%list
              (append_to (SpecEntry.name entry) entry functions)
        | Raise (InvalidSpecError _) => parse_lines spec lines' entries functions
        | Raise e => Raise e
        end
      else parse_lines spec lines' entries functions
  end.

Definition sum (l : list Z) : Z := fold_left Z.add l 0.

(** [parse()], on the lines [readlines()] returns. *)
Definition parse (self : t) (lines : list string) : result (t * (Z * Z)) :=
  '(entries, functions) ← parse_lines (name self) lines (_entries self) (_functions self);
  Ok (mk (name self) entries functions (_estimate_size self),
      (sum (map SpecEntry.forwarder entries), Z.of_nat (length entries))).

Definition add_functions (self : t) (function_lookup : gmap string (list SpecEntry.t))
  : gmap string (list SpecEntry.t) :=
  fold_left (fun lookup entry => append_to (SpecEntry.name entry) entry lookup)
            (_entries self) function_lookup.

(** [find(name)]: [self._functions.get(name, None)] *)
Definition find (self : t) (name : string) : option (list SpecEntry.t) :=
  _functions self !! name.

Definition find_arch (self : t) (name : string) : Arch.t :=
  match find self name with
  | Some functions =>
      fold_left (fun arch func => Arch.__add__ arch (SpecEntry.arch func))
                functions Arch.empty
  | None => Arch.empty
  end.

(** Truth value of a string or [None]. *)
Definition truthy (s : option string) : bool :=
  match s with
  | Some s => Str.nonempty s
  | None => false
  end.

(** The loop of [find_callconv]. *)
Fixpoint find_callconv_loop (functions : list SpecEntry.t) (callconv : option string)
  : result (option string) :=
  match functions with
  | [] => Ok callconv
  | func :: functions' =>
      if negb (truthy callconv) then
        find_callconv_loop functions' (SpecEntry.callconv func)
      else if negb (option_eqb Str.eqb callconv (SpecEntry.callconv func)) then
        _ ← assert (negb (option_eqb Str.eqb callconv (Some "extern")));
        find_callconv_loop functions' (SpecEntry.callconv func)
      else find_callconv_loop functions' callconv
  end.

Definition find_callconv (self : t) (name : string) : result (option string) :=
  match find self name with
  | Some functions => find_callconv_loop functions None
  | None => Ok None
  end.

(** The counting loop of [forwarder_modules]: the keys of [modules] in
    the order of their first insertion, and the counters. *)
Definition count_modules (entries : list SpecEntry.t) : list string * gmap string Z :=
  fold_left
    (fun '(keys, modules) entry =>
       match SpecEntry.forwarder_module entry with
       | Some module =>
           if Str.nonempty module
           then (if Str.mem module keys then keys else (keys ++ [module])%list,
                 <[module := default 0 (modules !! module) + 1]> modules)
           else (keys, modules)
       | None => (keys, modules)
       end)
    entries ([], ∅).

(** [sorted(modules, key=modules.get, reverse=True)] *)
Definition forwarder_modules `{Runtime} (self : t) : list string :=
  let '(keys, modules) := count_modules (_entries self) in
  let get k := default 0 (modules !! k) in
  Py.sorted (fun y x => get x <? get y) (dict_iter keys).

(** The loop of [write]. *)
Fixpoint write_entries `{Runtime} (entries : list SpecEntry.t) (written : gset string)
  (estimate_size : Z) : result (list string * Z) :=
  match entries with
  | [] => Ok ([], estimate_size)
  | entry :: entries' =>
      if bool_decide (SpecEntry.name entry ∉ written) then
        '(lines, size) ← SpecEntry.write entry;
        '(lines', total) ←
          write_entries entries' ({[SpecEntry.name entry]} ∪ written)
                        (estimate_size + size);
        Ok ((lines ++ lines')%list, total)
      else write_entries entries' written estimate_size
  end.

(** [write(spec_file)]: the lines written and [self] with its new
    [_estimate_size]. *)
Definition write `{Runtime} (self : t) : result (t * list string) :=
  let written : gset string := list_to_set FUNCTION_BLACKLIST in
  '(lines, size) ← write_entries (_entries self) written 0;
  Ok (mk (name self) (_entries self) (_functions self) size, lines).

Definition hexdigit (d : Z) : ascii :=
  if d <? 10 then ascii_of_nat (48 + Z.to_nat d) else ascii_of_nat (87 + Z.to_nat d).

Fixpoint hex_go (fuel : nat) (n : Z) (acc : string) : string :=
  match fuel with
  | O => acc
  | S fuel' =>
      if n =? 0 then acc
      else hex_go fuel' (n / 16) (String (hexdigit (n mod 16)) acc)
  end.

(** ['{:x}'.format(n)] for [0 <= n] *)
Definition hex (n : Z) : string :=
  if n =? 0 then "0" else hex_go (S (Z.to_nat (Z.log2 n))) n EmptyString.

Fixpoint spaces (n : nat) : string :=
  match n with
  | O => EmptyString
  | S n' => String " "%char (spaces n')
  end.

(** ['{:8x}'.format(n)]: right-aligned in a field of 8 characters. *)
Definition hex8 (n : Z) : string :=
  let digits := hex n in
  spaces (8 - String.length digits) +:+ digits.

(** The comprehension of line 352; [seen.add(x)] returns [None]. *)
Fixpoint fwd_strings (forwarders : list string) (seen : gset string) : list string :=
  match forwarders with
  | [] => []
  | x :: forwarders' =>
      if bool_decide (x ∈ seen) || Str.mem x ["ntdll"; "kernel32"; "self"; "cfgmgr32"; "wmi"]
      then fwd_strings forwarders' seen
      else x :: fwd_strings forwarders' ({[x]} ∪ seen)
  end.

(** [write_cmake(cmakelists, baseaddress)]: the line written and the
    estimate returned. *)
Definition write_cmake `{Runtime} (self : t) (baseaddress : Z) : string * Z :=
  let forwarders := forwarder_modules self in
  let fwd_strings := Str.join " " (fwd_strings forwarders ∅) in
  let baseaddress := "0x" +:+ hex8 baseaddress in
  ("add_apiset(" +:+ name self +:+ " " +:+ baseaddress +:+ " " +:+ fwd_strings +:+ ")"
     +:+ SpecEntry.nl,
   _estimate_size self).

End SpecFile.

(** ** The two resolution passes *)

Module Resolver.

(** The [for module_name in try_modules] loop of
    [SpecEntry.resolve_forwarders], entered with [_forwarder] and [arch]
    cleared. *)
Fixpoint try_modules_loop (self : SpecEntry.t) (module_lookup : gmap string SpecFile.t)
  (try_modules : list string) : result (SpecEntry.t * Z) :=
  match try_modules with
  | [] => Ok (self, 0)
  | module_name :: try_modules' =>
      match module_lookup !! module_name with
      | None => Raise AssertionError
      | Some module =>
          let fwd_arch := SpecFile.find_arch module (SpecEntry.name self) in
          callconv ← SpecFile.find_callconv module (SpecEntry.name self);
          if Arch.truth fwd_arch
          then Ok (SpecEntry.set_resolved self fwd_arch
                     (Some (module_name, SpecEntry.name self)) callconv, 1)
          else try_modules_loop self module_lookup try_modules'
      end
  end.

(** [SpecEntry.resolve_forwarders(module_lookup, try_modules)]: the record
    after the call and the value returned. *)
Definition entry_resolve_forwarders (self : SpecEntry.t)
  (module_lookup : gmap string SpecFile.t) (try_modules : list string)
  : result (SpecEntry.t * Z) :=
  _ ← match SpecEntry._forwarder self with
      | Some (_, symbol) => assert (Str.eqb symbol (SpecEntry.name self))
      | None => Ok tt
      end;
  if SpecEntry.noname self && Str.eqb (SpecEntry.name self) "@" then Ok (self, 0)
  else
    let self := SpecEntry.set_resolved self Arch.empty None (SpecEntry.callconv self) in
    try_modules_loop self module_lookup try_modules.

(** The [for module in modules] loop of [SpecEntry.extra_forwarders]. *)
Fixpoint select_loop (name : string) (module_lookup : gmap string SpecFile.t)
  (modules : list string) (mod_ : option string) (arch : Arch.t)
  : result (option string) :=
  match modules with
  | [] => Ok mod_
  | module :: modules' =>
      match module_lookup !! module with
      | None => Raise KeyError
      | Some m =>
          let mod_arch := SpecFile.find_arch m name in
          if match mod_ with None => true | Some _ => false end
             || Arch.__gt__ mod_arch arch
          then select_loop name module_lookup modules' (Some module) mod_arch
          else select_loop name module_lookup modules' mod_ arch
      end
  end.

(** [SpecEntry.extra_forwarders(function_lookup, module_lookup)] *)
Definition entry_extra_forwarders `{Runtime} (self : SpecEntry.t)
  (function_lookup : gmap string (list SpecEntry.t))
  (module_lookup : gmap string SpecFile.t) : result (SpecEntry.t * Z) :=
  if match SpecEntry._forwarder self with Some _ => true | None => false end
  then Ok (self, 1)
  else if SpecEntry.noname self && Str.eqb (SpecEntry.name self) "@" then Ok (self, 0)
  else
    match function_lookup !! SpecEntry.name self with
    | None | Some [] => Ok (self, 0)
    | Some lst =>
        let modules := set_iter (map SpecEntry.spec lst) in
        modules ← (if (1 <? Z.of_nat (length modules))
                   then mod_ ← select_loop (SpecEntry.name self) module_lookup modules
                                 None Arch.empty;
                        Ok [mod_]
                   else Ok (map Some modules));
        match modules with
        | [] => Raise IndexError
        | None :: _ => Raise KeyError
        | Some mod_ :: _ =>
            match module_lookup !! mod_ with
            | None => Raise KeyError
            | Some m =>
                callconv ← SpecFile.find_callconv m (SpecEntry.name self);
                Ok (SpecEntry.set_resolved self
                      (SpecFile.find_arch m (SpecEntry.name self))
                      (Some (mod_, SpecEntry.name self)) callconv, 1)
            end
        end
    end.

(** A [for entry in self._entries: total += f(entry)] loop over records
    that [f] may overwrite. *)
Fixpoint for_entries (f : SpecEntry.t -> result (SpecEntry.t * Z))
  (entries : list SpecEntry.t) (total : Z) : result (list SpecEntry.t * Z) :=
  match entries with
  | [] => Ok ([], total)
  | entry :: entries' =>
      '(entry', n) ← f entry;
      '(rest, total') ← for_entries f entries' (total + n);
      Ok (entry' :: rest, total')
  end.

(** A file with another list of records, its other fields as they are. *)
Definition with_entries (self : SpecFile.t) (entries : list SpecEntry.t) : SpecFile.t :=
  SpecFile.mk (SpecFile.name self) entries (SpecFile._functions self)
              (SpecFile._estimate_size self).

#[global] Instance Arch_eq_dec : EqDecision Arch.t.
Proof. solve_decision. Defined.

#[global] Instance SpecEntry_eq_dec : EqDecision SpecEntry.t.
Proof. solve_decision. Defined.

(** What an object holds after a loop that has overwritten the objects
    [old] in place, leaving them as [new]: an object of [old] holds what the
    loop left in it, any other object is as it was. *)
Fixpoint overwritten (old new : list SpecEntry.t) (func : SpecEntry.t) : SpecEntry.t :=
  match old, new with
  | entry :: old', entry' :: new' =>
      if decide (func = entry) then entry' else overwritten old' new' func
  | _, _ => func
  end.

(** The file after a pass.  A pass assigns to the fields of the objects of
    [_entries], and [_functions] holds these very objects (lines 283-285):
    the index shows the records as the pass left them. *)
Definition in_place (self : SpecFile.t) (entries : list SpecEntry.t) : SpecFile.t :=
  SpecFile.mk (SpecFile.name self) entries
              (map (overwritten (SpecFile._entries self) entries) <$> SpecFile._functions self)
              (SpecFile._estimate_size self).

(** [SpecFile.resolve_forwarders(module_lookup)] *)
Definition resolve_forwarders `{Runtime} (self : SpecFile.t)
  (module_lookup : gmap string SpecFile.t) : result (SpecFile.t * (Z * Z)) :=
  let modules := SpecFile.forwarder_modules self in
  '(entries, total) ←
    for_entries (fun entry => entry_resolve_forwarders entry module_lookup modules)
                (SpecFile._entries self) 0;
  Ok (in_place self entries, (total, Z.of_nat (length (SpecFile._entries self)))).

(** [SpecFile.extra_forwarders(function_lookup, module_lookup)] *)
Definition extra_forwarders `{Runtime} (self : SpecFile.t)
  (function_lookup : gmap string (list SpecEntry.t))
  (module_lookup : gmap string SpecFile.t) : result (SpecFile.t * (Z * Z)) :=
  '(entries, total) ←
    for_entries (fun entry => entry_extra_forwarders entry function_lookup module_lookup)
                (SpecFile._entries self) 0;
  Ok (in_place self entries, (total, Z.of_nat (length (SpecFile._entries self)))).

End Resolver.

(** ** The [run] function *)

Module Run.

Definition SPEC_HEADER : list string :=
  [SpecEntry.nl;
   "# This file is autogenerated by update.py" +:+ SpecEntry.nl;
   SpecEntry.nl].

(** [for x in xs: x = f(x)] for a method [f] that may raise. *)
Fixpoint for_each {A B : Type} (f : A -> result B) (xs : list A) : result (list B) :=
  match xs with
  | [] => Ok []
  | x :: xs' => y ← f x; ys ← for_each f xs'; Ok (y :: ys)
  end.

(** A spec file found on disk: the name given to its [SpecFile] and the
    lines of the file. *)
Definition source : Type := string * list string.

Definition parse_source (src : source) : result SpecFile.t :=
  '(spec, _) ← SpecFile.parse (SpecFile.new (fst src)) (snd src);
  Ok spec.

(** Lines 411-415: the two registries. *)
Fixpoint register (ros_modules : list source)
  (module_lookup : gmap string SpecFile.t)
  (function_lookup : gmap string (list SpecEntry.t))
  : result (gmap string SpecFile.t * gmap string (list SpecEntry.t)) :=
  match ros_modules with
  | [] => Ok (module_lookup, function_lookup)
  | src :: ros_modules' =>
      module ← parse_source src;
      _ ← assert (bool_decide (module_lookup !! SpecFile.name module = None));
      register ros_modules' (<[SpecFile.name module := module]> module_lookup)
               (SpecFile.add_functions module function_lookup)
  end.

(** Lines 439-444: the base address handed to each [write_cmake] call,
    with the line that call writes. *)
Fixpoint cmake_loop `{Runtime} (wine_apisets : list SpecFile.t) (baseaddress : Z)
  : list (Z * string) :=
  match wine_apisets with
  | [] => []
  | apiset :: wine_apisets' =>
      let '(line, size) := SpecFile.write_cmake apiset baseaddress in
      let next := baseaddress + size in
      let next := next + (0x10000 - next) mod 0x10000 in
      (baseaddress, line) :: cmake_loop wine_apisets' next
  end.

Record output : Type := mk_output {
  spec_files : list (string * list string);
  cmakelists : list (Z * string)
}.

(** [run(wineroot)], from the spec files of Wine's api-sets and of the
    ReactOS modules to the files written.  Listing the directories, the
    version string and the CMake template are left out. *)
Definition run `{Runtime} (wine : list source) (ros : list source) : result output :=
  wine_apisets ← for_each parse_source wine;
  '(module_lookup, function_lookup) ← register ros ∅ ∅;
  wine_apisets ←
    for_each (fun apiset => '(apiset, _) ← Resolver.resolve_forwarders apiset module_lookup;
                            Ok apiset) wine_apisets;
  wine_apisets ←
    for_each (fun apiset =>
                '(apiset, _) ← Resolver.extra_forwarders apiset function_lookup module_lookup;
                Ok apiset) wine_apisets;
  written ← for_each SpecFile.write wine_apisets;
  Ok (mk_output
        (map (fun '(apiset, lines) =>
                (SpecFile.name apiset +:+ ".spec", (SPEC_HEADER ++ lines)%list)) written)
        (cmake_loop (map fst written) 0x60000000)).

End Run.

(** * Vocabulary of the properties *)

(** The options and the names [SpecEntry.write] computes before it looks
    at the forward target. *)
Definition noname_opts (self : SpecEntry.t) : string :=
  if SpecEntry.noname self then " -noname" else "".

Definition stub_name (self : SpecEntry.t) : string :=
  if Str.eqb (SpecEntry.name self) "@" then "Ordinal" +:+ SpecEntry._ord self
  else SpecEntry.name self.

Definition forward_name (self : SpecEntry.t) : string :=
  if negb (SpecEntry.noname self) then SpecEntry.name self else "@".

(** [assert self._ord != '@'], made only when the name is ['@']. *)
Definition ordinal_ok (self : SpecEntry.t) : bool :=
  negb (Str.eqb (SpecEntry.name self) "@") || negb (Str.eqb (SpecEntry._ord self) "@").

Definition is_extern (self : SpecEntry.t) : bool :=
  option_eqb Str.eqb (SpecEntry.callconv self) (Some "extern").

(** The calling-convention field of a forward line. *)
Definition emitted_callconv (self : SpecEntry.t) : string :=
  if is_extern self then "extern" else "stdcall".

(** ** Sample inputs *)

(** Spec files of four concrete modules. *)
Definition sample_ros : list Run.source :=
  [("kernel32", ["@ stdcall -arch=i386 Foo(long)"; "@ stdcall -arch=arm Foo(long)";
                 "@ stdcall Hid(long)"]);
   ("ntdll", ["@ cdecl -arch=x86_64 Qux(ptr)"; "@ stdcall Bar()";
              "@ cdecl -arch=arm64 Baz()"]);
   ("msvcrt", ["@ extern -arch=i386,x86_64 SomeVar"]);
   ("other", ["@ cdecl -arch=i386,x86_64,arm Baz()"; "@ cdecl _rotl64(int64 long)"])].

(** Spec files of three api-sets. *)
Definition sample_utility_lines : list string :=
  ["# intrinsics"; "@ cdecl _rotl64(int64 long) ucrtbase._rotl64"].

Definition sample_core_lines : list string :=
  ["@ stdcall Foo(long) kernelbase.Foo"; "@ stdcall Bar() kernel32.Bar";
   "@ cdecl Qux(ptr) ntdll.Qux"; "@ extern SomeVar msvcrt.SomeVar";
   "3 stdcall -noname @(long) kernel32.Hid"; "4 stub -noname @"].

Definition sample_wine : list Run.source :=
  [("api-ms-win-crt-utility-l1-1-0", sample_utility_lines);
   ("api-ms-win-core-sample-l1-1-0", sample_core_lines);
   ("api-ms-win-core-misc-l1-1-0", ["@ stub Baz"])].

(** The registries [run] builds from [sample_ros]. *)
Definition sample_registries
  : gmap string SpecFile.t * gmap string (list SpecEntry.t) :=
  match Run.register sample_ros ∅ ∅ with
  | Ok registries => registries
  | Raise _ => (∅, ∅)
  end.

Definition sample_module_lookup : gmap string SpecFile.t := fst sample_registries.
Definition sample_function_lookup : gmap string (list SpecEntry.t) := snd sample_registries.

(** Records of the second api-set, as parsed and as resolved. *)
Definition sample_var : SpecEntry.t :=
  SpecEntry.mk "api-ms-win-core-sample-l1-1-0" "@" (Some "extern") "SomeVar"
               (Arch.mk (Z.lor Arch.i386 Arch.x86_64)) (Some ("msvcrt", "SomeVar")) false.

Definition sample_qux_parsed : SpecEntry.t :=
  SpecEntry.mk "api-ms-win-core-sample-l1-1-0" "@" (Some "cdecl") "Qux"
               (Arch.mk Arch.Any) (Some ("ntdll", "Qux")) false.

Definition sample_qux : SpecEntry.t :=
  SpecEntry.mk "api-ms-win-core-sample-l1-1-0" "@" (Some "cdecl") "Qux"
               (Arch.mk Arch.x86_64) (Some ("ntdll", "Qux")) false.

Definition sample_rotl_parsed : SpecEntry.t :=
  SpecEntry.mk "api-ms-win-crt-utility-l1-1-0" "@" (Some "cdecl") "_rotl64"
               (Arch.mk Arch.Any) (Some ("msvcrt", "_rotl64")) false.

Definition sample_rotl_unresolved : SpecEntry.t :=
  SpecEntry.mk "api-ms-win-crt-utility-l1-1-0" "@" (Some "cdecl") "_rotl64"
               Arch.empty None false.

Definition sample_rotl : SpecEntry.t :=
  SpecEntry.mk "api-ms-win-crt-utility-l1-1-0" "@" (Some "cdecl") "_rotl64"
               (Arch.mk Arch.Any) (Some ("other", "_rotl64")) false.

(** [b] is [a] rounded up to a multiple of 64KB. *)
Definition round_up_64K (a b : Z) : Prop :=
  b mod 0x10000 = 0 /\ a <= b < a + 0x10000.

(** Two api-sets that hold the estimates 0x1100 and 0x100; their records do
    not matter to the allocation of base addresses. *)
Definition sample_written : list SpecFile.t :=
  [SpecFile.mk "api-ms-win-core-a-l1-1-0" [] ∅ 0x1100;
   SpecFile.mk "api-ms-win-core-b-l1-1-0" [] ∅ 0x100].

(** A module that exports [Foo] as a function and then as data, and one
    that exports it as data and then as a function. *)
Definition parsed (name : string) (lines : list string) : SpecFile.t :=
  match SpecFile.parse (SpecFile.new name) lines with
  | Ok (spec, _) => spec
  | Raise _ => SpecFile.new name
  end.

(** The first two sample api-sets as [parse] leaves them. *)
Definition sample_utility : SpecFile.t :=
  parsed "api-ms-win-crt-utility-l1-1-0" sample_utility_lines.

Definition sample_core : SpecFile.t :=
  parsed "api-ms-win-core-sample-l1-1-0" sample_core_lines.

Definition sample_function_then_data : SpecFile.t :=
  parsed "mixed" ["@ stdcall -arch=i386 Foo(long)"; "@ extern -arch=x86_64 Foo"].

Definition sample_data_then_function : SpecFile.t :=
  parsed "mixed" ["@ extern -arch=x86_64 Foo"; "@ stdcall -arch=i386 Foo(long)"].

(** The record [Baz] of the third api-set after pass 1 and after pass 2. *)
Definition sample_baz_unresolved : SpecEntry.t :=
  SpecEntry.mk "api-ms-win-core-misc-l1-1-0" "@" (Some "stub") "Baz" Arch.empty None false.

Definition sample_baz : SpecEntry.t :=
  SpecEntry.mk "api-ms-win-core-misc-l1-1-0" "@" (Some "cdecl") "Baz"
               (Arch.mk Arch.arm64) (Some ("ntdll", "Baz")) false.

(** The record [Bar] of the second api-set, as parsed and after pass 1. *)
Definition sample_bar_parsed : SpecEntry.t :=
  SpecEntry.mk "api-ms-win-core-sample-l1-1-0" "@" (Some "stdcall") "Bar"
               (Arch.mk Arch.Any) (Some ("kernel32", "Bar")) false.

Definition sample_bar : SpecEntry.t :=
  SpecEntry.mk "api-ms-win-core-sample-l1-1-0" "@" (Some "stdcall") "Bar"
               (Arch.mk Arch.Any) (Some ("ntdll", "Bar")) false.


(** ** Vocabulary of the resolver properties *)

(** A module exports a name when its index holds a record under it. *)
Definition exports (module : SpecFile.t) (name : string) : Prop :=
  exists func functions, SpecFile.find module name = Some (func :: functions).

(** Every indexed record of the module has an architecture, as every record
    built by [SpecEntry.new] has. *)
Definition records_have_arch (module : SpecFile.t) : Prop :=
  map_Forall (fun _ functions =>
                Forall (fun func => Arch._val (SpecEntry.arch func) <> 0) functions)
             (SpecFile._functions module).

(** The module names the records name as forward target, in record order. *)
Definition forward_modules (entries : list SpecEntry.t) : list string :=
  flat_map (fun entry =>
              match SpecEntry.forwarder_module entry with
              | Some module => if Str.nonempty module then [module] else []
              | None => []
              end) entries.

(** Number of records of the api-set that forward to [module]. *)
Definition usage (self : SpecFile.t) (module : string) : Z :=
  Py.count module (forward_modules (SpecFile._entries self)).

(** The bit mask of the architectures for which [module] exports [name]. *)
Definition arch_value (module_lookup : gmap string SpecFile.t) (name module : string) : Z :=
  match module_lookup !! module with
  | Some m => Arch._val (SpecFile.find_arch m name)
  | None => 0
  end.

(** Some convention of the list is [extern] and is followed by a different
    one; [c] is the convention in front of the list. *)
Fixpoint extern_then_other (c : string) (cs : list string) : bool :=
  match cs with
  | [] => false
  | c' :: cs' => (Str.eqb c "extern" && negb (Str.eqb c c')) || extern_then_other c' cs'
  end.

(** ** Vocabulary of the further properties *)

(** The names of the architectures of a set. *)
Definition arch_names (a : Arch.t) : list string :=
  ((if Arch.has a Arch.i386 then ["i386"] else [])
   ++ (if Arch.has a Arch.x86_64 then ["x86_64"] else [])
   ++ (if Arch.has a Arch.arm then ["arm"] else [])
   ++ (if Arch.has a Arch.arm64 then ["arm64"] else []))%list.

(** A token that holds no white space, parenthesis or comment sign. *)
Definition plain_token (token : string) : bool :=
  Str.all_chars (fun c => negb (SpecEntry.is_sep c)) token.

(** A string without dot. *)
Definition no_dot (s : string) : bool :=
  Str.all_chars (fun c => negb (Ascii.eqb c ".")) s.

(** The records of a list that have a given name, in order. *)
Definition records_named (name : string) (entries : list SpecEntry.t) : list SpecEntry.t :=
  List.filter (fun entry => Str.eqb (SpecEntry.name entry) name) entries.

(** What a lookup in a per-name index returns for a list of records. *)
Definition index_entry (records : list SpecEntry.t) : option (list SpecEntry.t) :=
  match records with
  | [] => None
  | _ :: _ => Some records
  end.

(** A record has a forward target. *)
Definition has_forwarder (entry : SpecEntry.t) : bool :=
  match SpecEntry._forwarder entry with
  | Some _ => true
  | None => false
  end.

(** Two states of one record: the passes overwrite the forward target, the
    architecture set and the calling convention, and nothing else. *)
Definition same_identity (entry entry' : SpecEntry.t) : Prop :=
  SpecEntry.spec entry' = SpecEntry.spec entry
  /\ SpecEntry._ord entry' = SpecEntry._ord entry
  /\ SpecEntry.name entry' = SpecEntry.name entry
  /\ SpecEntry.noname entry' = SpecEntry.noname entry.

(** The records neither pass can search for: unnamed, and not called after a
    forward target. *)
Definition unsearchable (entry : SpecEntry.t) : bool :=
  SpecEntry.noname entry && Str.eqb (SpecEntry.name entry) "@".

(** The modules [write_cmake] never names as a dependency (line 350). *)
Definition ignored (module : string) : bool :=
  Str.mem module ["ntdll"; "kernel32"; "self"; "cfgmgr32"; "wmi"].

(** The records of a list of modules, module after module. *)
Definition all_records (modules : list SpecFile.t) : list SpecEntry.t :=
  flat_map SpecFile._entries modules.
(** * Properties *)

(** ** The model at work *)

Example tokenize_line :
  SpecEntry.tokenize "  @ stdcall -arch=i386,x86_64 Foo(long ptr) kernelbase.Foo # text"
  = ["@"; "stdcall"; "-arch=i386,x86_64"; "Foo"; "("; "long"; "ptr"; ")"; "kernelbase.Foo"].
Proof. reflexivity. Qed.

Example new_line :
  SpecEntry.new "  @ stdcall -arch=i386,x86_64 Foo(long ptr) kernelbase.Foo # text" "api"
  = Ok (SpecEntry.mk "api" "@" (Some "stdcall") "Foo" (Arch.mk 3)
                     (Some ("kernel32", "Foo")) false).
Proof. reflexivity. Qed.

Example new_unnamed_line :
  SpecEntry.new "3 stdcall -noname @(long) kernel32.Hid" "api"
  = Ok (SpecEntry.mk "api" "3" (Some "stdcall") "Hid" (Arch.mk Arch.Any)
                     (Some ("kernel32", "Hid")) true).
Proof. reflexivity. Qed.

Example new_three_parts : SpecEntry.new "@ stdcall Foo() a.b.c" "api" = Raise AssertionError.
Proof. reflexivity. Qed.

Example new_unknown_arch : SpecEntry.new "@ stdcall -arch=mips Foo()" "api" = Raise KeyError.
Proof. reflexivity. Qed.

Example new_short_line : SpecEntry.new "12 stub" "api" = Raise IndexError.
Proof. reflexivity. Qed.

(** The spec file written for the second sample api-set. *)
Example run_sample_core :
  (fun out => Run.spec_files out !! 1%nat) <$>
    (match @Run.run insertion_order sample_wine sample_ros with
     | Ok out => Some out
     | Raise _ => None
     end)
  = Some (Some ("api-ms-win-core-sample-l1-1-0.spec",
                (Run.SPEC_HEADER ++
                 ["@ stdcall -arch=i386,arm Foo() kernel32.Foo" +:+ SpecEntry.nl;
                  "@ stdcall Bar() ntdll.Bar" +:+ SpecEntry.nl;
                  "@ stdcall -arch=x86_64 Qux() ntdll.Qux" +:+ SpecEntry.nl;
                  "@ extern -arch=i386 SomeVar msvcrt._imp__SomeVar" +:+ SpecEntry.nl;
                  "@ extern -arch=x86_64 SomeVar msvcrt.__imp_SomeVar" +:+ SpecEntry.nl;
                  "3 stdcall -noname @() kernel32.Hid" +:+ SpecEntry.nl;
                  "4 stub -noname Ordinal4" +:+ SpecEntry.nl])%list)).
Proof. vm_compute. reflexivity. Qed.

(** The manifest lines of the sample run. *)
Example run_sample_cmake :
  (fun out => map snd (Run.cmakelists out)) <$>
    (match @Run.run insertion_order sample_wine sample_ros with
     | Ok out => Some out
     | Raise _ => None
     end)
  = Some ["add_apiset(api-ms-win-crt-utility-l1-1-0 0x60000000 other)" +:+ SpecEntry.nl;
          "add_apiset(api-ms-win-core-sample-l1-1-0 0x60000000 msvcrt)" +:+ SpecEntry.nl;
          "add_apiset(api-ms-win-core-misc-l1-1-0 0x60010000 )" +:+ SpecEntry.nl].
Proof. vm_compute. reflexivity. Qed.

(** ** The error monad *)

Lemma bind_Ok {A B : Type} (r : result A) (k : A -> result B) (b : B) :
  r ≫= k = Ok b -> exists a, r = Ok a /\ k a = Ok b.
Proof. destruct r as [a|e]; simpl; [eauto | discriminate]. Qed.

Lemma Str_eqb_eq (a b : string) : Str.eqb a b = true <-> a = b.
Proof. apply String.eqb_eq. Qed.

Lemma Str_eqb_neq (a b : string) : Str.eqb a b = false <-> a <> b.
Proof. apply String.eqb_neq. Qed.

Lemma Str_eqb_refl (a : string) : Str.eqb a a = true.
Proof. apply String.eqb_refl. Qed.

Lemma Str_mem_In (x : string) (l : list string) : Str.mem x l = true <-> x ∈ l.
Proof.
  unfold Str.mem. rewrite existsb_exists. split.
  - intros (y & Hy & Heq). apply Str_eqb_eq in Heq. subst. by apply list_elem_of_In.
  - intros Hx. exists x. split; [by apply list_elem_of_In | apply Str_eqb_refl].
Qed.

Lemma List_filter_Permutation {A : Type} (f : A -> bool) (l1 l2 : list A) :
  l1 ≡ₚ l2 -> List.filter f l1 ≡ₚ List.filter f l2.
Proof.
  induction 1 as [| x l1 l2 _ IH | x y l | l1 l2 l3 _ IH1 _ IH2]; simpl.
  - reflexivity.
  - destruct (f x); [by constructor | done].
  - destruct (f x), (f y); try reflexivity. apply perm_swap.
  - by etransitivity.
Qed.

(** ** Architecture sets *)

Section ArchFacts.

Lemma ones_pos (p : positive) : 0 < Arch.ones p.
Proof. induction p; simpl; lia. Qed.

(** An [Arch] is falsy exactly when its bit mask is zero. *)
Lemma truth_val (a : Arch.t) : Arch.truth a = negb (Arch._val a =? 0).
Proof.
  unfold Arch.truth, Arch.__len__. destruct (Arch._val a) as [|p|p]; simpl;
    [reflexivity | |]; pose proof (ones_pos p); destruct (Arch.ones p); simpl; lia.
Qed.

Lemma ne_empty_val (a : Arch.t) :
  Arch.__ne__ a Arch.empty = negb (Arch._val a =? 0).
Proof. reflexivity. Qed.

Lemma land_sub_bit (v b c : Z) :
  Z.land (Z.lnot b) c = c -> Z.land (Z.land v (Z.lnot b)) c = Z.land v c.
Proof. intros H. by rewrite <- Z.land_assoc, H. Qed.

Lemma has_sub_same (a : Arch.t) (b : Z) :
  Arch.has (Arch.__sub__ a (Arch.mk b)) b = false.
Proof.
  unfold Arch.has, Arch.__sub__; simpl.
  by rewrite <- Z.land_assoc, (Z.land_comm (Z.lnot b)), Z.land_lnot_diag, Z.land_0_r.
Qed.

(** Taking x86_64 out keeps every other architecture of the set. *)
Lemma has_sub_x86_64 (a : Arch.t) (b : Z) :
  b = Arch.i386 \/ b = Arch.arm \/ b = Arch.arm64 ->
  Arch.has (Arch.__sub__ a (Arch.mk Arch.x86_64)) b = Arch.has a b.
Proof.
  intros Hb. unfold Arch.has, Arch.__sub__; simpl.
  rewrite land_sub_bit; [reflexivity |].
  destruct Hb as [-> | [-> | ->]]; reflexivity.
Qed.

Lemma has_ne_empty (a : Arch.t) (b : Z) :
  Arch.has a b = true -> Arch.__ne__ a Arch.empty = true.
Proof.
  rewrite ne_empty_val. unfold Arch.has.
  destruct (Z.eqb_spec (Arch._val a) 0) as [-> | _]; [| reflexivity].
  by rewrite Z.land_0_l.
Qed.

Lemma sub_x86_64_ne_Any (a : Arch.t) :
  Arch.__ne__ (Arch.__sub__ a (Arch.mk Arch.x86_64)) (Arch.mk Arch.Any) = true.
Proof.
  pose proof (has_sub_same a Arch.x86_64) as H.
  unfold Arch.__ne__, Arch.__eq__. unfold Arch.has in H.
  destruct (Z.eqb_spec (Arch._val (Arch.__sub__ a (Arch.mk Arch.x86_64)))
                       (Arch._val (Arch.mk Arch.Any))) as [Heq | _]; [| reflexivity].
  rewrite Heq in H. discriminate H.
Qed.

Context `{rt : Runtime} `{!RuntimeOk rt}.

(** The text of a one-architecture set is the name of that architecture. *)
Lemma to_str_x86_64 : Arch.to_str (Arch.mk Arch.x86_64) = "x86_64".
Proof.
  unfold Arch.to_str. simpl.
  assert (List.filter (fun value => negb (Z.land value Arch.x86_64 =? 0)) TO_STR_keys
          = [2]) as ->; [| reflexivity].
  apply Permutation_singleton_r.
  rewrite (List_filter_Permutation _ _ _ TO_STR_keys_perm). reflexivity.
Qed.

End ArchFacts.

(** ** Emission of one record *)

Section WriteFacts.

Context `{rt : Runtime}.

Lemma write_ordinal_fails (self : SpecEntry.t) :
  ordinal_ok self = false -> SpecEntry.write self = Raise AssertionError.
Proof.
  unfold ordinal_ok. intros Hord. rewrite SpecEntry.write_equation_1.
  destruct (Str.eqb (SpecEntry.name self) "@"); [| discriminate].
  destruct (Str.eqb (SpecEntry._ord self) "@"); [reflexivity | discriminate].
Qed.

Lemma write_prelude (self : SpecEntry.t) :
  ordinal_ok self = true ->
  (if Str.eqb (SpecEntry.name self) "@"
   then _ ← assert (negb (Str.eqb (SpecEntry._ord self) "@"));
        Ok ("Ordinal" +:+ SpecEntry._ord self)
   else Ok (SpecEntry.name self)) = Ok (stub_name self).
Proof.
  unfold ordinal_ok, stub_name. intros Hord.
  destruct (Str.eqb (SpecEntry.name self) "@"); [| reflexivity].
  simpl in Hord. by rewrite Hord.
Qed.

(** An unresolved record is written as one stub line. *)
Lemma write_stub (self : SpecEntry.t) :
  SpecEntry._forwarder self = None -> ordinal_ok self = true ->
  SpecEntry.write self =
    Ok ([SpecEntry.stub_line (SpecEntry._ord self) (noname_opts self) (stub_name self)],
        0x1000).
Proof.
  intros Hfwd Hord. rewrite SpecEntry.write_equation_1.
  rewrite (write_prelude _ Hord), Hfwd. reflexivity.
Qed.

(** A resolved record whose architecture set is empty is refused. *)
Lemma write_empty_arch (self : SpecEntry.t) (module symbol : string) :
  SpecEntry._forwarder self = Some (module, symbol) ->
  Arch.__ne__ (SpecEntry.arch self) Arch.empty = false ->
  SpecEntry.write self = Raise AssertionError.
Proof.
  intros Hfwd Harch. destruct (ordinal_ok self) eqn:Hord;
    [| by apply write_ordinal_fails].
  rewrite SpecEntry.write_equation_1.
  rewrite (write_prelude _ Hord), Hfwd. simpl. by rewrite Harch.
Qed.

(** A resolved function record: one line, always with [stdcall]. *)
Lemma write_function (self : SpecEntry.t) (module symbol : string) :
  SpecEntry._forwarder self = Some (module, symbol) ->
  ordinal_ok self = true ->
  Arch.__ne__ (SpecEntry.arch self) Arch.empty = true ->
  is_extern self = false ->
  SpecEntry.write self =
    Ok ([SpecEntry.forward_line (SpecEntry._ord self) "stdcall"
           (SpecEntry.arch_opts (noname_opts self) (SpecEntry.arch self))
           (forward_name self) "()" (module +:+ "." +:+ symbol)],
        0x100).
Proof.
  unfold is_extern. intros Hfwd Hord Harch Hext. rewrite SpecEntry.write_equation_1.
  rewrite (write_prelude _ Hord), Hfwd. simpl. rewrite Harch. simpl.
  by rewrite Hext.
Qed.

(** A resolved data record without x86_64: one line, [_imp__] decoration. *)
Lemma write_extern_other (self : SpecEntry.t) (module symbol : string) :
  SpecEntry._forwarder self = Some (module, symbol) ->
  ordinal_ok self = true ->
  Arch.__ne__ (SpecEntry.arch self) Arch.empty = true ->
  is_extern self = true ->
  Arch.has (SpecEntry.arch self) Arch.x86_64 = false ->
  SpecEntry.write self =
    Ok ([SpecEntry.forward_line (SpecEntry._ord self) "extern"
           (SpecEntry.arch_opts (noname_opts self) (SpecEntry.arch self))
           (forward_name self) "" (module +:+ "._imp__" +:+ symbol)],
        0x100).
Proof.
  unfold is_extern. intros Hfwd Hord Harch Hext Hhas. rewrite SpecEntry.write_equation_1.
  rewrite (write_prelude _ Hord), Hfwd. simpl. rewrite Harch. simpl.
  rewrite Hext. by destruct (Arch.has (SpecEntry.arch self) Arch.x86_64).
Qed.

(** A resolved data record with x86_64: the record without x86_64 is
    written first, then the x86_64 line with the [__imp_] decoration. *)
Lemma write_extern_x86_64 (self : SpecEntry.t) (module symbol : string) :
  SpecEntry._forwarder self = Some (module, symbol) ->
  ordinal_ok self = true ->
  is_extern self = true ->
  Arch.has (SpecEntry.arch self) Arch.x86_64 = true ->
  SpecEntry.write self =
    '(lines, size) ←
      SpecEntry.write
        (SpecEntry.set_arch self
           (Arch.__sub__ (SpecEntry.arch self) (Arch.mk Arch.x86_64)));
    Ok ((lines ++
         [SpecEntry.forward_line (SpecEntry._ord self) "extern"
            (SpecEntry.arch_opts (noname_opts self) (Arch.mk Arch.x86_64))
            (forward_name self) "" (module +:+ ".__imp_" +:+ symbol)])%list,
        size + 0x100).
Proof.
  unfold is_extern. intros Hfwd Hord Hext Hhas.
  rewrite (SpecEntry.write_equation_1 _ self).
  rewrite (write_prelude _ Hord), Hfwd. simpl.
  rewrite (has_ne_empty _ _ Hhas). simpl. rewrite Hext.
  by destruct (Arch.has (SpecEntry.arch self) Arch.x86_64).
Qed.

End WriteFacts.

(** ** Admissible runtimes *)

Lemma first_seen_elem (l seen : list string) (x : string) :
  x ∈ Py.first_seen l seen <-> x ∈ l /\ x ∉ seen.
Proof.
  revert seen. induction l as [| y l IH]; intros seen; simpl.
  - rewrite elem_of_nil. tauto.
  - destruct (Str.mem y seen) eqn:Hmem.
    + apply Str_mem_In in Hmem. rewrite IH, elem_of_cons.
      split; [tauto |]. intros [[-> | Hx] Hn]; [done | tauto].
    + assert (y ∉ seen) as Hy by (rewrite <- Str_mem_In, Hmem; discriminate).
      rewrite !elem_of_cons, IH, elem_of_cons.
      destruct (decide (x = y)) as [-> | Hne]; [tauto |]. tauto.
Qed.

Lemma first_seen_NoDup (l seen : list string) : NoDup (Py.first_seen l seen).
Proof.
  revert seen. induction l as [| y l IH]; intros seen; simpl; [constructor |].
  destruct (Str.mem y seen); [apply IH |].
  constructor; [| apply IH].
  rewrite first_seen_elem, elem_of_cons. tauto.
Qed.

#[global] Instance insertion_order_ok : RuntimeOk insertion_order.
Proof.
  split; simpl.
  - reflexivity.
  - intros xs. apply first_seen_NoDup.
  - intros xs x. rewrite first_seen_elem, elem_of_nil. tauto.
  - reflexivity.
Defined.

#[global] Instance reverse_order_ok : RuntimeOk reverse_order.
Proof.
  split; simpl.
  - apply (Permutation_cons_append [1; 2; 4] 8).
  - intros xs. rewrite reverse_Permutation. apply first_seen_NoDup.
  - intros xs x. rewrite elem_of_reverse, first_seen_elem, elem_of_nil. tauto.
  - intros ks. apply reverse_Permutation.
Defined.

(** ** Data symbols on x86_64 *)

(** C6: a resolved record with calling convention extern whose architecture
    set holds x86_64 and at least one of the other architectures is written
    as exactly two lines.  The first is restricted to the architectures
    other than x86_64 and forwards to [module._imp__symbol]; the second is
    restricted to x86_64 alone and forwards to [module.__imp_symbol].  Each
    line adds 0x100 to the size estimate.  The set the first line is
    restricted to has lost x86_64 and kept the other three memberships. *)
Theorem C6_extern_x86_64_two_lines `{rt : Runtime} `{!RuntimeOk rt}
  (self : SpecEntry.t) (module symbol : string) :
  SpecEntry._forwarder self = Some (module, symbol) ->
  SpecEntry.callconv self = Some "extern" ->
  Arch.has (SpecEntry.arch self) Arch.x86_64 = true ->
  Arch.has (SpecEntry.arch self) Arch.i386
    || Arch.has (SpecEntry.arch self) Arch.arm
    || Arch.has (SpecEntry.arch self) Arch.arm64 = true ->
  ordinal_ok self = true ->
  let rest := Arch.__sub__ (SpecEntry.arch self) (Arch.mk Arch.x86_64) in
  SpecEntry.write self =
    Ok ([SpecEntry.forward_line (SpecEntry._ord self) "extern"
           (noname_opts self +:+ " -arch=" +:+ Arch.to_str rest)
           (forward_name self) "" (module +:+ "._imp__" +:+ symbol);
         SpecEntry.forward_line (SpecEntry._ord self) "extern"
           (noname_opts self +:+ " -arch=x86_64")
           (forward_name self) "" (module +:+ ".__imp_" +:+ symbol)],
        0x100 + 0x100)
  /\ Arch.has rest Arch.x86_64 = false
  /\ Arch.has rest Arch.i386 = Arch.has (SpecEntry.arch self) Arch.i386
  /\ Arch.has rest Arch.arm = Arch.has (SpecEntry.arch self) Arch.arm
  /\ Arch.has rest Arch.arm64 = Arch.has (SpecEntry.arch self) Arch.arm64.
Proof.
  intros Hfwd Hcc Hx64 Hother Hord rest.
  assert (is_extern self = true) as Hext by (unfold is_extern; by rewrite Hcc).
  assert (Arch.has rest Arch.i386 = Arch.has (SpecEntry.arch self) Arch.i386) as H1
    by (apply has_sub_x86_64; auto).
  assert (Arch.has rest Arch.arm = Arch.has (SpecEntry.arch self) Arch.arm) as H4
    by (apply has_sub_x86_64; auto).
  assert (Arch.has rest Arch.arm64 = Arch.has (SpecEntry.arch self) Arch.arm64) as H8
    by (apply has_sub_x86_64; auto).
  split; [| repeat split; [apply has_sub_same | assumption..]].
  rewrite (write_extern_x86_64 self module symbol Hfwd Hord Hext Hx64).
  erewrite (write_extern_other (SpecEntry.set_arch self rest) module symbol); simpl;
    [| exact Hfwd | exact Hord | | exact Hext | apply has_sub_same].
  - unfold SpecEntry.arch_opts. subst rest. rewrite sub_x86_64_ne_Any.
    change (Arch.__ne__ (Arch.mk Arch.x86_64) (Arch.mk Arch.Any)) with true.
    cbv iota. rewrite to_str_x86_64. reflexivity.
  - rewrite <- H1, <- H4, <- H8 in Hother.
    apply orb_true_iff in Hother as [Hother | Hother];
      [apply orb_true_iff in Hother as [Hother | Hother] |];
      eapply has_ne_empty; exact Hother.
Qed.

Lemma C6_extern_x86_64_two_lines_witness :
  @SpecEntry.write insertion_order sample_var =
    Ok (["@ extern -arch=i386 SomeVar msvcrt._imp__SomeVar" +:+ SpecEntry.nl;
         "@ extern -arch=x86_64 SomeVar msvcrt.__imp_SomeVar" +:+ SpecEntry.nl],
        0x200).
Proof.
  exact (proj1 (@C6_extern_x86_64_two_lines insertion_order insertion_order_ok
                  sample_var "msvcrt" "SomeVar"
                  eq_refl eq_refl eq_refl eq_refl eq_refl)).
Defined.

(** ** The calling convention of a forward line *)

(** C7 (as the code has it): the calling-convention field of every forward
    line written for a resolved record is [extern] when the record's
    convention is extern and [stdcall] for every other convention; a record
    with another convention is written as the single line
    [<ordinal> stdcall<options> <name>() <module>.<symbol>]. *)
Theorem C7_forward_line_callconv `{rt : Runtime} (self : SpecEntry.t)
  (module symbol : string) :
  SpecEntry._forwarder self = Some (module, symbol) ->
  (forall lines size,
     SpecEntry.write self = Ok (lines, size) ->
     lines <> [] /\
     Forall (fun line => exists opts name args fwd,
               line = SpecEntry.forward_line (SpecEntry._ord self)
                        (emitted_callconv self) opts name args fwd) lines)
  /\ (is_extern self = false ->
      ordinal_ok self = true ->
      Arch.__ne__ (SpecEntry.arch self) Arch.empty = true ->
      SpecEntry.write self =
        Ok ([SpecEntry.forward_line (SpecEntry._ord self) "stdcall"
               (SpecEntry.arch_opts (noname_opts self) (SpecEntry.arch self))
               (forward_name self) "()" (module +:+ "." +:+ symbol)],
            0x100)).
Proof.
  intros Hfwd. split; [| intros; by apply write_function].
  intros lines size Hw.
  destruct (ordinal_ok self) eqn:Hord;
    [| rewrite write_ordinal_fails in Hw by done; discriminate].
  destruct (Arch.__ne__ (SpecEntry.arch self) Arch.empty) eqn:Harch;
    [| erewrite write_empty_arch in Hw by done; discriminate].
  unfold emitted_callconv. destruct (is_extern self) eqn:Hext.
  - destruct (Arch.has (SpecEntry.arch self) Arch.x86_64) eqn:Hhas.
    + rewrite (write_extern_x86_64 self module symbol Hfwd Hord Hext Hhas) in Hw.
      set (rest := Arch.__sub__ _ _) in Hw.
      destruct (Arch.__ne__ rest Arch.empty) eqn:Hrest;
        [| erewrite (write_empty_arch (SpecEntry.set_arch self rest)) in Hw by done;
           discriminate].
      erewrite (write_extern_other (SpecEntry.set_arch self rest)) in Hw;
        [| exact Hfwd | exact Hord | exact Hrest | exact Hext | apply has_sub_same].
      simpl in Hw. injection Hw as <- <-. split; [discriminate |].
      repeat constructor; eauto.
    + rewrite (write_extern_other self module symbol) in Hw by done.
      injection Hw as <- <-. split; [discriminate |]. repeat constructor; eauto.
  - rewrite (write_function self module symbol) in Hw by done.
    injection Hw as <- <-. split; [discriminate |]. repeat constructor; eauto.
Qed.

Lemma C7_forward_line_callconv_witness :
  @SpecEntry.write insertion_order sample_qux =
    Ok (["@ stdcall -arch=x86_64 Qux() ntdll.Qux" +:+ SpecEntry.nl], 0x100).
Proof.
  exact (proj2 (@C7_forward_line_callconv insertion_order sample_qux "ntdll" "Qux" eq_refl)
               eq_refl eq_refl eq_refl).
Defined.

(** The record [Qux] of the sample api-set adopts [cdecl] from [ntdll] in
    pass 1, and its forward line says [stdcall]: no choice of the other
    fields makes that line one with [cdecl] in the convention field. *)
Lemma C7_counterexample :
  Resolver.entry_resolve_forwarders sample_qux_parsed sample_module_lookup ["kernel32"; "ntdll"]
    = Ok (sample_qux, 1)
  /\ SpecEntry.callconv sample_qux = Some "cdecl"
  /\ @SpecEntry.write insertion_order sample_qux =
       Ok (["@ stdcall -arch=x86_64 Qux() ntdll.Qux" +:+ SpecEntry.nl], 0x100)
  /\ forall opts name args fwd,
       "@ stdcall -arch=x86_64 Qux() ntdll.Qux" +:+ SpecEntry.nl
       <> SpecEntry.forward_line (SpecEntry._ord sample_qux) "cdecl" opts name args fwd.
Proof.
  split; [vm_compute; reflexivity |].
  split; [reflexivity |].
  split; [vm_compute; reflexivity |].
  intros opts name args fwd. unfold SpecEntry.forward_line. simpl. discriminate.
Qed.

(** ** The function blacklist *)

Lemma write_entries_written `{rt : Runtime} (pre post : list SpecEntry.t)
  (entry : SpecEntry.t) (written : gset string) (size : Z) :
  SpecEntry.name entry ∈ written ->
  SpecFile.write_entries (pre ++ entry :: post) written size =
  SpecFile.write_entries (pre ++ post) written size.
Proof.
  revert written size. induction pre as [| x pre IH]; intros written size Hin; simpl.
  - rewrite bool_decide_eq_false_2; [reflexivity | by intros []].
  - destruct (bool_decide (SpecEntry.name x ∉ written)); [| by apply IH].
    destruct (SpecEntry.write x) as [[lines n] | e]; [| reflexivity]. simpl.
    rewrite IH; [reflexivity | set_solver].
Qed.

Lemma write_entries_all_written `{rt : Runtime} (entries : list SpecEntry.t)
  (written : gset string) (size : Z) :
  Forall (fun entry => SpecEntry.name entry ∈ written) entries ->
  SpecFile.write_entries entries written size = Ok ([], size).
Proof.
  induction 1 as [| x entries Hx _ IH]; simpl; [reflexivity |].
  rewrite bool_decide_eq_false_2; [exact IH | by intros []].
Qed.

(** C2 (as the code has it): a record whose name is in the function
    blacklist is left out of the emitted spec file altogether, resolved or
    not: writing the file gives the lines and the size estimate of the file
    without that record, and a file of blacklisted records gives no line. *)
Theorem C2_blacklisted_record_not_written `{rt : Runtime} (self : SpecFile.t)
  (pre post : list SpecEntry.t) (entry : SpecEntry.t) :
  SpecEntry.name entry ∈ FUNCTION_BLACKLIST ->
  SpecFile._entries self = (pre ++ entry :: post)%list ->
  SpecFile.write self =
    ('(spec, lines) ← SpecFile.write (Resolver.with_entries self (pre ++ post)%list);
     Ok (Resolver.with_entries spec (SpecFile._entries self), lines))
  /\ (Forall (fun other => SpecEntry.name other ∈ FUNCTION_BLACKLIST) (pre ++ post)%list ->
      SpecFile.write self =
        Ok (SpecFile.mk (SpecFile.name self) (SpecFile._entries self)
                        (SpecFile._functions self) 0, [])).
Proof.
  intros Hin Hentries.
  assert (forall x : string,
             x ∈ FUNCTION_BLACKLIST ->
             x ∈ (list_to_set FUNCTION_BLACKLIST : gset string)) as Hset
    by (intros x; by rewrite elem_of_list_to_set).
  split.
  - unfold SpecFile.write. rewrite Hentries, write_entries_written by auto. simpl.
    destruct (SpecFile.write_entries _ _ _) as [[lines n] | e]; reflexivity.
  - intros Hall. unfold SpecFile.write.
    rewrite write_entries_all_written; [reflexivity |].
    rewrite Hentries. rewrite Forall_app, Forall_cons in *.
    destruct Hall as [Hpre Hpost].
    repeat split; try (eapply Forall_impl; [eassumption | auto]). auto.
Qed.

Lemma C2_blacklisted_record_not_written_witness :
  @SpecFile.write insertion_order
    (SpecFile.mk "api-ms-win-crt-utility-l1-1-0" [sample_rotl] ∅ 0) =
  Ok (SpecFile.mk "api-ms-win-crt-utility-l1-1-0" [sample_rotl] ∅ 0, []).
Proof.
  refine (proj2 (@C2_blacklisted_record_not_written insertion_order
                   (SpecFile.mk "api-ms-win-crt-utility-l1-1-0" [sample_rotl] ∅ 0)
                   [] [] sample_rotl _ eq_refl) _).
  - vm_compute. do 4 right. left.
  - constructor.
Defined.

(** Pass 2 finds the forward target [other._rotl64] for the record of the
    first sample api-set; the spec file written for that api-set holds the
    header and nothing else, in particular no stub line. *)
Lemma C2_counterexample :
  @Resolver.entry_extra_forwarders insertion_order sample_rotl_unresolved
     sample_function_lookup sample_module_lookup = Ok (sample_rotl, 1)
  /\ (exists out,
        @Run.run insertion_order sample_wine sample_ros = Ok out /\
        head (Run.spec_files out) =
          Some ("api-ms-win-crt-utility-l1-1-0.spec", Run.SPEC_HEADER))
  /\ forall opts name,
       SpecEntry.stub_line (SpecEntry._ord sample_rotl) opts name ∉ Run.SPEC_HEADER.
Proof.
  split; [vm_compute; reflexivity |]. split.
  - destruct (@Run.run insertion_order sample_wine sample_ros) as [out | e] eqn:Hrun;
      [| vm_compute in Hrun; discriminate].
    exists out. split; [reflexivity |].
    vm_compute in Hrun. injection Hrun as <-. reflexivity.
  - intros opts name. unfold Run.SPEC_HEADER, SpecEntry.stub_line.
    rewrite !elem_of_cons, elem_of_nil. simpl.
    intros [H | [H | [H | []]]]; discriminate H.
Qed.

(** ** Base addresses *)

(** Every record that is written adds something to the size estimate. *)
Lemma write_size_pos `{rt : Runtime} (self : SpecEntry.t) (lines : list string) (size : Z) :
  SpecEntry.write self = Ok (lines, size) -> 0 < size.
Proof.
  intros Hw.
  destruct (ordinal_ok self) eqn:Hord;
    [| rewrite write_ordinal_fails in Hw by done; discriminate].
  destruct (SpecEntry._forwarder self) as [[module symbol] |] eqn:Hfwd;
    [| rewrite write_stub in Hw by done; injection Hw as _ <-; lia].
  destruct (Arch.__ne__ (SpecEntry.arch self) Arch.empty) eqn:Harch;
    [| erewrite write_empty_arch in Hw by done; discriminate].
  destruct (is_extern self) eqn:Hext;
    [| rewrite (write_function self module symbol) in Hw by done;
       injection Hw as _ <-; lia].
  destruct (Arch.has (SpecEntry.arch self) Arch.x86_64) eqn:Hhas;
    [| rewrite (write_extern_other self module symbol) in Hw by done;
       injection Hw as _ <-; lia].
  rewrite (write_extern_x86_64 self module symbol Hfwd Hord Hext Hhas) in Hw.
  set (rest := Arch.__sub__ _ _) in Hw.
  destruct (Arch.__ne__ rest Arch.empty) eqn:Hrest;
    [| erewrite (write_empty_arch (SpecEntry.set_arch self rest)) in Hw by done;
       discriminate].
  erewrite (write_extern_other (SpecEntry.set_arch self rest)) in Hw;
    [| exact Hfwd | exact Hord | exact Hrest | exact Hext | apply has_sub_same].
  simpl in Hw. injection Hw as _ <-. lia.
Qed.

Lemma write_entries_size `{rt : Runtime} (entries : list SpecEntry.t)
  (written : gset string) (size total : Z) (lines : list string) :
  SpecFile.write_entries entries written size = Ok (lines, total) -> size <= total.
Proof.
  revert written size total lines.
  induction entries as [| x entries IH]; intros written size total lines; simpl.
  - intros [= _ <-]. lia.
  - destruct (bool_decide _); [| apply IH].
    destruct (SpecEntry.write x) as [[ls n] | e] eqn:Hx; [| discriminate]. simpl.
    destruct (SpecFile.write_entries entries _ _) as [[ls' t] | e] eqn:Hrest;
      [| discriminate]. simpl.
    intros [= _ <-]. apply IH in Hrest. apply write_size_pos in Hx. lia.
Qed.

Lemma SpecFile_write_size `{rt : Runtime} (self spec : SpecFile.t) (lines : list string) :
  SpecFile.write self = Ok (spec, lines) -> 0 <= SpecFile._estimate_size spec.
Proof.
  unfold SpecFile.write.
  destruct (SpecFile.write_entries _ _ _) as [[ls n] | e] eqn:Hw; [| discriminate].
  simpl. intros [= <- _]. simpl. by apply write_entries_size in Hw.
Qed.

Lemma for_each_Forall2 {A B : Type} (f : A -> result B) (xs : list A) (ys : list B) :
  Run.for_each f xs = Ok ys -> Forall2 (fun x y => f x = Ok y) xs ys.
Proof.
  revert ys. induction xs as [| x xs IH]; intros ys; simpl.
  - intros [= <-]. constructor.
  - destruct (f x) as [y | e] eqn:Hx; [| discriminate]. simpl.
    destruct (Run.for_each f xs) as [ys' | e]; [| discriminate]. simpl.
    intros [= <-]. constructor; auto.
Qed.

(** The step of the loop: add the estimate, then round. *)
Lemma round_up_step (a : Z) :
  round_up_64K a (a + (0x10000 - a) mod 0x10000).
Proof.
  unfold round_up_64K.
  pose proof (Z.mod_pos_bound (0x10000 - a) 0x10000 ltac:(lia)) as Hbound.
  split; [| lia].
  rewrite Zplus_mod_idemp_r. replace (a + (0x10000 - a)) with (1 * 0x10000) by lia.
  apply Z_mod_mult.
Qed.

Lemma cmake_loop_cons `{rt : Runtime} (apiset : SpecFile.t) (apisets : list SpecFile.t)
  (A : Z) :
  map fst (Run.cmake_loop (apiset :: apisets) A) =
  A :: map fst (Run.cmake_loop apisets
                  (A + SpecFile._estimate_size apiset
                   + (0x10000 - (A + SpecFile._estimate_size apiset)) mod 0x10000)).
Proof. reflexivity. Qed.

Lemma cmake_loop_length `{rt : Runtime} (apisets : list SpecFile.t) (A : Z) :
  length (Run.cmake_loop apisets A) = length apisets.
Proof.
  revert A. induction apisets as [| x xs IH]; intros A; simpl; [reflexivity |].
  by rewrite IH.
Qed.

Lemma cmake_loop_next `{rt : Runtime} (apisets : list SpecFile.t) (A : Z) (i : nat)
  (apiset : SpecFile.t) (a1 a2 : Z) :
  apisets !! i = Some apiset ->
  map fst (Run.cmake_loop apisets A) !! i = Some a1 ->
  map fst (Run.cmake_loop apisets A) !! S i = Some a2 ->
  round_up_64K (a1 + SpecFile._estimate_size apiset) a2.
Proof.
  revert A i. induction apisets as [| x xs IH]; intros A i Hi H1 H2;
    [discriminate Hi |].
  rewrite cmake_loop_cons in H1, H2. destruct i as [| i].
  - simpl in Hi, H1. injection Hi as <-. injection H1 as <-.
    destruct xs as [| y ys]; [discriminate H2 |].
    rewrite cmake_loop_cons in H2. simpl in H2. injection H2 as <-.
    apply round_up_step.
  - simpl in Hi, H1. rewrite lookup_cons in H2. eapply IH; eassumption.
Qed.

(** C9 (as the code has it): the first api-set gets the starting address
    (0x60000000 in [run]); the address of each following api-set is the
    address of the one before it plus that one's emitted-size estimate,
    rounded up to a multiple of 64KB.  The addresses never decrease, and
    they increase across every api-set whose estimate is positive.  In [run]
    the estimates are those [SpecFile.write] has stored, which are not
    negative. *)
Theorem C9_base_addresses `{rt : Runtime} (wine_apisets : list SpecFile.t) (A : Z) :
  Forall (fun apiset => 0 <= SpecFile._estimate_size apiset) wine_apisets ->
  let addresses := map fst (Run.cmake_loop wine_apisets A) in
  length addresses = length wine_apisets
  /\ (wine_apisets <> [] -> head addresses = Some A)
  /\ (forall i apiset a1 a2,
        wine_apisets !! i = Some apiset ->
        addresses !! i = Some a1 ->
        addresses !! S i = Some a2 ->
        round_up_64K (a1 + SpecFile._estimate_size apiset) a2
        /\ a1 <= a2
        /\ (0 < SpecFile._estimate_size apiset -> a1 < a2))
  /\ (forall wine ros out,
        Run.run wine ros = Ok out ->
        exists written,
          Run.cmakelists out = Run.cmake_loop written 0x60000000
          /\ Forall (fun apiset => 0 <= SpecFile._estimate_size apiset) written).
Proof.
  intros Hsizes addresses. subst addresses.
  split; [| split; [| split]].
  - rewrite length_map. apply cmake_loop_length.
  - destruct wine_apisets; [done | reflexivity].
  - intros i apiset a1 a2 Hi H1 H2.
    pose proof (cmake_loop_next _ _ _ _ _ _ Hi H1 H2) as Hnext.
    pose proof (Forall_lookup_1 _ _ _ _ Hsizes Hi) as Hsize. simpl in Hsize.
    split; [exact Hnext |]. destruct Hnext as [_ Hnext]. lia.
  - intros wine ros out Hrun. unfold Run.run in Hrun.
    apply bind_Ok in Hrun as (parsed & _ & Hrun).
    apply bind_Ok in Hrun as ([module_lookup function_lookup] & _ & Hrun).
    apply bind_Ok in Hrun as (pass1 & _ & Hrun).
    apply bind_Ok in Hrun as (pass2 & _ & Hrun).
    apply bind_Ok in Hrun as (written & Hall & Hrun).
    exists (map fst written). apply for_each_Forall2 in Hall.
    injection Hrun as <-. simpl. split; [reflexivity |].
    apply Forall_fmap. clear -Hall. induction Hall as [| x [spec lines] xs ys Hx _ IH];
      constructor; [| exact IH].
    simpl. eapply SpecFile_write_size. exact Hx.
Qed.

Lemma C9_base_addresses_witness :
  round_up_64K (0x60000000 + 0x1100) 0x60010000
  /\ 0x60000000 <= 0x60010000
  /\ (0 < 0x1100 -> 0x60000000 < 0x60010000).
Proof.
  exact (proj1 (proj2 (proj2
           (@C9_base_addresses insertion_order sample_written 0x60000000
              ltac:(repeat constructor; simpl; lia))))
           0%nat _ _ _ eq_refl eq_refl eq_refl).
Defined.

(** The first sample api-set emits no line, so its estimate is 0 and the
    second api-set is given the base address of the first. *)
Lemma C9_counterexample :
  exists out,
    @Run.run insertion_order sample_wine sample_ros = Ok out
    /\ map fst (Run.cmakelists out) = [0x60000000; 0x60000000; 0x60010000]
    /\ ~ (0x60000000 < 0x60000000).
Proof.
  destruct (@Run.run insertion_order sample_wine sample_ros) as [out | e] eqn:Hrun;
    [| vm_compute in Hrun; discriminate].
  exists out. split; [reflexivity |].
  vm_compute in Hrun. injection Hrun as <-. split; [reflexivity | lia].
Qed.

(** ** Lines that are not records *)

Lemma parse_lines_app (spec : string) (pre post : list string)
  (entries : list SpecEntry.t) (functions : gmap string (list SpecEntry.t)) :
  SpecFile.parse_lines spec (pre ++ post) entries functions =
  '(entries', functions') ← SpecFile.parse_lines spec pre entries functions;
  SpecFile.parse_lines spec post entries' functions'.
Proof.
  revert entries functions. induction pre as [| line pre IH]; intros entries functions;
    simpl; [reflexivity |].
  destruct (Str.nonempty line); [| apply IH].
  destruct (SpecEntry.new line spec) as [entry | []]; auto.
Qed.

Lemma tokenize_nonempty (text : string) :
  SpecEntry.tokenize text <> [] -> Str.nonempty text = true.
Proof. destruct text; [intros H; by contradiction H | reflexivity]. Qed.

Lemma for_each_raise {A B : Type} (f : A -> result B) (xs : list A) (x : A) (e : exn) :
  x ∈ xs -> f x = Raise e -> exists e', Run.for_each f xs = Raise e'.
Proof.
  intros Hin Hf. induction Hin as [x xs | x y xs _ IH]; simpl.
  - rewrite Hf. eauto.
  - destruct (f y) as [b | e0]; simpl; [| eauto].
    destruct (IH Hf) as [e' ->]. eauto.
Qed.

Lemma register_raise (ros_modules : list Run.source) (src : Run.source) (e : exn)
  (module_lookup : gmap string SpecFile.t)
  (function_lookup : gmap string (list SpecEntry.t)) :
  src ∈ ros_modules -> Run.parse_source src = Raise e ->
  exists e', Run.register ros_modules module_lookup function_lookup = Raise e'.
Proof.
  intros Hin Hsrc. revert module_lookup function_lookup.
  induction Hin as [src ros_modules | src other ros_modules _ IH];
    intros module_lookup function_lookup; simpl.
  - rewrite Hsrc. eauto.
  - destruct (Run.parse_source other) as [module | e0]; simpl; [| eauto].
    destruct (assert _) as [[] | e0]; simpl; [| eauto].
    apply IH, Hsrc.
Qed.

(** *** What raises the invalid-record signal *)

Lemma bind_invalid {A B : Type} (r : result A) (k : A -> result B) (message : string) :
  (r ≫= k) = Raise (InvalidSpecError message) ->
  r = Raise (InvalidSpecError message)
  \/ exists a, r = Ok a /\ k a = Raise (InvalidSpecError message).
Proof.
  destruct r as [a | e]; intros H; [right; exists a; split; [reflexivity | exact H] |].
  left. unfold mbind, result_bind in H. by injection H as ->.
Qed.

Lemma assert_invalid (cond : bool) (message : string) :
  assert cond <> Raise (InvalidSpecError message).
Proof. by destruct cond. Qed.

Lemma from_strs_invalid (l : list string) (message : string) :
  Arch.from_strs l <> Raise (InvalidSpecError message).
Proof.
  induction l as [| a l IH]; cbn [Arch.from_strs]; [discriminate |].
  destruct (assoc a Arch.FROM_STR); [| discriminate].
  intros H. apply bind_invalid in H as [H | (vs & _ & H)]; [by apply IH in H | discriminate].
Qed.

Lemma add_invalid (self : Arch.t) (text message : string) :
  Arch.add self text <> Raise (InvalidSpecError message).
Proof.
  unfold Arch.add. intros H.
  apply bind_invalid in H as [H | (vs & _ & H)]; [by apply from_strs_invalid in H |].
  apply bind_invalid in H as [H | (? & _ & H)]; [by apply assert_invalid in H | discriminate].
Qed.

Lemma skip_options_invalid (tokens : list string) (name : string) (arch : Arch.t)
  (message : string) :
  SpecEntry.skip_options tokens name arch <> Raise (InvalidSpecError message).
Proof.
  revert name arch. induction tokens as [| t ts IH]; intros name arch;
    cbn [SpecEntry.skip_options];
    (destruct (Str.startswith_any name IGNORE_OPTIONS); [| discriminate]);
    intros H; apply bind_invalid in H as [H | (arch' & _ & H)];
    try discriminate; try (by apply IH in H);
    (destruct (Str.startswith name "-arch="); [by apply add_invalid in H |]);
    (destruct (Str.eqb name "-i386"); [by apply add_invalid in H | discriminate]).
Qed.

Lemma skip_args_invalid (tokens : list string) (message : string) :
  SpecEntry.skip_args tokens <> Raise (InvalidSpecError message).
Proof.
  induction tokens as [| arg ts IH]; cbn [SpecEntry.skip_args]; [discriminate |].
  by destruct (Str.eqb arg ")").
Qed.

Lemma parse_forwarder_invalid (token message : string) :
  SpecEntry.parse_forwarder token <> Raise (InvalidSpecError message).
Proof.
  unfold SpecEntry.parse_forwarder.
  destruct (Str.splitn "." 2 token) as [| a [| b [| c parts]]]; try discriminate.
  by destruct (assoc a ALIAS_DLL).
Qed.

(** Only a line without token makes [init] raise [InvalidSpecError]. *)
Lemma init_invalid (text spec message : string) :
  SpecEntry.init text spec = Raise (InvalidSpecError message) ->
  SpecEntry.tokenize text = [].
Proof.
  unfold SpecEntry.init.
  destruct (SpecEntry.tokenize text) as [| ord [| callconv [| name tokens]]];
    [reflexivity | | |]; intros H; exfalso.
  - apply bind_invalid in H as [H | (? & _ & H)]; [by apply assert_invalid in H | discriminate].
  - apply bind_invalid in H as [H | (? & _ & H)]; [by apply assert_invalid in H | discriminate].
  - apply bind_invalid in H as [H | (? & _ & H)]; [by apply assert_invalid in H |].
    apply bind_invalid in H as [H | ([[name' arch] tokens'] & _ & H)];
      [by apply skip_options_invalid in H |].
    apply bind_invalid in H as [H | (? & _ & H)]; [by apply assert_invalid in H |].
    destruct tokens' as [| tok0 tokens']; [discriminate |].
    apply bind_invalid in H as [H | (rest & _ & H)].
    + destruct (Str.eqb tok0 "("); [| discriminate].
      apply bind_invalid in H as [H | (? & _ & H)]; [by apply assert_invalid in H |].
      by apply skip_args_invalid in H.
    + destruct rest as [| token [| other rest]]; try discriminate.
      apply bind_invalid in H as [H | (? & _ & H)];
        [by apply parse_forwarder_invalid in H | discriminate].
Qed.

Lemma new_invalid (text spec message : string) :
  SpecEntry.new text spec = Raise (InvalidSpecError message) ->
  SpecEntry.tokenize text = [].
Proof.
  unfold SpecEntry.new. intros H.
  apply bind_invalid in H as [H | (self & _ & H)]; [by eapply init_invalid |].
  destruct (Str.eqb (SpecEntry.name self) "@"); [| discriminate].
  by destruct (SpecEntry._forwarder self) as [[m s] |].
Qed.

(** The records read so far stay in the list. *)
Lemma parse_lines_keeps (spec : string) (lines : list string)
  (entries entries' : list SpecEntry.t) (functions functions' : gmap string (list SpecEntry.t))
  (entry : SpecEntry.t) :
  SpecFile.parse_lines spec lines entries functions = Ok (entries', functions') ->
  entry ∈ entries -> entry ∈ entries'.
Proof.
  revert entries functions. induction lines as [| line lines IH];
    intros entries functions; simpl.
  - by intros [= <- _].
  - destruct (Str.nonempty line); [| apply IH].
    destruct (SpecEntry.new line spec) as [other | []]; try discriminate.
    + intros Hrest Hin. eapply IH; [exact Hrest |]. apply elem_of_app. by left.
    + apply IH.
Qed.

(** C3 (as the code has it): a line whose ordinal token is neither a decimal
    integer nor ['@'] fails on an assertion, which is not the recoverable
    invalid-record signal: [parse] lets it through, the parse of the file
    ends there with that failure, and [run] fails when the file is one of
    its inputs.  A line that reduces to zero tokens raises the
    invalid-record signal and is skipped.  No other line does: a line that
    raises that signal has no token, and a line with a token is never
    skipped, that is, whenever the parse of a file that holds it succeeds
    the line has given a record of the file. *)
Theorem C3_bad_ordinal_aborts (text spec ord : string) (rest : list string) :
  SpecEntry.tokenize text = ord :: rest ->
  Str.eqb ord "@" = false ->
  Str.isdigit ord = false ->
  SpecEntry.new text spec = Raise AssertionError
  /\ (forall self pre post done,
        SpecFile.parse self pre = Ok done ->
        SpecFile.parse self (pre ++ text :: post) = Raise AssertionError)
  /\ (forall `{rt : Runtime} wine ros src pre post,
        src ∈ wine \/ src ∈ ros ->
        snd src = (pre ++ text :: post)%list ->
        exists e, Run.run wine ros = Raise e)
  /\ (forall blank self pre post,
        SpecEntry.tokenize blank = [] ->
        SpecEntry.new blank spec = Raise (InvalidSpecError blank)
        /\ SpecFile.parse self (pre ++ blank :: post) = SpecFile.parse self (pre ++ post))
  /\ (forall line message,
        SpecEntry.new line spec = Raise (InvalidSpecError message) ->
        SpecEntry.tokenize line = [])
  /\ (forall line self pre post done,
        SpecEntry.tokenize line <> [] ->
        SpecFile.parse self (pre ++ line :: post) = Ok done ->
        exists entry,
          SpecEntry.new line (SpecFile.name self) = Ok entry
          /\ entry ∈ SpecFile._entries (fst done)).
Proof.
  intros Htok Hat Hdigit.
  assert (forall spec', SpecEntry.new text spec' = Raise AssertionError) as Hnew.
  { intros spec'. unfold SpecEntry.new, SpecEntry.init.
    rewrite Htok, Hat, Hdigit. reflexivity. }
  assert (forall self pre post,
             exists e, SpecFile.parse self (pre ++ text :: post) = Raise e) as Hfile.
  { intros self pre post. unfold SpecFile.parse. rewrite parse_lines_app.
    destruct (SpecFile.parse_lines _ pre _ _) as [[entries functions] | e];
      simpl; [| eauto].
    rewrite tokenize_nonempty by (rewrite Htok; discriminate).
    rewrite Hnew. eauto. }
  split; [apply Hnew |]. split; [| split; [| split; [| split]]].
  - intros self pre post done Hpre. unfold SpecFile.parse in *.
    rewrite parse_lines_app.
    destruct (SpecFile.parse_lines _ pre _ _) as [[entries functions] | e];
      [| discriminate]. simpl.
    rewrite tokenize_nonempty by (rewrite Htok; discriminate).
    by rewrite Hnew.
  - intros rt wine ros src pre post Hsrc Hlines.
    assert (exists e, Run.parse_source src = Raise e) as [e Hparse].
    { unfold Run.parse_source. rewrite Hlines.
      destruct (Hfile (SpecFile.new (fst src)) pre post) as [e ->]. eauto. }
    unfold Run.run. destruct Hsrc as [Hwine | Hros].
    + destruct (for_each_raise Run.parse_source _ _ _ Hwine Hparse) as [e' ->]. eauto.
    + destruct (Run.for_each Run.parse_source wine) as [apisets | e0]; simpl; [| eauto].
      destruct (register_raise _ _ _ ∅ ∅ Hros Hparse) as [e' ->]. eauto.
  - intros blank self pre post Hblank.
    assert (forall spec', SpecEntry.new blank spec' = Raise (InvalidSpecError blank))
      as Hskip.
    { intros spec'. unfold SpecEntry.new, SpecEntry.init. by rewrite Hblank. }
    split; [apply Hskip |].
    unfold SpecFile.parse. rewrite !parse_lines_app.
    destruct (SpecFile.parse_lines _ pre _ _) as [[entries functions] | e];
      [| reflexivity]. simpl.
    rewrite Hskip. by destruct (Str.nonempty blank).
  - intros line message. apply new_invalid.
  - intros line self pre post done Hline Hparse. unfold SpecFile.parse in Hparse.
    rewrite parse_lines_app in Hparse.
    destruct (SpecFile.parse_lines _ pre _ _) as [[entries functions] | e];
      [| discriminate]. simpl in Hparse.
    rewrite tokenize_nonempty in Hparse by exact Hline.
    destruct (SpecEntry.new line (SpecFile.name self)) as [entry | e] eqn:Hentry.
    + exists entry. split; [reflexivity |].
      apply bind_Ok in Hparse as ([entries' functions'] & Hrest & Hdone).
      injection Hdone as <-. simpl.
      eapply parse_lines_keeps; [exact Hrest |]. apply elem_of_app. right. by left.
    + destruct e as [message | | |]; try discriminate.
      by apply new_invalid in Hentry.
Qed.

Lemma C3_bad_ordinal_aborts_witness :
  SpecEntry.new "abc stdcall Foo(long)" "kernel32" = Raise AssertionError.
Proof.
  exact (proj1 (C3_bad_ordinal_aborts "abc stdcall Foo(long)" "kernel32" "abc"
                  ["stdcall"; "Foo"; "("; "long"; ")"] eq_refl eq_refl eq_refl)).
Defined.

(** The ordinal token [abc] is neither a number nor ['@']: the line raises
    an assertion failure, not the invalid-record signal, and the parse of a
    file that holds it fails instead of going on to the next line. *)
Lemma C3_counterexample :
  SpecEntry.tokenize "abc stdcall Foo(long)" = ["abc"; "stdcall"; "Foo"; "("; "long"; ")"]
  /\ Str.isdigit "abc" = false
  /\ SpecEntry.new "abc stdcall Foo(long)" "kernel32" = Raise AssertionError
  /\ (forall message, SpecEntry.new "abc stdcall Foo(long)" "kernel32"
                      <> Raise (InvalidSpecError message))
  /\ SpecFile.parse (SpecFile.new "kernel32")
       ["abc stdcall Foo(long)"; "@ stdcall Bar()"] = Raise AssertionError.
Proof. repeat split; try reflexivity. intros message. discriminate. Qed.

(** ** Calling conventions of a name *)

(** Two records under one name whose conventions differ: the assertion looks
    at the convention read so far only, so it fails when the first record is
    data and lets the pair through when the second one is. *)
Lemma find_callconv_loop_pair (first second : SpecEntry.t) (c1 c2 : string) :
  SpecEntry.callconv first = Some c1 ->
  SpecEntry.callconv second = Some c2 ->
  Str.nonempty c1 = true ->
  c1 <> c2 ->
  SpecFile.find_callconv_loop [first; second] None =
    if Str.eqb c1 "extern" then Raise AssertionError else Ok (Some c2).
Proof.
  intros H1 H2 Hne Hdiff. simpl. rewrite H1, H2. simpl. rewrite Hne. simpl.
  apply Str_eqb_neq in Hdiff. rewrite Hdiff. simpl.
  by destruct (Str.eqb c1 "extern").
Qed.

Lemma last_cons_default {A : Type} (x a b : A) (l : list A) :
  List.last (x :: l) a = List.last (x :: l) b.
Proof.
  revert x. induction l as [| y l IH]; intros x; [reflexivity |].
  change (List.last (y :: l) a = List.last (y :: l) b). apply IH.
Qed.

(** The loop over the records of a name, in general: it fails exactly when a
    data record is followed by a record with another convention, and
    otherwise answers the convention of the last record. *)
Lemma find_callconv_loop_spec (functions : list SpecEntry.t) (c : string) (cs : list string) :
  map SpecEntry.callconv functions = map Some cs ->
  Forall (fun c' => Str.nonempty c' = true) (c :: cs) ->
  SpecFile.find_callconv_loop functions (Some c) =
    if extern_then_other c cs then Raise AssertionError else Ok (Some (List.last cs c)).
Proof.
  revert c cs. induction functions as [| func functions IH]; intros c cs Hcs Hne;
    destruct cs as [| c' cs]; try discriminate Hcs; [reflexivity |].
  injection Hcs as Hfunc Hcs. apply Forall_cons in Hne as [Hc Hne].
  cbn [SpecFile.find_callconv_loop extern_then_other]. rewrite Hfunc. simpl. rewrite Hc. simpl.
  unfold Str.eqb. destruct (String.eqb_spec c c') as [<- | Hdiff]; simpl.
  - rewrite andb_false_r. simpl. rewrite (IH c cs Hcs Hne).
    destruct (extern_then_other c cs); [reflexivity |]. by destruct cs.
  - rewrite andb_true_r. destruct (String.eqb c "extern"); simpl; [reflexivity |].
    rewrite (IH c' cs Hcs Hne).
    destruct (extern_then_other c' cs); [reflexivity |].
    destruct cs; [reflexivity |]. do 2 f_equal. apply last_cons_default.
Qed.

(** C8 (the code at the failing input): a module that exports [Foo] first as
    a function and then as data is not rejected, [find_callconv] answers
    [extern]; the same two records in the other order are rejected. *)
Theorem C8_extern_second_not_rejected :
  (exists function data,
     SpecFile.find sample_function_then_data "Foo" = Some [function; data]
     /\ SpecEntry.callconv function = Some "stdcall"
     /\ SpecEntry.callconv data = Some "extern")
  /\ SpecFile.find_callconv sample_function_then_data "Foo" = Ok (Some "extern")
  /\ SpecFile.find_callconv sample_data_then_function "Foo" = Raise AssertionError.
Proof.
  split; [| split; vm_compute; reflexivity].
  destruct (SpecFile.find sample_function_then_data "Foo") as [[| f [| d [| ? ?]]] |] eqn:Hfind;
    vm_compute in Hfind; try discriminate.
  exists f, d. injection Hfind as <- <-. repeat split; reflexivity.
Qed.

(** ** The assertion at the head of pass 1 *)






(** ** Pass 1: the walk over the candidate list *)

(** What a successful walk returns: either no candidate has an architecture
    for the name and the record is as it was handed in, or the record holds
    the first candidate that has one. *)
Lemma try_modules_loop_Ok (self self' : SpecEntry.t)
  (module_lookup : gmap string SpecFile.t) (try_modules : list string) (n : Z) :
  Resolver.try_modules_loop self module_lookup try_modules = Ok (self', n) ->
  (n = 0 /\ self' = self /\
   Forall (fun candidate =>
             exists m, module_lookup !! candidate = Some m /\
                       Arch.truth (SpecFile.find_arch m (SpecEntry.name self)) = false)
          try_modules)
  \/ (n = 1 /\
      exists (k : nat) candidate m callconv,
        try_modules !! k = Some candidate
        /\ module_lookup !! candidate = Some m
        /\ Arch.truth (SpecFile.find_arch m (SpecEntry.name self)) = true
        /\ SpecFile.find_callconv m (SpecEntry.name self) = Ok callconv
        /\ self' = SpecEntry.set_resolved self
                     (SpecFile.find_arch m (SpecEntry.name self))
                     (Some (candidate, SpecEntry.name self)) callconv
        /\ forall (j : nat) earlier,
             (j < k)%nat -> try_modules !! j = Some earlier ->
             exists m', module_lookup !! earlier = Some m' /\
                        Arch.truth (SpecFile.find_arch m' (SpecEntry.name self)) = false).
Proof.
  induction try_modules as [| candidate try_modules IH]; simpl.
  - intros [= <- <-]. left. repeat split. constructor.
  - destruct (module_lookup !! candidate) as [m |] eqn:Hm; [| discriminate].
    destruct (SpecFile.find_callconv m (SpecEntry.name self)) as [callconv | e] eqn:Hcc;
      [| discriminate]. simpl.
    destruct (Arch.truth (SpecFile.find_arch m (SpecEntry.name self))) eqn:Htruth.
    + intros [= <- <-]. right. split; [reflexivity |].
      exists 0%nat, candidate, m, callconv. repeat split; try assumption.
      intros j earlier Hj. lia.
    + intros Hrest. destruct (IH Hrest) as [(-> & -> & Hall) | (-> & Hfound)].
      * left. repeat split. constructor; eauto.
      * right. split; [reflexivity |].
        destruct Hfound as (k & c & m' & cc & Hk & Hc & Ht & Hcc' & Hself & Hearlier).
        exists (S k), c, m', cc. repeat split; try assumption.
        intros [| j] earlier Hj Hlook; simpl in Hlook.
        -- injection Hlook as <-. eauto.
        -- apply (Hearlier j); [lia | assumption].
Qed.

(** C4 (as the code has it): pass 1 also works on the records that carry a
    forward target from their source line.  Such a record (its name not
    ['@']) has its forward target and its architecture set cleared and is
    searched for in the candidate list like a record without one: it ends
    without forward target and with an empty architecture set when no
    candidate has the name, and otherwise with the first candidate that has
    it, and with that module's architecture set and calling convention.
    Pass 2 leaves a record that holds a forward target as it is. *)
Theorem C4_pass1_searches_again `{rt : Runtime} (self : SpecEntry.t)
  (module symbol : string) (module_lookup : gmap string SpecFile.t)
  (try_modules : list string) :
  SpecEntry._forwarder self = Some (module, symbol) ->
  symbol = SpecEntry.name self ->
  SpecEntry.noname self && Str.eqb (SpecEntry.name self) "@" = false ->
  Resolver.entry_resolve_forwarders self module_lookup try_modules
  = Resolver.entry_resolve_forwarders
      (SpecEntry.set_resolved self Arch.empty None (SpecEntry.callconv self))
      module_lookup try_modules
  /\ (forall self' n,
        Resolver.entry_resolve_forwarders self module_lookup try_modules = Ok (self', n) ->
        (n = 0
         /\ SpecEntry._forwarder self' = None
         /\ SpecEntry.arch self' = Arch.empty
         /\ SpecEntry.callconv self' = SpecEntry.callconv self
         /\ Forall (fun candidate =>
                      exists m, module_lookup !! candidate = Some m /\
                                Arch.truth (SpecFile.find_arch m (SpecEntry.name self)) = false)
                   try_modules)
        \/ (n = 1 /\
            exists (k : nat) candidate m,
              try_modules !! k = Some candidate
              /\ module_lookup !! candidate = Some m
              /\ SpecEntry._forwarder self' = Some (candidate, SpecEntry.name self)
              /\ SpecEntry.arch self' = SpecFile.find_arch m (SpecEntry.name self)
              /\ Arch.truth (SpecEntry.arch self') = true
              /\ SpecFile.find_callconv m (SpecEntry.name self)
                 = Ok (SpecEntry.callconv self')
              /\ forall (j : nat) earlier,
                   (j < k)%nat -> try_modules !! j = Some earlier ->
                   exists m', module_lookup !! earlier = Some m' /\
                              Arch.truth (SpecFile.find_arch m' (SpecEntry.name self))
                              = false))
  /\ (forall function_lookup,
        Resolver.entry_extra_forwarders self function_lookup module_lookup = Ok (self, 1)).
Proof.
  intros Hfwd Hsym Hnamed.
  assert (Resolver.entry_resolve_forwarders self module_lookup try_modules
          = Resolver.try_modules_loop
              (SpecEntry.set_resolved self Arch.empty None (SpecEntry.callconv self))
              module_lookup try_modules) as Hloop.
  { unfold Resolver.entry_resolve_forwarders.
    rewrite Hfwd, Hsym, Str_eqb_refl. simpl. rewrite <- Hsym. rewrite Hsym at 1.
    by rewrite Hnamed. }
  split; [| split].
  - rewrite Hloop. unfold Resolver.entry_resolve_forwarders. simpl.
    by rewrite Hnamed.
  - intros self' n Hres. rewrite Hloop in Hres.
    apply try_modules_loop_Ok in Hres as [(-> & -> & Hall) | (-> & Hfound)].
    + left. repeat split. exact Hall.
    + right. split; [reflexivity |].
      destruct Hfound as (k & c & m & cc & Hk & Hc & Ht & Hcc & -> & Hearlier).
      exists k, c, m. repeat split; assumption.
  - intros function_lookup. unfold Resolver.entry_extra_forwarders. by rewrite Hfwd.
Qed.

Lemma C4_pass1_searches_again_witness :
  Resolver.entry_resolve_forwarders sample_rotl_parsed sample_module_lookup ["msvcrt"]
  = Resolver.entry_resolve_forwarders sample_rotl_unresolved sample_module_lookup ["msvcrt"].
Proof.
  exact (proj1 (@C4_pass1_searches_again insertion_order sample_rotl_parsed
                  "msvcrt" "_rotl64" sample_module_lookup ["msvcrt"]
                  eq_refl eq_refl eq_refl)).
Defined.

(** The record [_rotl64] of the first sample api-set comes with the forward
    target [msvcrt._rotl64] from its source line.  Pass 1 over that api-set
    leaves it without forward target and without architectures, since
    [msvcrt] has no such export.  The record [Bar] of the second api-set
    comes with the target [kernel32.Bar] and leaves pass 1 with [ntdll.Bar]. *)
Lemma C4_counterexample :
  SpecEntry.new "@ cdecl _rotl64(int64 long) ucrtbase._rotl64"
                "api-ms-win-crt-utility-l1-1-0" = Ok sample_rotl_parsed
  /\ SpecEntry._forwarder sample_rotl_parsed = Some ("msvcrt", "_rotl64")
  /\ (exists apiset',
        @Resolver.resolve_forwarders insertion_order
           sample_utility sample_module_lookup = Ok (apiset', (0, 1))
        /\ SpecFile._entries apiset' = [sample_rotl_unresolved])
  /\ SpecEntry._forwarder sample_rotl_unresolved <> SpecEntry._forwarder sample_rotl_parsed
  /\ SpecEntry.arch sample_rotl_unresolved <> SpecEntry.arch sample_rotl_parsed
  /\ SpecEntry.new "@ stdcall Bar() kernel32.Bar" "api-ms-win-core-sample-l1-1-0"
     = Ok sample_bar_parsed
  /\ @SpecFile.forwarder_modules insertion_order sample_core = ["kernel32"; "ntdll"; "msvcrt"]
  /\ Resolver.entry_resolve_forwarders sample_bar_parsed sample_module_lookup
       ["kernel32"; "ntdll"; "msvcrt"] = Ok (sample_bar, 1)
  /\ SpecEntry._forwarder sample_bar <> SpecEntry._forwarder sample_bar_parsed.
Proof.
  split; [vm_compute; reflexivity |]. split; [reflexivity |].
  split; [| split; [discriminate |]; split; [discriminate |];
            repeat split; try (vm_compute; reflexivity); discriminate].
  destruct (@Resolver.resolve_forwarders insertion_order _ sample_module_lookup)
    as [[apiset' totals] | e] eqn:Hres; vm_compute in Hres; [| discriminate].
  injection Hres as <- <-. eexists. split; reflexivity.
Qed.

(** ** The registries agree *)

Lemma init_spec (text spec : string) (self : SpecEntry.t) :
  SpecEntry.init text spec = Ok self -> SpecEntry.spec self = spec.
Proof.
  unfold SpecEntry.init. intros H.
  repeat match type of H with
         | (match ?x with _ => _ end) = Ok _ => destruct x eqn:?; try discriminate H
         | (?r ≫= _) = Ok _ => apply bind_Ok in H as (? & ? & H)
         | (let '(_, _) := ?x in _) = Ok _ => destruct x
         | Ok _ = Ok _ => injection H as <-
         end; reflexivity.
Qed.

Lemma new_spec (text spec : string) (self : SpecEntry.t) :
  SpecEntry.new text spec = Ok self -> SpecEntry.spec self = spec.
Proof.
  unfold SpecEntry.new. intros Hnew.
  apply bind_Ok in Hnew as (self0 & Hinit & Hnew). apply init_spec in Hinit.
  destruct (Str.eqb (SpecEntry.name self0) "@");
    [destruct (SpecEntry._forwarder self0) as [[m s] |] |];
    injection Hnew as <-; exact Hinit.
Qed.

Lemma parse_lines_spec (spec : string) (lines : list string)
  (entries entries' : list SpecEntry.t) (functions functions' : gmap string (list SpecEntry.t)) :
  SpecFile.parse_lines spec lines entries functions = Ok (entries', functions') ->
  Forall (fun entry => SpecEntry.spec entry = spec) entries ->
  Forall (fun entry => SpecEntry.spec entry = spec) entries'.
Proof.
  revert entries functions. induction lines as [| line lines IH];
    intros entries functions; simpl.
  - by intros [= <- _].
  - destruct (Str.nonempty line); [| apply IH].
    destruct (SpecEntry.new line spec) as [entry | []] eqn:Hnew; try discriminate.
    + intros Hrest Hall. eapply IH; [exact Hrest |].
      apply Forall_app. split; [exact Hall |].
      repeat constructor. by eapply new_spec.
    + apply IH.
Qed.

Lemma parse_source_spec (src : Run.source) (module : SpecFile.t) :
  Run.parse_source src = Ok module ->
  Forall (fun entry => SpecEntry.spec entry = SpecFile.name module)
         (SpecFile._entries module).
Proof.
  unfold Run.parse_source, SpecFile.parse. intros H.
  apply bind_Ok in H as ([spec totals] & H & Hspec). injection Hspec as <-.
  apply bind_Ok in H as ([entries functions] & H & Hspec). injection Hspec as <- _.
  simpl in *. eapply parse_lines_spec; [exact H | constructor].
Qed.

Lemma add_functions_registered (module : SpecFile.t) (dom : string -> Prop)
  (function_lookup : gmap string (list SpecEntry.t)) :
  Forall (fun entry => dom (SpecEntry.spec entry)) (SpecFile._entries module) ->
  map_Forall (fun _ l => Forall (fun func => dom (SpecEntry.spec func)) l) function_lookup ->
  map_Forall (fun _ l => Forall (fun func => dom (SpecEntry.spec func)) l)
             (SpecFile.add_functions module function_lookup).
Proof.
  unfold SpecFile.add_functions. generalize (SpecFile._entries module) as entries.
  intros entries Hentries. revert function_lookup.
  induction Hentries as [| entry entries Hentry _ IH]; intros function_lookup Hall; simpl;
    [exact Hall |].
  apply IH. unfold SpecFile.append_to. apply map_Forall_insert_2; [| exact Hall].
  apply Forall_app. split; [| by repeat constructor].
  destruct (function_lookup !! SpecEntry.name entry) as [l |] eqn:Hl; simpl; [| constructor].
  exact (map_Forall_lookup_1 _ _ _ _ Hall Hl).
Qed.

(** Every record of the function registry [run] builds belongs to a module
    of its module registry. *)
Lemma register_registered (ros_modules : list Run.source)
  (module_lookup module_lookup' : gmap string SpecFile.t)
  (function_lookup function_lookup' : gmap string (list SpecEntry.t)) :
  Run.register ros_modules module_lookup function_lookup
  = Ok (module_lookup', function_lookup') ->
  map_Forall (fun _ l => Forall (fun func => is_Some (module_lookup !! SpecEntry.spec func)) l)
             function_lookup ->
  map_Forall (fun _ l => Forall (fun func => is_Some (module_lookup' !! SpecEntry.spec func)) l)
             function_lookup'.
Proof.
  revert module_lookup function_lookup.
  induction ros_modules as [| src ros_modules IH]; intros module_lookup function_lookup;
    simpl.
  - by intros [= <- <-].
  - intros H Hall. apply bind_Ok in H as (module & Hparse & H).
    apply bind_Ok in H as ([] & _ & H).
    eapply IH; [exact H |].
    apply (add_functions_registered module
             (fun s => is_Some (<[SpecFile.name module := module]> module_lookup !! s))).
    + eapply Forall_impl; [exact (parse_source_spec _ _ Hparse) |].
      intros entry ->. rewrite lookup_insert_eq. eauto.
    + eapply map_Forall_impl; [exact Hall |]. intros name l Hl. simpl in *.
      eapply Forall_impl; [exact Hl |]. intros func [m Hm]. simpl in *.
      destruct (decide (SpecFile.name module = SpecEntry.spec func)) as [<- | Hne].
      * rewrite lookup_insert_eq. eauto.
      * rewrite lookup_insert_ne by done. eauto.
Qed.

(** The modules pass 2 chooses between are modules of the registry. *)
Lemma pass2_modules_registered `{rt : Runtime} `{!RuntimeOk rt}
  (ros_modules : list Run.source) (module_lookup : gmap string SpecFile.t)
  (function_lookup : gmap string (list SpecEntry.t)) (name : string)
  (lst : list SpecEntry.t) (module : string) :
  Run.register ros_modules ∅ ∅ = Ok (module_lookup, function_lookup) ->
  function_lookup !! name = Some lst ->
  module ∈ set_iter (map SpecEntry.spec lst) ->
  is_Some (module_lookup !! module).
Proof.
  intros Hreg Hlst Hin. apply (proj1 (set_iter_elem _ _)) in Hin.
  apply list_elem_of_In, in_map_iff in Hin as (func & <- & Hfunc).
  apply list_elem_of_In in Hfunc.
  pose proof (register_registered _ _ _ _ _ Hreg (map_Forall_empty _)) as Hall.
  apply (map_Forall_lookup_1 _ _ _ _ Hall) in Hlst.
  rewrite Forall_forall in Hlst. by apply Hlst.
Qed.

(** ** Pass 2: the choice between several exporters *)

(** Once a first module is held, the loop ends on the first module of the
    list whose bit mask is the greatest. *)
Lemma select_loop_first_greatest (name : string) (module_lookup : gmap string SpecFile.t)
  (modules : list string) (best : string) (arch : Arch.t) :
  (forall x, x ∈ best :: modules -> is_Some (module_lookup !! x)) ->
  Arch._val arch = arch_value module_lookup name best ->
  exists (k : nat) winner,
    Resolver.select_loop name module_lookup modules (Some best) arch = Ok (Some winner)
    /\ (best :: modules) !! k = Some winner
    /\ forall (j : nat) other,
         (best :: modules) !! j = Some other ->
         arch_value module_lookup name other <= arch_value module_lookup name winner
         /\ ((j < k)%nat ->
             arch_value module_lookup name other < arch_value module_lookup name winner).
Proof.
  revert best arch. induction modules as [| x modules IH]; intros best arch Hdom Harch.
  - exists 0%nat, best. split; [reflexivity |]. split; [reflexivity |].
    intros [| j] other Hother; [| discriminate Hother].
    injection Hother as <-. split; lia.
  - simpl. destruct (Hdom x ltac:(set_solver)) as [m Hm]. rewrite Hm.
    assert (arch_value module_lookup name x = Arch._val (SpecFile.find_arch m name))
      as Hx by (unfold arch_value; by rewrite Hm).
    unfold Arch.__gt__. destruct (Z.ltb_spec (Arch._val arch) (Arch._val (SpecFile.find_arch m name)))
      as [Hlt | Hge].
    + destruct (IH x (SpecFile.find_arch m name)) as (k & winner & Hloop & Hk & Hmax);
        [intros y Hy; apply Hdom; rewrite !elem_of_cons in *; tauto | by rewrite Hx |].
      exists (S k), winner. split; [exact Hloop |]. split; [exact Hk |].
      intros [| j] other Hother; simpl in Hother.
      * injection Hother as <-.
        destruct (Hmax 0%nat x eq_refl) as [Hle _]. split; lia.
      * destruct (Hmax j other Hother) as [Hle Hstrict]. split; [exact Hle |].
        intros Hj. apply Hstrict. lia.
    + destruct (IH best arch) as (k & winner & Hloop & Hk & Hmax);
        [intros y Hy; apply Hdom; rewrite !elem_of_cons in *; tauto | exact Harch |].
      destruct k as [| k].
      * simpl in Hk. injection Hk as Hk. subst winner.
        exists 0%nat, best. split; [exact Hloop |].
        split; [reflexivity |].
        intros [| [| j]] other Hother; simpl in Hother.
        -- injection Hother as <-. split; lia.
        -- injection Hother as <-. split; lia.
        -- destruct (Hmax (S j) other Hother) as [Hle _]. split; [exact Hle | lia].
      * exists (S (S k)), winner. split; [exact Hloop |]. split; [exact Hk |].
        destruct (Hmax 0%nat best eq_refl) as [_ Hbest]. specialize (Hbest ltac:(lia)).
        intros [| [| j]] other Hother; simpl in Hother.
        -- injection Hother as <-. split; lia.
        -- injection Hother as <-. split; lia.
        -- destruct (Hmax (S j) other Hother) as [Hle Hstrict]. split; [exact Hle |].
           intros Hj. apply Hstrict. lia.
Qed.

(** C1 (as the code has it): when more than one module exports the name of
    a record that pass 1 left unresolved, pass 2 adopts the module whose
    aggregate architecture set has the greatest bit mask (i386 = 1,
    x86_64 = 2, arm = 4, arm64 = 8, or-ed together) compared as a number,
    and among modules with that mask the first one in iteration order.  The
    record gets that module's architecture set and calling convention. *)
Theorem C1_pass2_greatest_mask `{rt : Runtime} (self : SpecEntry.t)
  (function_lookup : gmap string (list SpecEntry.t))
  (module_lookup : gmap string SpecFile.t) (func : SpecEntry.t) (lst : list SpecEntry.t) :
  SpecEntry._forwarder self = None ->
  SpecEntry.noname self && Str.eqb (SpecEntry.name self) "@" = false ->
  function_lookup !! SpecEntry.name self = Some (func :: lst) ->
  let modules := set_iter (map SpecEntry.spec (func :: lst)) in
  (1 < length modules)%nat ->
  (forall module, module ∈ modules -> is_Some (module_lookup !! module)) ->
  exists (k : nat) winner m,
    modules !! k = Some winner
    /\ module_lookup !! winner = Some m
    /\ (forall (j : nat) other,
          modules !! j = Some other ->
          arch_value module_lookup (SpecEntry.name self) other
          <= arch_value module_lookup (SpecEntry.name self) winner
          /\ ((j < k)%nat ->
              arch_value module_lookup (SpecEntry.name self) other
              < arch_value module_lookup (SpecEntry.name self) winner))
    /\ Resolver.entry_extra_forwarders self function_lookup module_lookup
       = (callconv ← SpecFile.find_callconv m (SpecEntry.name self);
          Ok (SpecEntry.set_resolved self (SpecFile.find_arch m (SpecEntry.name self))
                (Some (winner, SpecEntry.name self)) callconv, 1)).
Proof.
  intros Hfwd Hnamed Hlst modules Hlen Hdom.
  unfold Resolver.entry_extra_forwarders. rewrite Hfwd, Hnamed, Hlst. fold modules.
  destruct modules as [| best rest] eqn:Hmodules; [simpl in Hlen; lia |].
  destruct (Hdom best ltac:(set_solver)) as [mbest Hbest].
  destruct (select_loop_first_greatest (SpecEntry.name self) module_lookup rest best
              (SpecFile.find_arch mbest (SpecEntry.name self)))
    as (k & winner & Hloop & Hk & Hmax);
    [exact Hdom | unfold arch_value; by rewrite Hbest |].
  destruct (Hdom winner) as [m Hm];
    [apply list_elem_of_lookup; eauto |].
  exists k, winner, m. split; [exact Hk |]. split; [exact Hm |]. split; [exact Hmax |].
  assert ((1 <? Z.of_nat (length (best :: rest))) = true) as -> by (apply Z.ltb_lt; lia).
  simpl. rewrite Hbest. simpl. rewrite Hloop. simpl. rewrite Hm. reflexivity.
Qed.

Lemma C1_pass2_greatest_mask_witness :
  exists (k : nat) winner m,
    ["ntdll"; "other"] !! k = Some winner
    /\ sample_module_lookup !! winner = Some m
    /\ (forall (j : nat) other,
          ["ntdll"; "other"] !! j = Some other ->
          arch_value sample_module_lookup "Baz" other
          <= arch_value sample_module_lookup "Baz" winner
          /\ ((j < k)%nat ->
              arch_value sample_module_lookup "Baz" other
              < arch_value sample_module_lookup "Baz" winner))
    /\ @Resolver.entry_extra_forwarders insertion_order sample_baz_unresolved
         sample_function_lookup sample_module_lookup
       = (callconv ← SpecFile.find_callconv m "Baz";
          Ok (SpecEntry.set_resolved sample_baz_unresolved (SpecFile.find_arch m "Baz")
                (Some (winner, "Baz")) callconv, 1)).
Proof.
  refine (@C1_pass2_greatest_mask insertion_order sample_baz_unresolved
            sample_function_lookup sample_module_lookup
            (SpecEntry.mk "ntdll" "@" (Some "cdecl") "Baz" (Arch.mk Arch.arm64) None false)
            [SpecEntry.mk "other" "@" (Some "cdecl") "Baz" (Arch.mk 7) None false]
            eq_refl eq_refl eq_refl _ _).
  - vm_compute. lia.
  - intros module Hin. vm_compute in Hin.
    apply elem_of_cons in Hin as [-> | Hin];
      [| apply elem_of_cons in Hin as [-> | Hin]; [| by apply elem_of_nil in Hin]];
      vm_compute; eauto.
Defined.

(** Two modules export [Baz]: [ntdll] for arm64 alone, [other] for i386,
    x86_64 and arm.  Whatever the order in which the two are tried, pass 2
    adopts [ntdll], whose architecture set is the smaller one. *)
Lemma C1_counterexample :
  map SpecEntry.spec <$> (sample_function_lookup !! "Baz") = Some ["ntdll"; "other"]
  /\ (exists ntdll other,
        sample_module_lookup !! "ntdll" = Some ntdll
        /\ sample_module_lookup !! "other" = Some other
        /\ Arch.__len__ (SpecFile.find_arch ntdll "Baz") = 1
        /\ Arch.__len__ (SpecFile.find_arch other "Baz") = 3)
  /\ @Resolver.entry_extra_forwarders insertion_order sample_baz_unresolved
       sample_function_lookup sample_module_lookup = Ok (sample_baz, 1)
  /\ @Resolver.entry_extra_forwarders reverse_order sample_baz_unresolved
       sample_function_lookup sample_module_lookup = Ok (sample_baz, 1)
  /\ SpecEntry._forwarder sample_baz = Some ("ntdll", "Baz").
Proof.
  split; [vm_compute; reflexivity |]. split.
  - destruct (sample_module_lookup !! "ntdll") as [ntdll |] eqn:Hn;
      [| vm_compute in Hn; discriminate].
    destruct (sample_module_lookup !! "other") as [other |] eqn:Ho;
      [| vm_compute in Ho; discriminate].
    exists ntdll, other. vm_compute in Hn, Ho.
    injection Hn as <-. injection Ho as <-. repeat split; vm_compute; reflexivity.
  - repeat split; vm_compute; reflexivity.
Qed.

(** ** The candidate list of pass 1 *)

Lemma insert_Permutation {A : Type} (before : A -> A -> bool) (x : A) (l : list A) :
  Py.insert before x l ≡ₚ x :: l.
Proof.
  induction l as [| y l IH]; simpl; [reflexivity |].
  destruct (before y x); [| reflexivity].
  rewrite IH. apply perm_swap.
Qed.

Lemma sorted_Permutation {A : Type} (before : A -> A -> bool) (l : list A) :
  Py.sorted before l ≡ₚ l.
Proof.
  induction l as [| x l IH]; simpl; [reflexivity |].
  by rewrite insert_Permutation, IH.
Qed.

Section SortedByKey.

Context {A : Type} (key : A -> Z).

Lemma insert_descending (x : A) (l : list A) :
  StronglySorted (fun a b => key b <= key a) l ->
  StronglySorted (fun a b => key b <= key a) (Py.insert (fun y x => key x <? key y) x l).
Proof.
  induction 1 as [| y l Hsorted IH Hall]; simpl; [repeat constructor |].
  destruct (Z.ltb_spec (key x) (key y)) as [Hlt | Hge].
  - constructor; [exact IH |].
    rewrite insert_Permutation. constructor; [lia | exact Hall].
  - constructor; [by constructor |].
    constructor; [exact Hge |].
    eapply Forall_impl; [exact Hall |]. intros z Hz. simpl in Hz. lia.
Qed.

(** [sorted(..., key=key, reverse=True)] puts greater keys first. *)
Lemma sorted_descending (l : list A) :
  StronglySorted (fun a b => key b <= key a) (Py.sorted (fun y x => key x <? key y) l).
Proof.
  induction l as [| x l IH]; simpl; [constructor | by apply insert_descending].
Qed.

Lemma descending_lookup (l : list A) (i j : nat) (a b : A) :
  StronglySorted (fun a b => key b <= key a) l ->
  (i < j)%nat -> l !! i = Some a -> l !! j = Some b -> key b <= key a.
Proof.
  intros Hsorted. revert i j. induction Hsorted as [| x l _ IH Hall]; intros i j Hij Hi Hj;
    [discriminate Hi |].
  destruct j as [| j]; [lia |]. simpl in Hj. destruct i as [| i].
  - injection Hi as <-. rewrite Forall_forall in Hall.
    apply Hall. by eapply list_elem_of_lookup_2.
  - simpl in Hi. apply (IH i j); [lia | assumption..].
Qed.

End SortedByKey.

Lemma count_app (x : string) (l1 l2 : list string) :
  Py.count x (l1 ++ l2) = Py.count x l1 + Py.count x l2.
Proof. unfold Py.count. rewrite List.filter_app, length_app. lia. Qed.

Lemma forward_modules_app (l1 l2 : list SpecEntry.t) :
  forward_modules (l1 ++ l2) = (forward_modules l1 ++ forward_modules l2)%list.
Proof. apply flat_map_app. Qed.

Lemma nonempty_neq (s : string) : Str.nonempty s = true <-> s <> "".
Proof. destruct s; simpl; split; (done || discriminate). Qed.

Lemma forward_modules_elem (entries : list SpecEntry.t) (module : string) :
  module ∈ forward_modules entries <->
  module <> "" /\
  exists entry, entry ∈ entries /\ SpecEntry.forwarder_module entry = Some module.
Proof.
  unfold forward_modules. rewrite list_elem_of_In, in_flat_map. split.
  - intros (entry & Hin & Hm). apply list_elem_of_In in Hin.
    destruct (SpecEntry.forwarder_module entry) as [m |] eqn:Hfm; [| by destruct Hm].
    destruct (Str.nonempty m) eqn:Hne; [| by destruct Hm].
    destruct Hm as [-> | []]. split; [by apply nonempty_neq | eauto].
  - intros (Hne & entry & Hin & Hfm). exists entry.
    split; [by apply list_elem_of_In |].
    apply nonempty_neq in Hne. rewrite Hfm, Hne. by left.
Qed.

Lemma count_modules_snoc (entries : list SpecEntry.t) (entry : SpecEntry.t) :
  SpecFile.count_modules (entries ++ [entry]) =
  let '(keys, modules) := SpecFile.count_modules entries in
  match SpecEntry.forwarder_module entry with
  | Some module =>
      if Str.nonempty module
      then (if Str.mem module keys then keys else (keys ++ [module])%list,
            <[module := default 0 (modules !! module) + 1]> modules)
      else (keys, modules)
  | None => (keys, modules)
  end.
Proof.
  unfold SpecFile.count_modules. rewrite fold_left_app. simpl.
  by destruct (fold_left _ entries _).
Qed.

(** The counting loop: the keys are the distinct forward modules and each
    counter is the number of records that forward to its key. *)
Lemma count_modules_spec (entries : list SpecEntry.t) (keys : list string)
  (modules : gmap string Z) :
  SpecFile.count_modules entries = (keys, modules) ->
  NoDup keys
  /\ (forall m, m ∈ keys <-> m ∈ forward_modules entries)
  /\ (forall m, default 0 (modules !! m) = Py.count m (forward_modules entries)).
Proof.
  revert keys modules. induction entries as [| entry entries IH] using rev_ind;
    intros keys modules.
  - intros [= <- <-]. split; [constructor |]. split; [reflexivity |].
    intros m. by rewrite lookup_empty.
  - rewrite count_modules_snoc, forward_modules_app.
    destruct (SpecFile.count_modules entries) as [keys0 modules0].
    destruct (IH keys0 modules0 eq_refl) as (Hnodup & Hkeys & Hcount).
    assert (forward_modules [entry] =
            match SpecEntry.forwarder_module entry with
            | Some module => if Str.nonempty module then [module] else []
            | None => []
            end) as -> by (unfold forward_modules; simpl; apply app_nil_r).
    destruct (SpecEntry.forwarder_module entry) as [module |];
      [destruct (Str.nonempty module) |];
      try (intros [= <- <-]; rewrite app_nil_r; exact (conj Hnodup (conj Hkeys Hcount))).
    intros [= <- <-]. split; [| split].
    + destruct (Str.mem module keys0) eqn:Hmem; [exact Hnodup |].
      apply NoDup_app. split; [exact Hnodup |]. split; [| apply NoDup_singleton].
      intros x Hx Hx'. apply list_elem_of_singleton in Hx' as ->.
      apply Str_mem_In in Hx. congruence.
    + intros m. rewrite elem_of_app, list_elem_of_singleton, <- Hkeys.
      destruct (Str.mem module keys0) eqn:Hmem.
      * apply Str_mem_In in Hmem. split; [tauto |]. intros [? | ->]; assumption.
      * by rewrite elem_of_app, list_elem_of_singleton.
    + intros m. rewrite count_app, <- Hcount.
      unfold Py.count at 1. simpl.
      destruct (decide (module = m)) as [-> | Hne].
      * rewrite lookup_insert_eq, Str_eqb_refl. simpl. lia.
      * rewrite lookup_insert_ne by done.
        assert (Str.eqb m module = false) as -> by (apply Str_eqb_neq; congruence).
        simpl. lia.
Qed.

Section ForwarderModules.

Context `{rt : Runtime} `{!RuntimeOk rt}.

(** [forwarder_modules()]: the distinct non-empty module names the records
    forward to, most used first. *)
Lemma forwarder_modules_spec (self : SpecFile.t) :
  NoDup (SpecFile.forwarder_modules self)
  /\ (forall module,
        module ∈ SpecFile.forwarder_modules self <->
        module <> "" /\
        exists entry, entry ∈ SpecFile._entries self /\
                      SpecEntry.forwarder_module entry = Some module)
  /\ (forall (i j : nat) mi mj,
        (i < j)%nat ->
        SpecFile.forwarder_modules self !! i = Some mi ->
        SpecFile.forwarder_modules self !! j = Some mj ->
        usage self mj <= usage self mi).
Proof.
  unfold SpecFile.forwarder_modules, usage.
  destruct (SpecFile.count_modules (SpecFile._entries self)) as [keys modules] eqn:Hcm.
  destruct (count_modules_spec _ _ _ Hcm) as (Hnodup & Hkeys & Hcount).
  split; [| split].
  - by rewrite sorted_Permutation, dict_iter_perm.
  - intros module. by rewrite sorted_Permutation, dict_iter_perm, Hkeys, forward_modules_elem.
  - intros i j mi mj Hij Hi Hj. rewrite <- !Hcount.
    eapply (descending_lookup (fun k => default 0 (modules !! k))); try eassumption.
    apply sorted_descending.
Qed.

End ForwarderModules.

(** ** Records built by the parser have an architecture *)

Lemma init_arch (text spec : string) (self : SpecEntry.t) :
  SpecEntry.init text spec = Ok self -> Arch._val (SpecEntry.arch self) <> 0.
Proof.
  assert (forall arch : Arch.t,
             Arch._val (if negb (Arch.truth arch) then Arch.mk Arch.Any else arch) <> 0)
    as Harch.
  { intros arch. destruct (Arch.truth arch) eqn:Ht; simpl; [| discriminate].
    rewrite truth_val, negb_true_iff in Ht. by apply Z.eqb_neq. }
  unfold SpecEntry.init. intros H.
  repeat match type of H with
         | (match ?x with _ => _ end) = Ok _ => destruct x eqn:?; try discriminate H
         | (?r ≫= _) = Ok _ => apply bind_Ok in H as (? & ? & H)
         | (let '(_, _) := ?x in _) = Ok _ => destruct x
         | Ok _ = Ok _ => injection H as <-
         end; apply Harch.
Qed.

Lemma new_arch (text spec : string) (self : SpecEntry.t) :
  SpecEntry.new text spec = Ok self -> Arch._val (SpecEntry.arch self) <> 0.
Proof.
  unfold SpecEntry.new. intros Hnew.
  apply bind_Ok in Hnew as (self0 & Hinit & Hnew). apply init_arch in Hinit.
  destruct (Str.eqb (SpecEntry.name self0) "@");
    [destruct (SpecEntry._forwarder self0) as [[m s] |] |];
    injection Hnew as <-; exact Hinit.
Qed.

Lemma append_to_have_arch (key : string) (entry : SpecEntry.t)
  (functions : gmap string (list SpecEntry.t)) :
  Arch._val (SpecEntry.arch entry) <> 0 ->
  map_Forall (fun _ l => Forall (fun func => Arch._val (SpecEntry.arch func) <> 0) l)
             functions ->
  map_Forall (fun _ l => Forall (fun func => Arch._val (SpecEntry.arch func) <> 0) l)
             (SpecFile.append_to key entry functions).
Proof.
  intros Hentry Hall. unfold SpecFile.append_to. apply map_Forall_insert_2; [| exact Hall].
  apply Forall_app. split; [| by repeat constructor].
  destruct (functions !! key) as [l |] eqn:Hl; simpl; [| constructor].
  exact (map_Forall_lookup_1 _ _ _ _ Hall Hl).
Qed.

Lemma parse_lines_have_arch (spec : string) (lines : list string)
  (entries entries' : list SpecEntry.t) (functions functions' : gmap string (list SpecEntry.t)) :
  SpecFile.parse_lines spec lines entries functions = Ok (entries', functions') ->
  map_Forall (fun _ l => Forall (fun func => Arch._val (SpecEntry.arch func) <> 0) l)
             functions ->
  map_Forall (fun _ l => Forall (fun func => Arch._val (SpecEntry.arch func) <> 0) l)
             functions'.
Proof.
  revert entries functions. induction lines as [| line lines IH];
    intros entries functions; simpl.
  - by intros [= _ <-].
  - destruct (Str.nonempty line); [| apply IH].
    destruct (SpecEntry.new line spec) as [entry | []] eqn:Hnew; try discriminate.
    + intros Hrest Hall. eapply IH; [exact Hrest |].
      apply append_to_have_arch; [by eapply new_arch | exact Hall].
    + apply IH.
Qed.

Lemma parse_source_have_arch (src : Run.source) (module : SpecFile.t) :
  Run.parse_source src = Ok module -> records_have_arch module.
Proof.
  unfold Run.parse_source, SpecFile.parse. intros H.
  apply bind_Ok in H as ([spec totals] & H & Hspec). injection Hspec as <-.
  apply bind_Ok in H as ([entries functions] & H & Hspec). injection Hspec as <- _.
  unfold records_have_arch. simpl.
  eapply parse_lines_have_arch; [exact H |]. apply map_Forall_empty.
Qed.

(** Every module of the registry [run] builds has records with an
    architecture. *)
Lemma register_have_arch (ros_modules : list Run.source)
  (module_lookup module_lookup' : gmap string SpecFile.t)
  (function_lookup function_lookup' : gmap string (list SpecEntry.t)) :
  Run.register ros_modules module_lookup function_lookup
  = Ok (module_lookup', function_lookup') ->
  map_Forall (fun _ module => records_have_arch module) module_lookup ->
  map_Forall (fun _ module => records_have_arch module) module_lookup'.
Proof.
  revert module_lookup function_lookup.
  induction ros_modules as [| src ros_modules IH]; intros module_lookup function_lookup;
    simpl.
  - by intros [= <- _].
  - intros H Hall. apply bind_Ok in H as (module & Hparse & H).
    apply bind_Ok in H as ([] & _ & H).
    eapply IH; [exact H |].
    apply map_Forall_insert_2; [by eapply parse_source_have_arch | exact Hall].
Qed.

Lemma sample_module_lookup_have_arch :
  map_Forall (fun _ module => records_have_arch module) sample_module_lookup.
Proof.
  unfold sample_module_lookup, sample_registries.
  destruct (Run.register sample_ros ∅ ∅) as [[module_lookup function_lookup] | e] eqn:Hreg;
    simpl; [| apply map_Forall_empty].
  eapply register_have_arch; [exact Hreg | apply map_Forall_empty].
Defined.

(** ** Pass 1 adopts the first candidate that exports the name *)

Lemma fold_add_zero (functions : list SpecEntry.t) (arch : Arch.t) :
  Arch._val (fold_left (fun arch func => Arch.__add__ arch (SpecEntry.arch func))
                       functions arch) = 0
  <-> Arch._val arch = 0
      /\ Forall (fun func => Arch._val (SpecEntry.arch func) = 0) functions.
Proof.
  revert arch. induction functions as [| func functions IH]; intros arch; simpl.
  - split; [intros H; split; [exact H | constructor] | by intros [H _]].
  - rewrite IH, Forall_cons. simpl. rewrite Z.lor_eq_0_iff. tauto.
Qed.

(** A module has an architecture for a name exactly when it exports it. *)
Lemma find_arch_exports (module : SpecFile.t) (name : string) :
  records_have_arch module ->
  Arch.truth (SpecFile.find_arch module name) = true <-> exports module name.
Proof.
  intros Hwf. rewrite truth_val, negb_true_iff, Z.eqb_neq.
  unfold SpecFile.find_arch, exports.
  destruct (SpecFile.find module name) as [[| func functions] |] eqn:Hfind; simpl.
  - split; [done | intros (? & ? & [=])].
  - split; [eauto |]. intros _. rewrite fold_add_zero. intros [Hzero _].
    apply (map_Forall_lookup_1 _ _ _ _ Hwf) in Hfind.
    apply Forall_cons in Hfind as [Hfunc _]. simpl in Hzero.
    apply Z.lor_eq_0_iff in Hzero as [_ Hzero]. contradiction.
  - split; [done | intros (? & ? & [=])].
Qed.

Lemma for_entries_Forall2 (f : SpecEntry.t -> result (SpecEntry.t * Z))
  (entries entries' : list SpecEntry.t) (total total' : Z) :
  Resolver.for_entries f entries total = Ok (entries', total') ->
  Forall2 (fun entry entry' => exists n, f entry = Ok (entry', n)) entries entries'.
Proof.
  revert entries' total total'. induction entries as [| entry entries IH];
    intros entries' total total'; simpl.
  - intros [= <- _]. constructor.
  - destruct (f entry) as [[entry' n] | e] eqn:Hf; [| discriminate]. simpl.
    destruct (Resolver.for_entries f entries (total + n)) as [[rest t] | e] eqn:Hrest;
      [| discriminate]. simpl.
    intros [= <- _]. constructor; eauto.
Qed.

(** C5: the candidate list of pass 1 is [forwarder_modules()] of the
    api-set: the distinct module names its own records name as forward
    target, most used first.  Every record that pass 1 resolves adopts a
    module of that list, namely the first one in it that exports a record of
    that name.  A record that pass 1 does not resolve either cannot be
    searched for (unnamed and called ['@']) and is left as it is, or ends
    without forward target because no candidate exports its name: a record
    that can be searched for is resolved whenever some candidate exports
    its name. *)
Theorem C5_pass1_first_candidate `{rt : Runtime} `{!RuntimeOk rt}
  (apiset apiset' : SpecFile.t) (module_lookup : gmap string SpecFile.t)
  (totals : Z * Z) :
  map_Forall (fun _ module => records_have_arch module) module_lookup ->
  Resolver.resolve_forwarders apiset module_lookup = Ok (apiset', totals) ->
  let candidates := SpecFile.forwarder_modules apiset in
  NoDup candidates
  /\ (forall module,
        module ∈ candidates <->
        module <> "" /\
        exists entry, entry ∈ SpecFile._entries apiset /\
                      SpecEntry.forwarder_module entry = Some module)
  /\ (forall (i j : nat) mi mj,
        (i < j)%nat -> candidates !! i = Some mi -> candidates !! j = Some mj ->
        usage apiset mj <= usage apiset mi)
  /\ Forall2
       (fun entry entry' =>
          exists n,
            Resolver.entry_resolve_forwarders entry module_lookup candidates
            = Ok (entry', n)
            /\ (n = 0 \/ n = 1)
            /\ (n = 1 ->
                exists (k : nat) module m,
                  candidates !! k = Some module
                  /\ module ∈ candidates
                  /\ module_lookup !! module = Some m
                  /\ SpecEntry._forwarder entry' = Some (module, SpecEntry.name entry)
                  /\ exports m (SpecEntry.name entry)
                  /\ forall (j : nat) earlier,
                       (j < k)%nat -> candidates !! j = Some earlier ->
                       exists m', module_lookup !! earlier = Some m'
                                  /\ ~ exports m' (SpecEntry.name entry))
            /\ (n = 0 ->
                (SpecEntry.noname entry && Str.eqb (SpecEntry.name entry) "@" = true
                 /\ entry' = entry)
                \/ (SpecEntry.noname entry && Str.eqb (SpecEntry.name entry) "@" = false
                    /\ SpecEntry._forwarder entry' = None
                    /\ Forall (fun candidate =>
                                 exists m, module_lookup !! candidate = Some m
                                           /\ ~ exports m (SpecEntry.name entry))
                              candidates)))
       (SpecFile._entries apiset) (SpecFile._entries apiset').
Proof.
  intros Hwf Hres candidates.
  destruct (forwarder_modules_spec apiset) as (Hnodup & Helem & Hsorted).
  split; [exact Hnodup |]. split; [exact Helem |]. split; [exact Hsorted |].
  unfold Resolver.resolve_forwarders in Hres. fold candidates in Hres.
  apply bind_Ok in Hres as ([entries' total] & Hloop & Hres).
  injection Hres as <- _. simpl.
  apply for_entries_Forall2 in Hloop.
  eapply Forall2_impl; [exact Hloop |].
  intros entry entry' [n Hentry]. exists n. split; [exact Hentry |].
  unfold Resolver.entry_resolve_forwarders in Hentry.
  apply bind_Ok in Hentry as ([] & _ & Hentry).
  destruct (SpecEntry.noname entry && Str.eqb (SpecEntry.name entry) "@").
  { injection Hentry as <- <-. split; [by left |]. split; [discriminate |].
    intros _. by left. }
  apply try_modules_loop_Ok in Hentry as [(-> & -> & Hnone) | (-> & Hfound)].
  { split; [by left |]. split; [discriminate |]. intros _. right.
    split; [reflexivity |]. split; [reflexivity |].
    eapply Forall_impl; [exact Hnone |]. intros candidate (m & Hm & Hfalse). simpl in Hfalse.
    exists m. split; [exact Hm |].
    rewrite <- find_arch_exports by exact (map_Forall_lookup_1 _ _ _ _ Hwf Hm).
    by rewrite Hfalse. }
  split; [by right |]. split; [| discriminate]. intros _.
  destruct Hfound as (k & c & m & cc & Hk & Hc & Ht & _ & -> & Hearlier).
  simpl in *. exists k, c, m.
  split; [exact Hk |]. split; [by eapply list_elem_of_lookup_2 |].
  split; [exact Hc |]. split; [reflexivity |].
  split; [apply find_arch_exports; [exact (map_Forall_lookup_1 _ _ _ _ Hwf Hc) | exact Ht] |].
  intros j earlier Hj Hlook. destruct (Hearlier j earlier Hj Hlook) as (m' & Hm' & Hfalse).
  exists m'. split; [exact Hm' |].
  rewrite <- find_arch_exports by exact (map_Forall_lookup_1 _ _ _ _ Hwf Hm').
  by rewrite Hfalse.
Qed.

(** Pass 1 over the second sample api-set: the candidates are [kernel32],
    [ntdll] and [msvcrt]; the record [Bar] adopts [ntdll], the first of them
    that exports it, and five of the six records are resolved. *)
Lemma C5_pass1_first_candidate_witness :
  exists apiset' totals,
    @Resolver.resolve_forwarders insertion_order sample_core sample_module_lookup
    = Ok (apiset', totals)
    /\ sample_bar ∈ SpecFile._entries apiset'
    /\ totals = (5, 6)
    /\ NoDup (@SpecFile.forwarder_modules insertion_order sample_core)
    /\ Forall2
         (fun entry entry' =>
            exists n,
              Resolver.entry_resolve_forwarders entry sample_module_lookup
                (@SpecFile.forwarder_modules insertion_order sample_core)
              = Ok (entry', n)
              /\ (n = 0 \/ n = 1))
         (SpecFile._entries sample_core) (SpecFile._entries apiset').
Proof.
  destruct (@Resolver.resolve_forwarders insertion_order sample_core sample_module_lookup)
    as [[apiset' totals] | e] eqn:Hres; [| vm_compute in Hres; discriminate].
  exists apiset', totals. split; [reflexivity |].
  pose proof (@C5_pass1_first_candidate insertion_order insertion_order_ok
                sample_core apiset' sample_module_lookup totals
                sample_module_lookup_have_arch Hres) as (Hnodup & _ & _ & Hall).
  assert (sample_bar ∈ SpecFile._entries apiset' /\ totals = (5, 6)) as [Hbar Htotals].
  { vm_compute in Hres. injection Hres as <- <-. split; [| reflexivity].
    right. left. }
  split; [exact Hbar |]. split; [exact Htotals |]. split; [exact Hnodup |].
  eapply Forall2_impl; [exact Hall |].
  intros entry entry' (n & Hn & Hcases & _). exists n. by split.
Defined.

(** * Further properties *)

(** ** Arithmetic of architecture sets *)

(** Membership of one architecture is a bit test. *)
Lemma has_testbit (a : Arch.t) (k : Z) :
  0 <= k -> Arch.has a (2 ^ k) = Z.testbit (Arch._val a) k.
Proof.
  intros Hk. unfold Arch.has.
  assert (Z.land (Arch._val a) (2 ^ k)
          = if Z.testbit (Arch._val a) k then 2 ^ k else 0) as ->.
  { apply Z.bits_inj'. intros n Hn. rewrite Z.land_spec, Z.pow2_bits_eqb by lia.
    destruct (Z.testbit (Arch._val a) k) eqn:Hb.
    - rewrite Z.pow2_bits_eqb by lia.
      destruct (Z.eqb_spec k n) as [<- | Hne];
        [by rewrite Hb | by rewrite andb_false_r].
    - rewrite Z.bits_0.
      destruct (Z.eqb_spec k n) as [<- | Hne];
        [by rewrite Hb | by rewrite andb_false_r]. }
  destruct (Z.testbit (Arch._val a) k); [| reflexivity].
  apply negb_true_iff, Z.eqb_neq. pose proof (Z.pow_pos_nonneg 2 k). lia.
Qed.

Lemma member_is_bit (v : Z) :
  v = Arch.i386 \/ v = Arch.x86_64 \/ v = Arch.arm \/ v = Arch.arm64 ->
  exists k, 0 <= k /\ v = 2 ^ k.
Proof.
  intros [-> | [-> | [-> | ->]]];
    [exists 0 | exists 1 | exists 2 | exists 3]; split; (lia || reflexivity).
Qed.

(** [+] is the union and [-] the difference of architecture sets: for each
    of the four architectures membership in [a + b] and in [a - b] is that
    of a union and of a difference; what is taken out by [-] is put back by
    [+]; the union is empty only when both sets are. *)
Theorem Arch_union_difference (a b : Arch.t) :
  (forall v,
     v = Arch.i386 \/ v = Arch.x86_64 \/ v = Arch.arm \/ v = Arch.arm64 ->
     Arch.has (Arch.__add__ a b) v = Arch.has a v || Arch.has b v
     /\ Arch.has (Arch.__sub__ a b) v = Arch.has a v && negb (Arch.has b v))
  /\ Arch.__add__ (Arch.__sub__ a b) b = Arch.__add__ a b
  /\ Arch.__sub__ (Arch.__add__ a b) b = Arch.__sub__ a b
  /\ Arch.__sub__ a a = Arch.empty
  /\ Arch.truth (Arch.__add__ a b) = Arch.truth a || Arch.truth b.
Proof.
  split; [| split; [| split; [| split]]].
  - intros v Hv. destruct (member_is_bit v Hv) as (k & Hk & ->).
    rewrite !has_testbit by exact Hk. unfold Arch.__add__, Arch.__sub__. simpl.
    by rewrite Z.lor_spec, Z.land_spec, Z.lnot_spec.
  - unfold Arch.__add__, Arch.__sub__. simpl. f_equal.
    apply Z.bits_inj'. intros n Hn.
    rewrite !Z.lor_spec, Z.land_spec, Z.lnot_spec by exact Hn.
    by destruct (Z.testbit (Arch._val a) n), (Z.testbit (Arch._val b) n).
  - unfold Arch.__add__, Arch.__sub__. simpl. f_equal.
    apply Z.bits_inj'. intros n Hn.
    rewrite !Z.land_spec, Z.lor_spec, Z.lnot_spec by exact Hn.
    by destruct (Z.testbit (Arch._val a) n), (Z.testbit (Arch._val b) n).
  - unfold Arch.__sub__, Arch.empty. by rewrite Z.land_lnot_diag.
  - rewrite !truth_val. unfold Arch.__add__. simpl.
    destruct (Z.eqb_spec (Arch._val a) 0) as [Ha | Ha],
             (Z.eqb_spec (Arch._val b) 0) as [Hb | Hb]; simpl;
      destruct (Z.eqb_spec (Z.lor (Arch._val a) (Arch._val b)) 0) as [H | H];
      try reflexivity; rewrite Z.lor_eq_0_iff in H; tauto.
Qed.

Lemma split_go_length (sep : ascii) (s cur : string) :
  (0 < length (Str.split_go sep s cur))%nat.
Proof.
  revert cur. induction s as [| c s IH]; intros cur; simpl; [lia |].
  destruct (Ascii.eqb c sep); simpl; [lia | apply IH].
Qed.

Lemma from_strs_Ok (l : list string) (vs : list Z) :
  Arch.from_strs l = Ok vs ->
  length vs = length l /\ Forall (fun v => 0 < v) vs.
Proof.
  revert vs. induction l as [| x l IH]; intros vs; cbn [Arch.from_strs].
  - intros [= <-]. split; [reflexivity | constructor].
  - destruct (assoc x Arch.FROM_STR) as [v |] eqn:Hx; [| discriminate].
    destruct (Arch.from_strs l) as [vs' | e]; [| discriminate]. simpl.
    intros [= <-]. destruct (IH vs' eq_refl) as [Hlen Hpos].
    split; [simpl; by rewrite Hlen |]. constructor; [| exact Hpos].
    revert Hx. unfold Arch.FROM_STR. cbn [assoc].
    repeat (destruct (Str.eqb _ x); [intros [= <-]; reflexivity |]). discriminate.
Qed.

Lemma from_strs_Raise (l : list string) (e : exn) :
  Arch.from_strs l = Raise e ->
  e = KeyError /\ exists x, x ∈ l /\ assoc x Arch.FROM_STR = None.
Proof.
  induction l as [| x l IH]; cbn [Arch.from_strs]; [discriminate |].
  destruct (assoc x Arch.FROM_STR) as [v |] eqn:Hx.
  - destruct (Arch.from_strs l) as [vs' | e']; simpl; [discriminate |].
    intros [= <-]. destruct (IH eq_refl) as [-> (y & Hy & Hnone)].
    split; [reflexivity |]. exists y. split; [by right | exact Hnone].
  - intros [= <-]. split; [reflexivity |]. exists x. split; [by left | exact Hx].
Qed.

Lemma from_strs_known (l : list string) (vs : list Z) :
  Arch.from_strs l = Ok vs ->
  Forall (fun name => is_Some (assoc name Arch.FROM_STR)) l.
Proof.
  revert vs. induction l as [| x l IH]; intros vs; cbn [Arch.from_strs]; [constructor |].
  destruct (assoc x Arch.FROM_STR) as [v |] eqn:Hx; [| discriminate].
  destruct (Arch.from_strs l) as [vs' | e]; [| discriminate].
  intros _. constructor; [rewrite Hx; eauto | by eapply IH].
Qed.

Lemma sum_pos (vs : list Z) (acc : Z) :
  Forall (fun v => 0 < v) vs -> acc <= fold_left Z.add vs acc
  /\ (vs <> [] -> acc < fold_left Z.add vs acc).
Proof.
  intros Hpos. revert acc. induction Hpos as [| v vs Hv _ IH]; intros acc; simpl.
  - split; [lia | done].
  - destruct (IH (acc + v)) as [Hle _]. split; [lia | intros _; lia].
Qed.

(** [Arch.add] never fails on its own assertion.  It fails, with a key
    error, exactly when one of the comma-separated names is not a key of
    [FROM_STR]; otherwise the set it returns is not empty and still holds
    every architecture it held before. *)
Theorem Arch_add_outcome (self : Arch.t) (text : string) :
  match Arch.add self text with
  | Ok a =>
      Forall (fun name => is_Some (assoc name Arch.FROM_STR)) (Str.split "," text)
      /\ Arch.truth a = true
      /\ forall v,
           v = Arch.i386 \/ v = Arch.x86_64 \/ v = Arch.arm \/ v = Arch.arm64 ->
           Arch.has self v = true -> Arch.has a v = true
  | Raise e =>
      e = KeyError
      /\ exists name, name ∈ Str.split "," text /\ assoc name Arch.FROM_STR = None
  end.
Proof.
  unfold Arch.add.
  destruct (Arch.from_strs (Str.split "," text)) as [vs | e] eqn:Hvs;
    cbv beta iota delta [mbind result_bind]; [| by apply from_strs_Raise].
  destruct (from_strs_Ok _ _ Hvs) as [Hlen Hpos].
  assert (0 < Arch.sum vs) as Hsum.
  { unfold Arch.sum. apply sum_pos; [exact Hpos |].
    intros ->. pose proof (split_go_length "," text EmptyString) as Hsplit.
    unfold Str.split in Hlen. simpl in Hlen. lia. }
  destruct (Z.eqb_spec (Z.lor (Arch._val self) (Arch.sum vs)) 0) as [Hzero | Hnz];
    cbv beta iota delta [assert negb].
  { apply Z.lor_eq_0_iff in Hzero. lia. }
  split; [by eapply from_strs_known | split].
  - rewrite truth_val. cbn [Arch._val]. by apply negb_true_iff, Z.eqb_neq.
  - intros v Hv. destruct (member_is_bit v Hv) as (k & Hk & ->).
    rewrite !has_testbit by exact Hk. cbn [Arch._val]. rewrite Z.lor_spec. by intros ->.
Qed.

(** [to_str] names the architectures of the set, each once and no other
    name, joined by commas; the order is that of the [TO_STR] dict. *)
Theorem Arch_to_str_names `{rt : Runtime} `{!RuntimeOk rt} (a : Arch.t) :
  exists names, Arch.to_str a = Str.join "," names /\ names ≡ₚ arch_names a.
Proof.
  unfold Arch.to_str. eexists. split; [reflexivity |].
  rewrite (List_filter_Permutation _ _ _ TO_STR_keys_perm).
  unfold arch_names, Arch.has. cbn [List.filter map].
  rewrite !(Z.land_comm _ (Arch._val a)).
  change (Z.land (Arch._val a) 1) with (Z.land (Arch._val a) Arch.i386).
  change (Z.land (Arch._val a) 2) with (Z.land (Arch._val a) Arch.x86_64).
  change (Z.land (Arch._val a) 4) with (Z.land (Arch._val a) Arch.arm).
  change (Z.land (Arch._val a) 8) with (Z.land (Arch._val a) Arch.arm64).
  destruct (Z.land (Arch._val a) Arch.i386 =? 0),
           (Z.land (Arch._val a) Arch.x86_64 =? 0),
           (Z.land (Arch._val a) Arch.arm =? 0),
           (Z.land (Arch._val a) Arch.arm64 =? 0); reflexivity.
Qed.

Lemma Arch_to_str_names_witness :
  exists names,
    @Arch.to_str reverse_order (Arch.mk 13) = Str.join "," names
    /\ names ≡ₚ ["i386"; "arm"; "arm64"].
Proof. exact (@Arch_to_str_names reverse_order reverse_order_ok (Arch.mk 13)). Defined.

(** ** The tokens of a line *)

Lemma all_chars_rev_app (p : ascii -> bool) (s1 s2 : string) :
  Str.all_chars p (String.rev_app s1 s2) = Str.all_chars p s1 && Str.all_chars p s2.
Proof.
  revert s2. induction s1 as [| c s1 IH]; intros s2; simpl; [reflexivity |].
  rewrite IH. simpl. destruct (p c), (Str.all_chars p s1); reflexivity.
Qed.

Lemma all_chars_rev (p : ascii -> bool) (s : string) :
  Str.all_chars p (String.rev s) = Str.all_chars p s.
Proof. unfold String.rev. rewrite all_chars_rev_app. simpl. apply andb_true_r. Qed.

(** The pieces [re.split] returns: runs without separator, and separators. *)
Lemma re_split_pieces (s cur : string) :
  plain_token cur = true ->
  Forall (fun piece =>
            plain_token piece = true
            \/ exists c, SpecEntry.is_sep c = true /\ piece = String c EmptyString)
         (SpecEntry.re_split s cur).
Proof.
  revert cur. induction s as [| c s IH]; intros cur Hcur; simpl.
  - repeat constructor. unfold plain_token. by rewrite all_chars_rev.
  - destruct (SpecEntry.is_sep c) eqn:Hc.
    + constructor; [left; unfold plain_token; by rewrite all_chars_rev |].
      constructor; [right; eauto |]. by apply IH.
    + apply IH. unfold plain_token in *. simpl. by rewrite Hc.
Qed.

Lemma index_take (x : string) (l : list string) (i j : nat) :
  Str.index x l = Some i -> (j <= i)%nat -> x ∉ take j l.
Proof.
  revert i j. induction l as [| y l IH]; intros i j; simpl; [discriminate |].
  destruct (Str.eqb y x) eqn:Hy.
  - intros [= <-] Hj. assert (j = 0%nat) as -> by lia. simpl. apply not_elem_of_nil.
  - destruct (Str.index x l) as [i' |]; [| discriminate]. simpl. intros [= <-] Hj.
    destruct j as [| j]; simpl; [apply not_elem_of_nil |].
    apply not_elem_of_cons. split; [apply Str_eqb_neq in Hy; congruence |].
    apply (IH i'); [reflexivity | lia].
Qed.

Lemma mem_index (x : string) (l : list string) :
  Str.mem x l = true -> exists i, Str.index x l = Some i.
Proof.
  induction l as [| y l IH]; simpl; [discriminate |].
  unfold Str.eqb. rewrite (String.eqb_sym x y).
  destruct (String.eqb y x); simpl; [eauto |].
  intros H. destruct (IH H) as [i ->]. simpl. eauto.
Qed.

Lemma take_elem {A : Type} (x : A) (n : nat) (l : list A) : x ∈ take n l -> x ∈ l.
Proof.
  rewrite elem_of_take. intros (i & Hi & _). by eapply list_elem_of_lookup_2.
Qed.

Lemma mem_false (x : string) (l : list string) : Str.mem x l = false -> x ∉ l.
Proof. intros H Hin. apply Str_mem_In in Hin. congruence. Qed.

(** Cutting the token list at the first comment sign leaves no comment
    sign. *)
Lemma comment_cut (tokens : list string) :
  let idx :=
    Py.sorted Nat.ltb
      (flat_map (fun comment =>
                   if Str.mem comment tokens
                   then match Str.index comment tokens with
                        | Some i => [i]
                        | None => []
                        end
                   else [])
                ["#"; ";"]) in
  let cut := match idx with i :: _ => take i tokens | [] => tokens end in
  ("#" ∉ cut) /\ (";" ∉ cut) /\ (forall token, token ∈ cut -> token ∈ tokens).
Proof.
  cbn [flat_map app].
  destruct (Str.mem "#" tokens) eqn:Hhash, (Str.mem ";" tokens) eqn:Hsemi.
  - destruct (mem_index _ _ Hhash) as [i Hi], (mem_index _ _ Hsemi) as [j Hj].
    rewrite Hi, Hj. cbn [app Py.sorted Py.insert].
    destruct (Nat.ltb_spec j i) as [Hlt | Hge]; cbn [Py.insert].
    + split; [eapply index_take; [exact Hi | lia] |].
      split; [eapply index_take; [exact Hj | lia] |].
      intros token. apply take_elem.
    + split; [eapply index_take; [exact Hi | lia] |].
      split; [eapply index_take; [exact Hj | lia] |].
      intros token. apply take_elem.
  - destruct (mem_index _ _ Hhash) as [i Hi]. rewrite Hi. cbn [app Py.sorted Py.insert].
    split; [eapply index_take; [exact Hi | lia] |].
    split; [intros Hin; apply take_elem in Hin; by apply (mem_false _ _ Hsemi) |].
    intros token. apply take_elem.
  - destruct (mem_index _ _ Hsemi) as [j Hj]. rewrite Hj. cbn [app Py.sorted Py.insert].
    split; [intros Hin; apply take_elem in Hin; by apply (mem_false _ _ Hhash) |].
    split; [eapply index_take; [exact Hj | lia] |].
    intros token. apply take_elem.
  - cbn [app Py.sorted]. split; [by apply mem_false |]. split; [by apply mem_false | auto].
Qed.

Lemma is_sep_cases (c : ascii) :
  SpecEntry.is_sep c = true ->
  Str.isspace_char c = true
  \/ c = "("%char \/ c = ")"%char \/ c = "#"%char \/ c = ";"%char.
Proof.
  unfold SpecEntry.is_sep. rewrite !orb_true_iff, !Ascii.eqb_eq. tauto.
Qed.

Lemma tokenize_not_empty (text : string) :
  Forall (fun token => token <> "") (SpecEntry.tokenize text).
Proof.
  unfold SpecEntry.tokenize.
  set (tokens := List.filter _ _).
  pose proof (comment_cut tokens) as Hcut. cbv zeta in Hcut.
  destruct Hcut as (_ & _ & Hsub).
  apply Forall_forall. intros token Hin.
  apply Hsub in Hin. subst tokens.
  apply list_elem_of_In, filter_In in Hin as [_ Hkeep].
  apply andb_true_iff in Hkeep as [Hnonempty _]. by apply nonempty_neq.
Qed.

(** No token of a line is empty, none is a comment sign, and each is either
    a parenthesis or a run of characters without white space, parenthesis
    or comment sign. *)
Theorem tokenize_tokens (text : string) :
  Forall (fun token =>
            token <> "" /\ token <> "#" /\ token <> ";"
            /\ (token = "(" \/ token = ")" \/ plain_token token = true))
         (SpecEntry.tokenize text).
Proof.
  unfold SpecEntry.tokenize.
  set (tokens := List.filter _ _).
  pose proof (comment_cut tokens) as Hcut. cbv zeta in Hcut.
  destruct Hcut as (Hhash & Hsemi & Hsub).
  apply Forall_forall. intros token Hin.
  assert (token <> "#") as Hne1 by (intros ->; contradiction).
  assert (token <> ";") as Hne2 by (intros ->; contradiction).
  apply Hsub in Hin. subst tokens.
  apply list_elem_of_In, filter_In in Hin as [Hin Hkeep].
  apply andb_true_iff in Hkeep as [Hnonempty Hspace].
  split; [by apply nonempty_neq |]. split; [exact Hne1 |]. split; [exact Hne2 |].
  pose proof (re_split_pieces (Str.strip text) EmptyString eq_refl) as Hpieces.
  rewrite Forall_forall in Hpieces. apply list_elem_of_In in Hin.
  destruct (Hpieces token Hin) as [Hplain | (c & Hc & ->)]; [auto |].
  apply is_sep_cases in Hc as [Hc | [-> | [-> | [-> | ->]]]]; try tauto; try done.
  unfold Str.isspace in Hspace. simpl in Hspace. rewrite Hc in Hspace. discriminate.
Qed.

Lemma lstrip_blanks (blanks s : string) :
  Str.all_chars Str.isspace_char blanks = true ->
  Str.lstrip (blanks +:+ s) = Str.lstrip s.
Proof.
  induction blanks as [| c blanks IH]; simpl; [reflexivity |].
  destruct (Str.isspace_char c); [exact IH | discriminate].
Qed.

Lemma lstrip_all_blanks (blanks : string) :
  Str.all_chars Str.isspace_char blanks = true -> Str.lstrip blanks = "".
Proof.
  induction blanks as [| c blanks IH]; simpl; [reflexivity |].
  destruct (Str.isspace_char c); [exact IH | discriminate].
Qed.

Lemma strip_comment (blanks rest : string) (c : ascii) :
  Str.all_chars Str.isspace_char blanks = true ->
  Str.isspace_char c = false ->
  exists rest', Str.strip (blanks +:+ String c rest) = String c rest'.
Proof.
  intros Hblanks Hc. unfold Str.strip. rewrite lstrip_blanks by exact Hblanks.
  simpl. rewrite Hc. simpl. rewrite Hc.
  destruct (Str.rstrip rest); eauto.
Qed.

Lemma cut_head (sign : string) (tokens : list string) :
  sign = "#" \/ sign = ";" ->
  match
    Py.sorted Nat.ltb
      (flat_map (fun comment =>
                   if Str.mem comment (sign :: tokens)
                   then match Str.index comment (sign :: tokens) with
                        | Some i => [i]
                        | None => []
                        end
                   else [])
                ["#"; ";"])
  with
  | i :: _ => take i (sign :: tokens)
  | [] => sign :: tokens
  end = [].
Proof.
  intros [-> | ->]; cbn [flat_map Str.mem existsb Str.index]; simpl.
  - destruct (existsb (Str.eqb ";") tokens); [| reflexivity].
    destruct (Str.index ";" tokens); reflexivity.
  - destruct (existsb (Str.eqb "#") tokens); [| reflexivity].
    destruct (Str.index "#" tokens); reflexivity.
Qed.

(** A line that is blank, or whose first character that is not blank is a
    comment sign, has no token. *)
Lemma tokenize_no_record (blanks rest : string) (c : ascii) :
  Str.all_chars Str.isspace_char blanks = true ->
  c = "#"%char \/ c = ";"%char ->
  SpecEntry.tokenize blanks = []
  /\ SpecEntry.tokenize (blanks +:+ String c rest) = [].
Proof.
  intros Hblanks Hc. split.
  - unfold SpecEntry.tokenize, Str.strip. by rewrite lstrip_all_blanks.
  - destruct (strip_comment blanks rest c Hblanks) as [rest' Hstrip];
      [by destruct Hc as [-> | ->] |].
    unfold SpecEntry.tokenize. rewrite Hstrip.
    destruct Hc as [-> | ->].
    + exact (cut_head "#" _ (or_introl eq_refl)).
    + exact (cut_head ";" _ (or_intror eq_refl)).
Qed.

Lemma parse_skips_no_tokens (self : SpecFile.t) (pre post : list string) (line : string) :
  SpecEntry.tokenize line = [] ->
  SpecFile.parse self (pre ++ line :: post) = SpecFile.parse self (pre ++ post).
Proof.
  intros Hline. unfold SpecFile.parse. rewrite !parse_lines_app.
  destruct (SpecFile.parse_lines _ pre _ _) as [[entries functions] | e];
    [| reflexivity].
  cbn [mbind result_bind SpecFile.parse_lines].
  unfold SpecEntry.new, SpecEntry.init. rewrite Hline.
  by destruct (Str.nonempty line).
Qed.

(** Blank lines and comment lines are skipped: a line of white space, and a
    line whose first character after white space is [#] or [;], can be
    taken out of a spec file without changing what [parse] returns. *)
Theorem parse_skips_blank_and_comment_lines (self : SpecFile.t)
  (pre post : list string) (blanks rest : string) (c : ascii) :
  Str.all_chars Str.isspace_char blanks = true ->
  c = "#"%char \/ c = ";"%char ->
  SpecFile.parse self (pre ++ blanks :: post) = SpecFile.parse self (pre ++ post)
  /\ SpecFile.parse self (pre ++ (blanks +:+ String c rest) :: post)
     = SpecFile.parse self (pre ++ post).
Proof.
  intros Hblanks Hc. destruct (tokenize_no_record blanks rest c Hblanks Hc) as [H1 H2].
  split; by apply parse_skips_no_tokens.
Qed.

Lemma parse_skips_blank_and_comment_lines_witness :
  SpecFile.parse (SpecFile.new "ntdll") (["@ stdcall Bar()"] ++ "  " :: ["@ stdcall Qux()"])
  = SpecFile.parse (SpecFile.new "ntdll") (["@ stdcall Bar()"] ++ ["@ stdcall Qux()"])
  /\ SpecFile.parse (SpecFile.new "ntdll")
       (["@ stdcall Bar()"] ++ ("  " +:+ String "#" " stdcall Baz()") :: ["@ stdcall Qux()"])
     = SpecFile.parse (SpecFile.new "ntdll") (["@ stdcall Bar()"] ++ ["@ stdcall Qux()"]).
Proof.
  exact (parse_skips_blank_and_comment_lines (SpecFile.new "ntdll")
           ["@ stdcall Bar()"] ["@ stdcall Qux()"] "  " " stdcall Baz()" "#"
           eq_refl (or_introl eq_refl)).
Defined.

(** ** Records built from a line *)

Lemma skip_options_Ok (tokens tokens' : list string) (name name' : string)
  (arch arch' : Arch.t) :
  SpecEntry.skip_options tokens name arch = Ok (name', arch', tokens') ->
  name' ∈ name :: tokens
  /\ Str.startswith_any name' IGNORE_OPTIONS = false
  /\ (forall token, token ∈ tokens' -> token ∈ tokens).
Proof.
  revert name arch. induction tokens as [| t ts IH]; intros name arch;
    cbn [SpecEntry.skip_options]; destruct (Str.startswith_any name IGNORE_OPTIONS) eqn:Hopt.
  - intros H. apply bind_Ok in H as (? & _ & H). discriminate.
  - intros [= <- <- <-]. split; [by left | auto].
  - intros H. apply bind_Ok in H as (a & _ & H).
    destruct (IH _ _ H) as (Hin & Hno & Hsub).
    split; [by right |]. split; [exact Hno |]. intros token Htoken. right. auto.
  - intros [= <- <- <-]. split; [by left | auto].
Qed.

Lemma skip_args_sub (tokens tokens' : list string) :
  SpecEntry.skip_args tokens = Ok tokens' ->
  forall token, token ∈ tokens' -> token ∈ tokens.
Proof.
  revert tokens'. induction tokens as [| t ts IH]; intros tokens'; simpl; [discriminate |].
  destruct (Str.eqb t ")").
  - intros [= <-] token Hin. by right.
  - intros H token Hin. right. eapply IH; eassumption.
Qed.

(** What [init] has read when it returns. *)
Lemma init_Ok (text spec : string) (self : SpecEntry.t) :
  SpecEntry.init text spec = Ok self ->
  exists ord callconv name0 rest,
    SpecEntry.tokenize text = ord :: callconv :: name0 :: rest
    /\ SpecEntry.spec self = spec
    /\ SpecEntry._ord self = ord
    /\ (ord = "@" \/ Str.isdigit ord = true)
    /\ SpecEntry.callconv self = Some callconv
    /\ SpecEntry.name self ∈ name0 :: rest
    /\ Str.startswith_any (SpecEntry.name self) IGNORE_OPTIONS = false
    /\ Str.startswith (SpecEntry.name self) "-" = false
    /\ SpecEntry.noname self = false
    /\ (SpecEntry._forwarder self = None
        \/ exists token fwd,
             token ∈ rest
             /\ SpecEntry.parse_forwarder token = Ok fwd
             /\ SpecEntry._forwarder self = Some fwd).
Proof.
  unfold SpecEntry.init. intros H.
  destruct (SpecEntry.tokenize text) as [| ord [| callconv [| name0 rest]]] eqn:Htok;
    try discriminate H.
  { apply bind_Ok in H as (? & _ & H). discriminate. }
  { apply bind_Ok in H as (? & _ & H). discriminate. }
  apply bind_Ok in H as ([] & Hord & H).
  apply bind_Ok in H as ([[name arch] tokens] & Hskip & H).
  apply bind_Ok in H as ([] & Hdash & H).
  destruct (skip_options_Ok _ _ _ _ _ _ Hskip) as (Hname & Hopt & Hsub).
  assert (ord = "@" \/ Str.isdigit ord = true) as Hord'.
  { destruct (Str.eqb ord "@") eqn:Hat; [left; by apply Str_eqb_eq |].
    right. by destruct (Str.isdigit ord). }
  assert (Str.startswith name "-" = false) as Hdash'
    by (by destruct (Str.startswith name "-")).
  exists ord, callconv, name0, rest. split; [reflexivity |].
  destruct tokens as [| tok0 tokens].
  { injection H as <-. simpl. repeat split; auto. }
  apply bind_Ok in H as (tokens' & Hargs & H).
  assert (forall token, token ∈ tokens' -> token ∈ rest) as Hsub'.
  { intros token Hin. apply Hsub. destruct (Str.eqb tok0 "(").
    - apply bind_Ok in Hargs as (? & _ & Hargs). right.
      eapply skip_args_sub; [exact Hargs | exact Hin].
    - by injection Hargs as <-. }
  destruct tokens' as [| token [| ? ?]]; try discriminate H.
  { injection H as <-. simpl. repeat split; auto. }
  apply bind_Ok in H as (fwd & Hfwd & H). injection H as <-. simpl.
  repeat split; auto. right. exists token, fwd.
  split; [apply Hsub'; by left | by split].
Qed.

Lemma append_cons (c : ascii) (s t : string) : String c s +:+ t = String c (s +:+ t).
Proof. reflexivity. Qed.

Lemma rev_app_append (s t u : string) :
  String.rev_app s t +:+ u = String.rev_app s (t +:+ u).
Proof.
  revert t. induction s as [| c s IH]; intros t; [reflexivity |].
  cbn [String.rev_app]. rewrite IH. by rewrite append_cons.
Qed.

Lemma rev_cons_append (c : ascii) (cur s : string) :
  String.rev (String c cur) +:+ s = String.rev cur +:+ String c s.
Proof. unfold String.rev. cbn [String.rev_app]. by rewrite !rev_app_append. Qed.

Lemma append_empty (s : string) : s +:+ "" = s.
Proof. induction s as [| c s IH]; [reflexivity |]. by rewrite append_cons, IH. Qed.

Lemma splitn_go_plain (m : nat) (a cur : string) :
  no_dot a = true ->
  Str.splitn_go "." (S m) a cur = [String.rev cur +:+ a].
Proof.
  revert cur. induction a as [| c a IH]; intros cur; unfold no_dot; simpl.
  - by rewrite append_empty.
  - destruct (Ascii.eqb c "."); simpl; [discriminate |].
    intros Ha. rewrite (IH _ Ha). by rewrite rev_cons_append.
Qed.

Lemma splitn_go_dot (m : nat) (a b cur : string) :
  no_dot a = true ->
  Str.splitn_go "." (S m) (a +:+ String "." b) cur
  = (String.rev cur +:+ a) :: Str.splitn_go "." m b EmptyString.
Proof.
  revert cur. induction a as [| c a IH]; intros cur; [intros _ | rewrite append_cons];
    unfold no_dot; simpl.
  - by rewrite append_empty.
  - destruct (Ascii.eqb c "."); simpl; [discriminate |].
    intros Ha. rewrite (IH _ Ha). by rewrite rev_cons_append.
Qed.

Lemma alias_not_aliased (module alias : string) :
  assoc module ALIAS_DLL = Some alias -> assoc alias ALIAS_DLL = None.
Proof.
  unfold ALIAS_DLL at 1. cbn [assoc].
  repeat (destruct (Str.eqb _ module); [intros [= <-]; reflexivity |]). discriminate.
Qed.

Lemma parse_forwarder_key (token module symbol : string) :
  SpecEntry.parse_forwarder token = Ok (module, symbol) -> assoc module ALIAS_DLL = None.
Proof.
  unfold SpecEntry.parse_forwarder, Str.splitn.
  destruct (Str.splitn_go "." 2 token EmptyString) as [| p1 [| p2 [| p3 ps]]];
    try discriminate.
  - intros [= <- <-]. reflexivity.
  - destruct (assoc p1 ALIAS_DLL) as [alias |] eqn:Halias; intros [= <- <-];
      [by eapply alias_not_aliased | exact Halias].
Qed.

(** The forward target read from the last token of a line.  A token
    without dot is a symbol of the module [self]; [module.symbol] is that
    pair, with the module replaced by its successor when it is a key of
    [ALIAS_DLL]; a token with more dots is refused.  The module of a target
    that was read is never a key of [ALIAS_DLL]. *)
Theorem parse_forwarder_cases (module symbol rest : string) :
  no_dot module = true ->
  no_dot symbol = true ->
  SpecEntry.parse_forwarder symbol = Ok ("self", symbol)
  /\ SpecEntry.parse_forwarder (module +:+ "." +:+ symbol)
     = Ok (default module (assoc module ALIAS_DLL), symbol)
  /\ SpecEntry.parse_forwarder (module +:+ "." +:+ symbol +:+ "." +:+ rest)
     = Raise AssertionError
  /\ (forall token m s,
        SpecEntry.parse_forwarder token = Ok (m, s) -> assoc m ALIAS_DLL = None).
Proof.
  intros Hm Hs. unfold SpecEntry.parse_forwarder, Str.splitn.
  split; [| split; [| split]].
  - by rewrite splitn_go_plain.
  - change ("." +:+ symbol) with (String "." symbol).
    rewrite splitn_go_dot, splitn_go_plain by assumption.
    change (String.rev "" +:+ module) with module.
    change (String.rev "" +:+ symbol) with symbol.
    by destruct (assoc module ALIAS_DLL).
  - change ("." +:+ symbol +:+ "." +:+ rest) with (String "." (symbol +:+ String "." rest)).
    rewrite !splitn_go_dot by assumption.
    by destruct rest.
  - intros token m s. fold (Str.splitn "." 2 token).
    apply parse_forwarder_key.
Qed.

Lemma parse_forwarder_cases_witness :
  SpecEntry.parse_forwarder "RtlFoo" = Ok ("self", "RtlFoo")
  /\ SpecEntry.parse_forwarder "kernelbase.RtlFoo" = Ok ("kernel32", "RtlFoo")
  /\ SpecEntry.parse_forwarder "kernelbase.RtlFoo.A.B" = Raise AssertionError.
Proof.
  pose proof (parse_forwarder_cases "kernelbase" "RtlFoo" "A.B" eq_refl eq_refl)
    as (H1 & H2 & H3 & _).
  exact (conj H1 (conj H2 H3)).
Defined.

(** Every record [SpecEntry(text, spec)] returns: it refers to [spec]; its
    ordinal is ['@'] or a decimal number; it has a calling convention, which
    is not empty; its architecture set is not empty; a named record has a
    name that is a token of the line, neither ['@'] nor an option; an
    unnamed record is called after the symbol of its forward target, or
    ['@'] without one; and it never forwards to a key of [ALIAS_DLL]. *)
Theorem SpecEntry_new_record (text spec : string) (self : SpecEntry.t) :
  SpecEntry.new text spec = Ok self ->
  SpecEntry.spec self = spec
  /\ (SpecEntry._ord self = "@" \/ Str.isdigit (SpecEntry._ord self) = true)
  /\ (exists callconv, SpecEntry.callconv self = Some callconv /\ callconv <> "")
  /\ Arch.truth (SpecEntry.arch self) = true
  /\ (SpecEntry.noname self = false ->
      SpecEntry.name self ∈ SpecEntry.tokenize text
      /\ SpecEntry.name self <> "@"
      /\ Str.startswith (SpecEntry.name self) "-" = false)
  /\ (SpecEntry.noname self = true ->
      match SpecEntry._forwarder self with
      | Some (_, symbol) => SpecEntry.name self = symbol
      | None => SpecEntry.name self = "@"
      end)
  /\ (forall module symbol,
        SpecEntry._forwarder self = Some (module, symbol) ->
        assoc module ALIAS_DLL = None).
Proof.
  intros Hnew. pose proof (new_arch _ _ _ Hnew) as Harch.
  unfold SpecEntry.new in Hnew. apply bind_Ok in Hnew as (self0 & Hinit & Hnew).
  destruct (init_Ok _ _ _ Hinit)
    as (ord & callconv & name0 & rest & Htok & Hspec & Hord & Hord' & Hcc & Hname
        & _ & Hdash & Hnoname & Hfwd).
  pose proof (tokenize_not_empty text) as Htokens. rewrite Htok in Htokens.
  assert (callconv <> "") as Hccne.
  { apply Forall_cons in Htokens as [_ Htokens].
    apply Forall_cons in Htokens as [Hne _]. exact Hne. }
  assert (forall module symbol,
             SpecEntry._forwarder self0 = Some (module, symbol) ->
             assoc module ALIAS_DLL = None) as Halias.
  { intros module symbol Hsome. destruct Hfwd as [Hnone | (token & fwd & _ & Hparse & Hfwd)];
      [congruence |].
    rewrite Hsome in Hfwd. injection Hfwd as <-.
    eapply parse_forwarder_key, Hparse. }
  assert (Arch.truth (SpecEntry.arch self) = true) as Htruth
    by (rewrite truth_val; by apply negb_true_iff, Z.eqb_neq).
  destruct (Str.eqb (SpecEntry.name self0) "@") eqn:Hat.
  - destruct (SpecEntry._forwarder self0) as [[m s] |] eqn:Hf; injection Hnew as <-;
      simpl in *; (split; [exact Hspec |]); (split; [by rewrite Hord |]);
      (split; [eauto |]); (split; [exact Htruth |]); (split; [discriminate |]);
      (split; [intros _ |]); try reflexivity.
    + intros module symbol [= <- <-]. by eapply Halias.
    + by apply Str_eqb_eq.
    + discriminate.
  - injection Hnew as <-.
    split; [exact Hspec |]. split; [by rewrite Hord |]. split; [eauto |].
    split; [exact Htruth |]. split; [| split; [congruence | exact Halias]].
    intros _. split; [rewrite Htok; do 2 right; exact Hname |].
    split; [by apply Str_eqb_neq | exact Hdash].
Qed.

Lemma SpecEntry_new_record_witness :
  SpecEntry.spec sample_rotl_parsed = "api-ms-win-crt-utility-l1-1-0"
  /\ (SpecEntry._ord sample_rotl_parsed = "@"
      \/ Str.isdigit (SpecEntry._ord sample_rotl_parsed) = true).
Proof.
  pose proof (SpecEntry_new_record "@ cdecl _rotl64(int64 long) ucrtbase._rotl64"
                "api-ms-win-crt-utility-l1-1-0" sample_rotl_parsed eq_refl)
    as (H1 & H2 & _).
  exact (conj H1 H2).
Defined.

(** ** The per-name index of a spec file *)

Lemma records_named_app (name : string) (l1 l2 : list SpecEntry.t) :
  records_named name (l1 ++ l2) = (records_named name l1 ++ records_named name l2)%list.
Proof. apply List.filter_app. Qed.

Lemma index_entry_default (records : list SpecEntry.t) :
  default [] (index_entry records) = records.
Proof. by destruct records. Qed.

(** Appending a record to an index that agrees with a list of records gives
    an index that agrees with the list extended by that record. *)
Lemma append_to_index (entries : list SpecEntry.t) (entry : SpecEntry.t)
  (functions : gmap string (list SpecEntry.t)) (base : string -> list SpecEntry.t) :
  (forall name, functions !! name = index_entry (base name ++ records_named name entries)) ->
  forall name,
    SpecFile.append_to (SpecEntry.name entry) entry functions !! name
    = index_entry (base name ++ records_named name (entries ++ [entry])).
Proof.
  intros Hindex name. unfold SpecFile.append_to. rewrite records_named_app.
  unfold records_named at 2. cbn [List.filter].
  destruct (decide (SpecEntry.name entry = name)) as [<- | Hne].
  - rewrite lookup_insert_eq, Hindex, index_entry_default, Str_eqb_refl.
    rewrite app_assoc. by destruct (base _ ++ records_named _ entries)%list.
  - rewrite lookup_insert_ne by done.
    apply Str_eqb_neq in Hne. rewrite Hne, app_nil_r. apply Hindex.
Qed.

Lemma parse_lines_index (spec : string) (lines : list string)
  (entries entries' : list SpecEntry.t) (functions functions' : gmap string (list SpecEntry.t)) :
  SpecFile.parse_lines spec lines entries functions = Ok (entries', functions') ->
  (forall name, functions !! name = index_entry (records_named name entries)) ->
  forall name, functions' !! name = index_entry (records_named name entries').
Proof.
  revert entries functions. induction lines as [| line lines IH];
    intros entries functions; simpl.
  - by intros [= <- <-].
  - destruct (Str.nonempty line); [| apply IH].
    destruct (SpecEntry.new line spec) as [entry | []] eqn:Hnew; try discriminate.
    + intros Hrest Hindex. eapply IH; [exact Hrest |].
      apply (append_to_index entries entry functions (fun _ => [])). exact Hindex.
    + apply IH.
Qed.

Lemma sum_forwarders (entries : list SpecEntry.t) (acc : Z) :
  fold_left Z.add (map SpecEntry.forwarder entries) acc
  = acc + Z.of_nat (length (List.filter has_forwarder entries)).
Proof.
  revert acc. induction entries as [| entry entries IH]; intros acc; simpl; [lia |].
  rewrite IH. unfold SpecEntry.forwarder, has_forwarder.
  destruct (SpecEntry._forwarder entry); simpl; lia.
Qed.

Lemma parse_lines_length (spec : string) (lines : list string)
  (entries entries' : list SpecEntry.t) (functions functions' : gmap string (list SpecEntry.t)) :
  SpecFile.parse_lines spec lines entries functions = Ok (entries', functions') ->
  (length entries <= length entries' <= length entries + length lines)%nat.
Proof.
  revert entries functions. induction lines as [| line lines IH];
    intros entries functions; simpl.
  - intros [= <- _]. lia.
  - destruct (Str.nonempty line); [| intros H; apply IH in H; lia].
    destruct (SpecEntry.new line spec) as [entry | []] eqn:Hnew; try discriminate;
      intros H; apply IH in H; try rewrite length_app in H; simpl in H; lia.
Qed.

(** [parse] on a new [SpecFile]: the index [find] reads agrees with the list
    of records, that is, [find(name)] is the list of the records of that
    name in file order, and [None] when there is none; every record refers
    to the file; the pair returned counts the records that came with a
    forward target and all records, of which there are no more than lines. *)
Theorem parse_index_and_counts (name : string) (lines : list string)
  (self : SpecFile.t) (totals : Z * Z) :
  SpecFile.parse (SpecFile.new name) lines = Ok (self, totals) ->
  SpecFile.name self = name
  /\ (forall symbol,
        SpecFile.find self symbol = index_entry (records_named symbol (SpecFile._entries self)))
  /\ Forall (fun entry => SpecEntry.spec entry = name) (SpecFile._entries self)
  /\ totals = (Z.of_nat (length (List.filter has_forwarder (SpecFile._entries self))),
               Z.of_nat (length (SpecFile._entries self)))
  /\ (length (SpecFile._entries self) <= length lines)%nat.
Proof.
  unfold SpecFile.parse. intros H.
  apply bind_Ok in H as ([entries functions] & Hlines & H). injection H as <- <-.
  cbn [SpecFile.name SpecFile._entries SpecFile.new] in *.
  split; [reflexivity |]. split; [| split; [| split]].
  - intros symbol. unfold SpecFile.find. cbn [SpecFile._functions].
    eapply parse_lines_index; [exact Hlines |]. intros n. apply lookup_empty.
  - eapply parse_lines_spec; [exact Hlines | constructor].
  - unfold SpecFile.sum. by rewrite sum_forwarders.
  - apply parse_lines_length in Hlines. simpl in Hlines. lia.
Qed.

Lemma parse_index_and_counts_witness :
  SpecFile.name sample_core = "api-ms-win-core-sample-l1-1-0"
  /\ forall symbol,
       SpecFile.find sample_core symbol
       = index_entry (records_named symbol (SpecFile._entries sample_core)).
Proof.
  destruct (SpecFile.parse (SpecFile.new "api-ms-win-core-sample-l1-1-0") sample_core_lines)
    as [[self totals] | e] eqn:Hparse; [| vm_compute in Hparse; discriminate].
  pose proof (parse_index_and_counts _ _ _ _ Hparse) as (H1 & H2 & _).
  unfold sample_core, parsed. rewrite Hparse. exact (conj H1 H2).
Defined.

Lemma add_functions_index (self : SpecFile.t)
  (function_lookup : gmap string (list SpecEntry.t)) (name : string) :
  (forall symbol, function_lookup !! symbol <> Some []) ->
  SpecFile.add_functions self function_lookup !! name
  = index_entry (default [] (function_lookup !! name)
                 ++ records_named name (SpecFile._entries self)).
Proof.
  intros Hne. unfold SpecFile.add_functions.
  assert (forall entries symbol,
             fold_left (fun lookup entry =>
                          SpecFile.append_to (SpecEntry.name entry) entry lookup)
                       entries function_lookup !! symbol
             = index_entry (default [] (function_lookup !! symbol)
                            ++ records_named symbol entries)) as Hfold; [| apply Hfold].
  induction entries as [| entry entries IH] using rev_ind; intros symbol.
  - simpl. rewrite app_nil_r. specialize (Hne symbol).
    by destruct (function_lookup !! symbol) as [[| ? ?] |].
  - rewrite fold_left_app. simpl.
    apply (append_to_index entries entry _ (fun n => default [] (function_lookup !! n))).
    exact IH.
Qed.

(** [add_functions] appends, under each name, the records of the file that
    have that name to what the registry held, in file order; for a file
    whose index agrees with its records these are the records [find]
    returns. *)
Theorem add_functions_lookup (self : SpecFile.t)
  (function_lookup : gmap string (list SpecEntry.t)) (name : string) :
  (forall symbol, function_lookup !! symbol <> Some []) ->
  SpecFile.add_functions self function_lookup !! name
  = index_entry (default [] (function_lookup !! name)
                 ++ records_named name (SpecFile._entries self))
  /\ (SpecFile.find self name = index_entry (records_named name (SpecFile._entries self)) ->
      default [] (SpecFile.add_functions self function_lookup !! name)
      = (default [] (function_lookup !! name) ++ default [] (SpecFile.find self name))%list).
Proof.
  intros Hne. split; [by apply add_functions_index |].
  intros Hfind. rewrite add_functions_index by exact Hne.
  by rewrite Hfind, !index_entry_default.
Qed.

Lemma add_functions_lookup_witness :
  SpecFile.add_functions sample_core ∅ !! "Foo"
  = index_entry (default [] ((∅ : gmap string (list SpecEntry.t)) !! "Foo")
                 ++ records_named "Foo" (SpecFile._entries sample_core)).
Proof.
  refine (proj1 (add_functions_lookup sample_core ∅ "Foo" _)).
  intros symbol. rewrite lookup_empty. discriminate.
Defined.

(** ** The architectures and the convention of a name *)

Lemma has_add (a b : Arch.t) (v : Z) :
  Arch.has (Arch.__add__ a b) v = Arch.has a v || Arch.has b v.
Proof.
  unfold Arch.has, Arch.__add__. cbn [Arch._val]. rewrite Z.land_lor_distr_l.
  destruct (Z.eqb_spec (Z.land (Arch._val a) v) 0) as [Ha | Ha],
           (Z.eqb_spec (Z.land (Arch._val b) v) 0) as [Hb | Hb],
           (Z.eqb_spec (Z.lor (Z.land (Arch._val a) v) (Z.land (Arch._val b) v)) 0)
             as [Hab | Hab];
    try reflexivity; exfalso; rewrite Z.lor_eq_0_iff in Hab; tauto.
Qed.

Lemma fold_add_has (functions : list SpecEntry.t) (arch : Arch.t) (v : Z) :
  Arch.has (fold_left (fun arch func => Arch.__add__ arch (SpecEntry.arch func))
                      functions arch) v
  = Arch.has arch v || existsb (fun func => Arch.has (SpecEntry.arch func) v) functions.
Proof.
  revert arch. induction functions as [| func functions IH]; intros arch; simpl.
  - by rewrite orb_false_r.
  - by rewrite IH, has_add, orb_assoc.
Qed.

(** [find_arch(name)] is the union of the architecture sets of the records
    of that name: it holds an architecture exactly when one of them does.
    For a name the file does not have it is the empty set, which counts as
    false. *)
Theorem find_arch_union (self : SpecFile.t) (name : string) :
  (forall v,
     Arch.has (SpecFile.find_arch self name) v
     = existsb (fun func => Arch.has (SpecEntry.arch func) v)
               (default [] (SpecFile.find self name)))
  /\ (SpecFile.find self name = None ->
      SpecFile.find_arch self name = Arch.empty
      /\ Arch.truth (SpecFile.find_arch self name) = false).
Proof.
  unfold SpecFile.find_arch. split.
  - intros v. destruct (SpecFile.find self name) as [functions |]; simpl.
    + by rewrite fold_add_has.
    + reflexivity.
  - by intros ->.
Qed.

(** [find_callconv(name)]: [None] for a name the file does not have.  When
    the records of the name all have a convention, the call fails exactly
    when a record with [extern] is followed by a record with another
    convention; otherwise it returns the convention of the last record. *)
Theorem find_callconv_outcome (self : SpecFile.t) (name : string) :
  (SpecFile.find self name = None -> SpecFile.find_callconv self name = Ok None)
  /\ (forall functions c cs,
        SpecFile.find self name = Some functions ->
        map SpecEntry.callconv functions = map Some (c :: cs) ->
        Forall (fun c' => c' <> "") (c :: cs) ->
        SpecFile.find_callconv self name
        = if extern_then_other c cs then Raise AssertionError
          else Ok (Some (List.last cs c))).
Proof.
  unfold SpecFile.find_callconv. split; [by intros -> |].
  intros functions c cs -> Hcs Hne.
  destruct functions as [| func functions]; [discriminate Hcs |].
  injection Hcs as Hfunc Hcs. cbn [SpecFile.find_callconv_loop SpecFile.truthy negb].
  rewrite Hfunc. apply find_callconv_loop_spec; [exact Hcs |].
  eapply Forall_impl; [exact Hne |]. intros c'. apply nonempty_neq.
Qed.

(** ** Lines and size estimate of a record *)

(** A record that is written gives one line, or two for a data record that
    holds x86_64; a stub line counts 0x1000 in the size estimate and a
    forward line 0x100. *)
Theorem SpecEntry_write_estimate `{rt : Runtime} (self : SpecEntry.t)
  (lines : list string) (size : Z) :
  SpecEntry.write self = Ok (lines, size) ->
  length lines
  = (if has_forwarder self && is_extern self
        && Arch.has (SpecEntry.arch self) Arch.x86_64
     then 2 else 1)%nat
  /\ size = (if has_forwarder self then 0x100 else 0x1000) * Z.of_nat (length lines).
Proof.
  intros Hw. unfold has_forwarder.
  destruct (ordinal_ok self) eqn:Hord;
    [| rewrite write_ordinal_fails in Hw by done; discriminate].
  destruct (SpecEntry._forwarder self) as [[module symbol] |] eqn:Hfwd;
    [| rewrite write_stub in Hw by done; by injection Hw as <- <-].
  destruct (Arch.__ne__ (SpecEntry.arch self) Arch.empty) eqn:Harch;
    [| erewrite write_empty_arch in Hw by done; discriminate].
  destruct (is_extern self) eqn:Hext;
    [| rewrite (write_function self module symbol) in Hw by done;
       by injection Hw as <- <-].
  destruct (Arch.has (SpecEntry.arch self) Arch.x86_64) eqn:Hhas;
    [| rewrite (write_extern_other self module symbol) in Hw by done;
       by injection Hw as <- <-].
  rewrite (write_extern_x86_64 self module symbol Hfwd Hord Hext Hhas) in Hw.
  set (rest := Arch.__sub__ _ _) in Hw.
  destruct (Arch.__ne__ rest Arch.empty) eqn:Hrest;
    [| erewrite (write_empty_arch (SpecEntry.set_arch self rest)) in Hw by done;
       discriminate].
  erewrite (write_extern_other (SpecEntry.set_arch self rest)) in Hw;
    [| exact Hfwd | exact Hord | exact Hrest | exact Hext | apply has_sub_same].
  simpl in Hw. by injection Hw as <- <-.
Qed.

Lemma SpecEntry_write_estimate_witness :
  length ["@ extern -arch=i386 SomeVar msvcrt._imp__SomeVar" +:+ SpecEntry.nl;
          "@ extern -arch=x86_64 SomeVar msvcrt.__imp_SomeVar" +:+ SpecEntry.nl] = 2%nat
  /\ 0x200 = 0x100 * 2.
Proof.
  exact (@SpecEntry_write_estimate insertion_order sample_var _ _ eq_refl).
Defined.

(** A resolved data record whose only architecture is x86_64 cannot be
    written: the method first writes the record without x86_64, and that
    call fails on the assertion that a resolved record has an architecture.
    Writing a spec file that reaches such a record fails too. *)
Theorem SpecEntry_write_extern_x86_64_only `{rt : Runtime} (self : SpecEntry.t)
  (module symbol : string) :
  SpecEntry._forwarder self = Some (module, symbol) ->
  SpecEntry.callconv self = Some "extern" ->
  SpecEntry.arch self = Arch.mk Arch.x86_64 ->
  SpecEntry.write self = Raise AssertionError
  /\ (forall file pre post,
        SpecFile._entries file = (pre ++ self :: post)%list ->
        SpecEntry.name self ∉ FUNCTION_BLACKLIST ->
        Forall (fun other => SpecEntry.name other <> SpecEntry.name self) pre ->
        exists e, SpecFile.write file = Raise e).
Proof.
  intros Hfwd Hcc Harch.
  assert (SpecEntry.write self = Raise AssertionError) as Hraise.
  { destruct (ordinal_ok self) eqn:Hord; [| by apply write_ordinal_fails].
    rewrite (write_extern_x86_64 self module symbol Hfwd Hord);
      [| unfold is_extern; by rewrite Hcc | by rewrite Harch].
    erewrite (write_empty_arch (SpecEntry.set_arch self _)); [reflexivity | exact Hfwd |].
    simpl. by rewrite Harch. }
  split; [exact Hraise |].
  intros file pre post Hentries Hblack Hpre. unfold SpecFile.write. rewrite Hentries.
  assert (forall written size,
             SpecEntry.name self ∉ written ->
             exists e, SpecFile.write_entries (pre ++ self :: post) written size = Raise e)
    as Hloop.
  { clear Hentries. induction Hpre as [| x pre Hx _ IH]; intros written size Hnot; simpl.
    - rewrite bool_decide_eq_true_2 by exact Hnot. rewrite Hraise. eauto.
    - destruct (bool_decide (SpecEntry.name x ∉ written)); [| by apply IH].
      destruct (SpecEntry.write x) as [[ls n] | e]; simpl; [| eauto].
      destruct (IH ({[SpecEntry.name x]} ∪ written) (size + n)) as [e ->];
        [| eauto].
      rewrite elem_of_union, elem_of_singleton. intros [Heq | Hin]; [congruence | done]. }
  destruct (Hloop (list_to_set FUNCTION_BLACKLIST) 0) as [e ->];
    [by rewrite elem_of_list_to_set | eauto].
Qed.

Lemma SpecEntry_write_extern_x86_64_only_witness :
  @SpecEntry.write insertion_order
    (SpecEntry.mk "api-ms-win-crt-stdio-l1-1-0" "@" (Some "extern") "_iob"
                  (Arch.mk Arch.x86_64) (Some ("msvcrt", "_iob")) false)
  = Raise AssertionError.
Proof.
  exact (proj1 (@SpecEntry_write_extern_x86_64_only insertion_order
                  (SpecEntry.mk "api-ms-win-crt-stdio-l1-1-0" "@" (Some "extern") "_iob"
                                (Arch.mk Arch.x86_64) (Some ("msvcrt", "_iob")) false)
                  "msvcrt" "_iob" eq_refl eq_refl eq_refl)).
Defined.

Lemma SpecEntry_write_estimate_bounds `{rt : Runtime} (self : SpecEntry.t)
  (lines : list string) (size : Z) :
  SpecEntry.write self = Ok (lines, size) ->
  0x100 * Z.of_nat (length lines) <= size <= 0x1000 * Z.of_nat (length lines).
Proof.
  intros Hw. destruct (ordinal_ok self) eqn:Hord;
    [| rewrite write_ordinal_fails in Hw by done; discriminate].
  destruct (SpecEntry._forwarder self) as [[module symbol] |] eqn:Hfwd;
    [| rewrite write_stub in Hw by done; injection Hw as <- <-; simpl; lia].
  destruct (Arch.__ne__ (SpecEntry.arch self) Arch.empty) eqn:Harch;
    [| erewrite write_empty_arch in Hw by done; discriminate].
  destruct (is_extern self) eqn:Hext;
    [| rewrite (write_function self module symbol) in Hw by done;
       injection Hw as <- <-; simpl; lia].
  destruct (Arch.has (SpecEntry.arch self) Arch.x86_64) eqn:Hhas;
    [| rewrite (write_extern_other self module symbol) in Hw by done;
       injection Hw as <- <-; simpl; lia].
  rewrite (write_extern_x86_64 self module symbol Hfwd Hord Hext Hhas) in Hw.
  set (rest := Arch.__sub__ _ _) in Hw.
  destruct (Arch.__ne__ rest Arch.empty) eqn:Hrest;
    [| erewrite (write_empty_arch (SpecEntry.set_arch self rest)) in Hw by done;
       discriminate].
  erewrite (write_extern_other (SpecEntry.set_arch self rest)) in Hw;
    [| exact Hfwd | exact Hord | exact Hrest | exact Hext | apply has_sub_same].
  simpl in Hw. injection Hw as <- <-. simpl. lia.
Qed.

(** ** Lines and size estimate of a spec file *)

(** A record whose name an earlier record of the file has, or the
    blacklist, does not take part in the loop of [write]. *)
Lemma write_entries_duplicate `{rt : Runtime} (pre post : list SpecEntry.t)
  (entry : SpecEntry.t) (written : gset string) (size : Z) :
  SpecEntry.name entry ∈ written
  \/ Exists (fun earlier => SpecEntry.name earlier = SpecEntry.name entry) pre ->
  SpecFile.write_entries (pre ++ entry :: post) written size =
  SpecFile.write_entries (pre ++ post) written size.
Proof.
  revert written size. induction pre as [| x pre IH]; intros written size Hdup; simpl.
  - destruct Hdup as [Hin | Hex]; [| by apply Exists_nil in Hex].
    rewrite bool_decide_eq_false_2; [reflexivity | by intros []].
  - assert (SpecEntry.name x ∈ written ->
            SpecEntry.name entry ∈ written
            \/ Exists (fun earlier => SpecEntry.name earlier = SpecEntry.name entry) pre)
      as Hskip.
    { intros Hx. destruct Hdup as [Hin | Hex]; [by left |].
      apply Exists_cons in Hex as [Heq | Hex]; [left; by rewrite <- Heq | by right]. }
    destruct (decide (SpecEntry.name x ∈ written)) as [Hx | Hx].
    + rewrite bool_decide_eq_false_2 by (by intros []). apply IH, Hskip, Hx.
    + rewrite bool_decide_eq_true_2 by exact Hx.
      destruct (SpecEntry.write x) as [[lines n] | e]; [| reflexivity]. simpl.
      rewrite IH; [reflexivity |].
      destruct Hdup as [Hin | Hex];
        [left; apply elem_of_union; by right |].
      apply Exists_cons in Hex as [Heq | Hex]; [| by right].
      left. apply elem_of_union. left. by apply elem_of_singleton.
Qed.

(** Each name is written once: a record whose name an earlier record of the
    file has is left out, whatever the two records hold.  Writing the file
    gives the lines and the estimate of the file without the later one. *)
Theorem SpecFile_write_first_wins `{rt : Runtime} (self : SpecFile.t)
  (pre post : list SpecEntry.t) (entry : SpecEntry.t) :
  SpecFile._entries self = (pre ++ entry :: post)%list ->
  Exists (fun earlier => SpecEntry.name earlier = SpecEntry.name entry) pre ->
  SpecFile.write self =
    ('(spec, lines) ← SpecFile.write (Resolver.with_entries self (pre ++ post)%list);
     Ok (Resolver.with_entries spec (SpecFile._entries self), lines)).
Proof.
  intros Hentries Hex. unfold SpecFile.write.
  rewrite Hentries, write_entries_duplicate by (by right). simpl.
  destruct (SpecFile.write_entries _ _ _) as [[lines n] | e]; reflexivity.
Qed.

Lemma SpecFile_write_first_wins_witness :
  @SpecFile.write insertion_order
    (SpecFile.mk "api-ms-win-core-sample-l1-1-0" [sample_bar; sample_qux; sample_bar_parsed] ∅ 0)
  = ('(spec, lines) ←
       @SpecFile.write insertion_order
         (SpecFile.mk "api-ms-win-core-sample-l1-1-0" [sample_bar; sample_qux] ∅ 0);
     Ok (Resolver.with_entries spec [sample_bar; sample_qux; sample_bar_parsed], lines)).
Proof.
  refine (@SpecFile_write_first_wins insertion_order
            (SpecFile.mk "api-ms-win-core-sample-l1-1-0"
                         [sample_bar; sample_qux; sample_bar_parsed] ∅ 0)
            [sample_bar; sample_qux] [] sample_bar_parsed eq_refl _).
  left. reflexivity.
Defined.

Lemma write_entries_estimate `{rt : Runtime} (entries : list SpecEntry.t)
  (written : gset string) (size total : Z) (lines : list string) :
  SpecFile.write_entries entries written size = Ok (lines, total) ->
  size + 0x100 * Z.of_nat (length lines) <= total <= size + 0x1000 * Z.of_nat (length lines).
Proof.
  revert written size total lines.
  induction entries as [| x entries IH]; intros written size total lines; simpl.
  - intros [= <- <-]. simpl. lia.
  - destruct (bool_decide _); [| apply IH].
    destruct (SpecEntry.write x) as [[ls n] | e] eqn:Hx; [| discriminate]. simpl.
    destruct (SpecFile.write_entries entries _ _) as [[ls' t] | e] eqn:Hrest;
      [| discriminate]. simpl.
    intros [= <- <-]. apply IH in Hrest.
    apply SpecEntry_write_estimate_bounds in Hx. rewrite length_app. lia.
Qed.

(** [write] changes nothing of the file but its size estimate, which lies
    between 0x100 and 0x1000 for each line written: it is 0 exactly when no
    line is written. *)
Theorem SpecFile_write_estimate `{rt : Runtime} (self spec : SpecFile.t)
  (lines : list string) :
  SpecFile.write self = Ok (spec, lines) ->
  SpecFile.name spec = SpecFile.name self
  /\ SpecFile._entries spec = SpecFile._entries self
  /\ SpecFile._functions spec = SpecFile._functions self
  /\ 0x100 * Z.of_nat (length lines) <= SpecFile._estimate_size spec
     <= 0x1000 * Z.of_nat (length lines)
  /\ (SpecFile._estimate_size spec = 0 <-> lines = []).
Proof.
  unfold SpecFile.write. intros H.
  apply bind_Ok in H as ([ls n] & Hw & H). injection H as <- <-. simpl.
  apply write_entries_estimate in Hw.
  repeat split; try lia.
  - intros ->. destruct ls; [reflexivity | simpl in Hw; lia].
  - intros ->. simpl in Hw. lia.
Qed.

Lemma SpecFile_write_estimate_witness :
  0x100 * Z.of_nat (length (@nil string)) <= 0 <= 0x1000 * Z.of_nat (length (@nil string)).
Proof.
  exact (proj1 (proj2 (proj2 (proj2
           (@SpecFile_write_estimate insertion_order
              (SpecFile.mk "api-ms-win-crt-utility-l1-1-0" [sample_rotl] ∅ 0)
              (SpecFile.mk "api-ms-win-crt-utility-l1-1-0" [sample_rotl] ∅ 0) []
              eq_refl))))).
Defined.

(** ** What the two passes keep and what they count *)

Lemma entry_resolve_forwarders_Ok (self self' : SpecEntry.t)
  (module_lookup : gmap string SpecFile.t) (try_modules : list string) (n : Z) :
  Resolver.entry_resolve_forwarders self module_lookup try_modules = Ok (self', n) ->
  same_identity self self'
  /\ n = (if has_forwarder self' && negb (unsearchable self') then 1 else 0)
  /\ match SpecEntry._forwarder self' with
     | Some (_, symbol) =>
         symbol = SpecEntry.name self'
         /\ (Arch.truth (SpecEntry.arch self) = true -> Arch.truth (SpecEntry.arch self') = true)
     | None => True
     end.
Proof.
  unfold Resolver.entry_resolve_forwarders, unsearchable, has_forwarder. intros H.
  apply bind_Ok in H as ([] & Hassert & H).
  destruct (SpecEntry.noname self && Str.eqb (SpecEntry.name self) "@") eqn:Hun.
  - injection H as <- <-. split; [done |]. rewrite Hun.
    split; [by destruct (SpecEntry._forwarder self) |].
    destruct (SpecEntry._forwarder self) as [[m s] |]; [| done].
    split; [| done]. unfold assert in Hassert.
    destruct (Str.eqb s (SpecEntry.name self)) eqn:Heq; [by apply Str_eqb_eq | discriminate].
  - apply try_modules_loop_Ok in H as [(-> & -> & _) | (-> & Hfound)].
    + simpl. done.
    + destruct Hfound as (k & c & m & cc & _ & _ & Ht & _ & -> & _). simpl in *.
      rewrite Hun. done.
Qed.

Lemma entry_extra_forwarders_Ok `{rt : Runtime} (self self' : SpecEntry.t)
  (function_lookup : gmap string (list SpecEntry.t))
  (module_lookup : gmap string SpecFile.t) (n : Z) :
  Resolver.entry_extra_forwarders self function_lookup module_lookup = Ok (self', n) ->
  same_identity self self'
  /\ n = (if has_forwarder self' then 1 else 0)
  /\ (has_forwarder self = true -> self' = self)
  /\ match SpecEntry._forwarder self, SpecEntry._forwarder self' with
     | None, Some (_, symbol) => symbol = SpecEntry.name self'
     | _, _ => True
     end.
Proof.
  unfold Resolver.entry_extra_forwarders, has_forwarder. intros H.
  destruct (SpecEntry._forwarder self) as [fwd |] eqn:Hfwd.
  { injection H as <- <-. rewrite Hfwd. done. }
  destruct (SpecEntry.noname self && Str.eqb (SpecEntry.name self) "@").
  { injection H as <- <-. rewrite Hfwd. done. }
  destruct (function_lookup !! SpecEntry.name self) as [[| func lst] |].
  1, 3: injection H as <- <-; rewrite Hfwd; done.
  apply bind_Ok in H as (modules & _ & H).
  destruct modules as [| [winner |] ?]; try discriminate H.
  destruct (module_lookup !! winner) as [m |]; [| discriminate H].
  apply bind_Ok in H as (cc & _ & H). injection H as <- <-. simpl. done.
Qed.

Lemma for_entries_total (f : SpecEntry.t -> result (SpecEntry.t * Z))
  (count : SpecEntry.t -> bool) (entries entries' : list SpecEntry.t) (total total' : Z) :
  (forall entry entry' n, f entry = Ok (entry', n) -> n = if count entry' then 1 else 0) ->
  Resolver.for_entries f entries total = Ok (entries', total') ->
  total' = total + Z.of_nat (length (List.filter count entries')).
Proof.
  intros Hcount. revert entries' total total'.
  induction entries as [| entry entries IH]; intros entries' total total'; simpl.
  - intros [= <- <-]. simpl. lia.
  - destruct (f entry) as [[entry' n] | e] eqn:Hf; [| discriminate]. simpl.
    destruct (Resolver.for_entries f entries (total + n)) as [[rest t] | e] eqn:Hrest;
      [| discriminate]. simpl.
    intros [= <- <-]. rewrite (IH _ _ _ Hrest), (Hcount _ _ _ Hf). simpl.
    destruct (count entry'); simpl; lia.
Qed.

(** ** The index after a pass *)

Lemma overwritten_related (R : SpecEntry.t -> SpecEntry.t -> Prop)
  (old new : list SpecEntry.t) (func : SpecEntry.t) :
  Forall2 R old new -> func ∈ old -> R func (Resolver.overwritten old new func).
Proof.
  induction 1 as [| entry entry' old new Hentry _ IH]; intros Hin.
  - by apply elem_of_nil in Hin.
  - simpl. destruct (decide (func = entry)) as [-> | Hne]; [exact Hentry |].
    apply IH. by apply elem_of_cons in Hin as [? | ?].
Qed.

Lemma related_map (R : SpecEntry.t -> SpecEntry.t -> Prop)
  (f : SpecEntry.t -> SpecEntry.t) (l l' : list SpecEntry.t) :
  (forall entry a b, R entry a -> R entry b -> a = b) ->
  (forall entry, entry ∈ l -> R entry (f entry)) ->
  Forall2 R l l' -> map f l = l'.
Proof.
  intros Hfun Hf Hall. induction Hall as [| entry entry' l l' Hentry _ IH]; simpl;
    [reflexivity |].
  f_equal.
  - eapply Hfun; [| exact Hentry]. apply Hf. by left.
  - apply IH. intros other Hin. apply Hf. by right.
Qed.

Lemma records_named_map (f : SpecEntry.t -> SpecEntry.t) (name : string)
  (l : list SpecEntry.t) :
  (forall entry, entry ∈ l -> SpecEntry.name (f entry) = SpecEntry.name entry) ->
  records_named name (map f l) = map f (records_named name l).
Proof.
  unfold records_named. induction l as [| entry l IH]; intros Hname; simpl;
    [reflexivity |].
  rewrite (Hname entry) by by left.
  rewrite IH by (intros other Hin; apply Hname; by right).
  by destruct (Str.eqb (SpecEntry.name entry) name).
Qed.

(** An index that lists the records of the file under their names still
    does so after a loop that overwrites each record without changing its
    name. *)
Lemma in_place_index (R : SpecEntry.t -> SpecEntry.t -> Prop)
  (self : SpecFile.t) (entries' : list SpecEntry.t) :
  (forall entry a b, R entry a -> R entry b -> a = b) ->
  (forall entry entry', R entry entry' -> SpecEntry.name entry' = SpecEntry.name entry) ->
  Forall2 R (SpecFile._entries self) entries' ->
  (forall symbol,
     SpecFile.find self symbol
     = index_entry (records_named symbol (SpecFile._entries self))) ->
  forall symbol,
    SpecFile.find (Resolver.in_place self entries') symbol
    = index_entry (records_named symbol entries').
Proof.
  intros Hfun Hname Hall Hindex symbol.
  pose proof (fun func => overwritten_related R _ _ func Hall) as Hover.
  unfold SpecFile.find, Resolver.in_place in *. simpl.
  rewrite lookup_fmap, Hindex.
  rewrite <- (related_map R _ _ _ Hfun Hover Hall) at 2.
  rewrite records_named_map by (intros entry Hin; by eapply Hname, Hover).
  by destruct (records_named symbol (SpecFile._entries self)).
Qed.

(** Pass 1 over an api-set keeps the name of the file, the number and the
    order of its records, and of each record the file it refers to, the
    ordinal, the name and the unnamed flag.  The records are overwritten in
    place, so the index of the file follows them: when [find] listed the
    records of each name before the pass, it lists them, as the pass left
    them, afterwards.  Afterwards the symbol of every forward target is
    the name of its record, and a record with a forward target has an
    architecture if it had one before.  The first number returned counts
    the records that hold a forward target and could be searched for, the
    second all records. *)
Theorem pass1_keeps_and_counts `{rt : Runtime} (apiset apiset' : SpecFile.t)
  (module_lookup : gmap string SpecFile.t) (totals : Z * Z) :
  Resolver.resolve_forwarders apiset module_lookup = Ok (apiset', totals) ->
  SpecFile.name apiset' = SpecFile.name apiset
  /\ ((forall symbol,
         SpecFile.find apiset symbol
         = index_entry (records_named symbol (SpecFile._entries apiset))) ->
      forall symbol,
        SpecFile.find apiset' symbol
        = index_entry (records_named symbol (SpecFile._entries apiset')))
  /\ Forall2 same_identity (SpecFile._entries apiset) (SpecFile._entries apiset')
  /\ Forall2 (fun entry entry' =>
                match SpecEntry._forwarder entry' with
                | Some (_, symbol) =>
                    symbol = SpecEntry.name entry'
                    /\ (Arch.truth (SpecEntry.arch entry) = true ->
                        Arch.truth (SpecEntry.arch entry') = true)
                | None => True
                end)
             (SpecFile._entries apiset) (SpecFile._entries apiset')
  /\ totals
     = (Z.of_nat (length (List.filter
                            (fun entry' => has_forwarder entry' && negb (unsearchable entry'))
                            (SpecFile._entries apiset'))),
        Z.of_nat (length (SpecFile._entries apiset'))).
Proof.
  unfold Resolver.resolve_forwarders. intros H.
  apply bind_Ok in H as ([entries' total] & Hloop & H). injection H as <- <-. simpl.
  pose proof (for_entries_Forall2 _ _ _ _ _ Hloop) as Hall.
  split; [reflexivity |]. split; [| split; [| split]].
  - refine (in_place_index _ apiset entries' _ _ Hall).
    + intros entry a b [n Ha] [n' Hb]. congruence.
    + intros entry entry' [n Hn].
      by apply entry_resolve_forwarders_Ok in Hn as ((_ & _ & ? & _) & _).
  - eapply Forall2_impl; [exact Hall |]. intros entry entry' [n Hn].
    by apply entry_resolve_forwarders_Ok in Hn as (? & _).
  - eapply Forall2_impl; [exact Hall |]. intros entry entry' [n Hn].
    by apply entry_resolve_forwarders_Ok in Hn as (_ & _ & ?).
  - f_equal; [| f_equal; by eapply Forall2_length].
    rewrite (for_entries_total _
               (fun entry' => has_forwarder entry' && negb (unsearchable entry'))
               _ _ _ _ ltac:(intros entry entry' n Hn;
                             by apply entry_resolve_forwarders_Ok in Hn as (_ & ? & _))
               Hloop).
    lia.
Qed.

Lemma pass1_keeps_and_counts_witness :
  exists apiset' totals,
    @Resolver.resolve_forwarders insertion_order sample_core sample_module_lookup
    = Ok (apiset', totals)
    /\ SpecFile.name apiset' = SpecFile.name sample_core
    /\ SpecFile.find sample_core "Bar" = Some [sample_bar_parsed]
    /\ SpecFile.find apiset' "Bar" = Some [sample_bar]
    /\ totals = (5, 6).
Proof.
  destruct (@Resolver.resolve_forwarders insertion_order sample_core sample_module_lookup)
    as [[apiset' totals] | e] eqn:Hres; [| vm_compute in Hres; discriminate].
  exists apiset', totals. split; [reflexivity |].
  split; [exact (proj1 (@pass1_keeps_and_counts insertion_order sample_core apiset'
                          sample_module_lookup totals Hres)) |].
  vm_compute in Hres. injection Hres as <- <-. by vm_compute.
Defined.

(** Pass 2 over an api-set keeps the name of the file, the number and the
    order of its records and what identifies each record, and leaves every
    record that holds a forward target as it is.  The records are
    overwritten in place, so the index of the file follows them: when
    [find] listed the records of each name before the pass, it lists them,
    as the pass left them, afterwards.  A target the pass sets names the
    record's own name as symbol.  The first number returned is the number of records
    that hold a forward target after the pass, the second that of all
    records. *)
Theorem pass2_keeps_and_counts `{rt : Runtime} (apiset apiset' : SpecFile.t)
  (function_lookup : gmap string (list SpecEntry.t))
  (module_lookup : gmap string SpecFile.t) (totals : Z * Z) :
  Resolver.extra_forwarders apiset function_lookup module_lookup = Ok (apiset', totals) ->
  SpecFile.name apiset' = SpecFile.name apiset
  /\ ((forall symbol,
         SpecFile.find apiset symbol
         = index_entry (records_named symbol (SpecFile._entries apiset))) ->
      forall symbol,
        SpecFile.find apiset' symbol
        = index_entry (records_named symbol (SpecFile._entries apiset')))
  /\ Forall2 (fun entry entry' =>
                same_identity entry entry'
                /\ (has_forwarder entry = true -> entry' = entry)
                /\ match SpecEntry._forwarder entry, SpecEntry._forwarder entry' with
                   | None, Some (_, symbol) => symbol = SpecEntry.name entry'
                   | _, _ => True
                   end)
             (SpecFile._entries apiset) (SpecFile._entries apiset')
  /\ totals
     = (Z.of_nat (length (List.filter has_forwarder (SpecFile._entries apiset'))),
        Z.of_nat (length (SpecFile._entries apiset'))).
Proof.
  unfold Resolver.extra_forwarders. intros H.
  apply bind_Ok in H as ([entries' total] & Hloop & H). injection H as <- <-. simpl.
  pose proof (for_entries_Forall2 _ _ _ _ _ Hloop) as Hall.
  split; [reflexivity |]. split; [| split].
  - refine (in_place_index _ apiset entries' _ _ Hall).
    + intros entry a b [n Ha] [n' Hb]. congruence.
    + intros entry entry' [n Hn].
      by apply entry_extra_forwarders_Ok in Hn as ((_ & _ & ? & _) & _).
  - eapply Forall2_impl; [exact Hall |]. intros entry entry' [n Hn].
    apply entry_extra_forwarders_Ok in Hn as (? & _ & ? & ?). done.
  - f_equal; [| f_equal; by eapply Forall2_length].
    rewrite (for_entries_total _ has_forwarder
               _ _ _ _ ltac:(intros entry entry' n Hn;
                             by apply entry_extra_forwarders_Ok in Hn as (_ & ? & _))
               Hloop).
    lia.
Qed.

Lemma pass2_keeps_and_counts_witness :
  exists apiset' totals,
    @Resolver.extra_forwarders insertion_order
       (SpecFile.mk "api-ms-win-core-misc-l1-1-0" [sample_baz_unresolved]
                    {["Baz" := [sample_baz_unresolved]]} 0)
       sample_function_lookup sample_module_lookup
    = Ok (apiset', totals)
    /\ SpecFile.name apiset' = "api-ms-win-core-misc-l1-1-0"
    /\ SpecFile.find apiset' "Baz" = Some [sample_baz]
    /\ totals = (1, 1).
Proof.
  destruct (@Resolver.extra_forwarders insertion_order
              (SpecFile.mk "api-ms-win-core-misc-l1-1-0" [sample_baz_unresolved]
                           {["Baz" := [sample_baz_unresolved]]} 0)
              sample_function_lookup sample_module_lookup)
    as [[apiset' totals] | e] eqn:Hres; [| vm_compute in Hres; discriminate].
  exists apiset', totals. split; [reflexivity |].
  split; [exact (proj1 (@pass2_keeps_and_counts insertion_order _ apiset'
                          sample_function_lookup sample_module_lookup totals Hres)) |].
  vm_compute in Hres. injection Hres as <- <-. by vm_compute.
Defined.

(** ** Pass 2 with no exporter and with one exporter *)

Lemma single_module (l : list string) (module : string) :
  NoDup l -> l <> [] -> (forall x, x ∈ l -> x = module) -> l = [module].
Proof.
  intros Hnodup Hne Hall. destruct l as [| x [| y l]]; [done | |].
  - f_equal. apply Hall. by left.
  - exfalso. apply NoDup_cons in Hnodup as [Hx _].
    assert (x = module) as -> by (apply Hall; by left).
    assert (y = module) as -> by (apply Hall; right; by left).
    apply Hx. by left.
Qed.

(** Pass 2 on a record that is named and has no forward target.  When the
    function registry has no record of that name, the record stays as it is
    and counts 0.  When all the records it has belong to one module, the
    record adopts that module: its forward target is the module and the
    record's own name, its architecture set and convention are those the
    module has for the name; a module that is not in the module registry is
    a key error. *)
Theorem pass2_none_or_single_exporter `{rt : Runtime} `{!RuntimeOk rt}
  (self : SpecEntry.t) (function_lookup : gmap string (list SpecEntry.t))
  (module_lookup : gmap string SpecFile.t) :
  SpecEntry._forwarder self = None ->
  unsearchable self = false ->
  (function_lookup !! SpecEntry.name self = None ->
   Resolver.entry_extra_forwarders self function_lookup module_lookup = Ok (self, 0))
  /\ (forall func lst module,
        function_lookup !! SpecEntry.name self = Some (func :: lst) ->
        Forall (fun record => SpecEntry.spec record = module) (func :: lst) ->
        Resolver.entry_extra_forwarders self function_lookup module_lookup
        = match module_lookup !! module with
          | Some m =>
              callconv ← SpecFile.find_callconv m (SpecEntry.name self);
              Ok (SpecEntry.set_resolved self
                    (SpecFile.find_arch m (SpecEntry.name self))
                    (Some (module, SpecEntry.name self)) callconv, 1)
          | None => Raise KeyError
          end).
Proof.
  intros Hfwd Hsearch. unfold unsearchable in Hsearch.
  unfold Resolver.entry_extra_forwarders. rewrite Hfwd, Hsearch. split.
  - by intros ->.
  - intros func lst module -> Hall.
    assert (set_iter (map SpecEntry.spec (func :: lst)) = [module]) as ->.
    { apply single_module; [apply set_iter_NoDup | |].
      - intros Hnil. assert (SpecEntry.spec func ∈ set_iter (map SpecEntry.spec (func :: lst)))
          as Hin by (apply set_iter_elem; by left).
        rewrite Hnil in Hin. by apply elem_of_nil in Hin.
      - intros x Hx. apply (proj1 (set_iter_elem _ _)) in Hx.
        apply list_elem_of_In, in_map_iff in Hx as (record & <- & Hrecord).
        rewrite Forall_forall in Hall. by apply Hall, list_elem_of_In. }
    reflexivity.
Qed.

Lemma pass2_none_or_single_exporter_witness :
  @Resolver.entry_extra_forwarders insertion_order sample_rotl_unresolved
     sample_function_lookup (delete "other" sample_module_lookup)
  = Raise KeyError.
Proof.
  refine (proj2 (@pass2_none_or_single_exporter insertion_order insertion_order_ok
                   sample_rotl_unresolved sample_function_lookup
                   (delete "other" sample_module_lookup) eq_refl eq_refl)
                (SpecEntry.mk "other" "@" (Some "cdecl") "_rotl64" (Arch.mk Arch.Any) None false)
                [] "other" _ _).
  - vm_compute. reflexivity.
  - repeat constructor.
Defined.

(** ** Records that cannot be searched for, modules that are not registered *)

(** An unnamed record without forward target (name ['@'], exported by
    ordinal only) goes through both passes unchanged and counts 0 in each.
    It is written as the stub [<ordinal> stub -noname Ordinal<ordinal>],
    unless its ordinal is ['@'] too, which [write] refuses. *)
Theorem unnamed_record_stays_stub `{rt : Runtime} (self : SpecEntry.t)
  (module_lookup : gmap string SpecFile.t)
  (function_lookup : gmap string (list SpecEntry.t)) (try_modules : list string) :
  SpecEntry.noname self = true ->
  SpecEntry.name self = "@" ->
  SpecEntry._forwarder self = None ->
  Resolver.entry_resolve_forwarders self module_lookup try_modules = Ok (self, 0)
  /\ Resolver.entry_extra_forwarders self function_lookup module_lookup = Ok (self, 0)
  /\ SpecEntry.write self
     = if Str.eqb (SpecEntry._ord self) "@" then Raise AssertionError
       else Ok ([SpecEntry.stub_line (SpecEntry._ord self) " -noname"
                   ("Ordinal" +:+ SpecEntry._ord self)], 0x1000).
Proof.
  intros Hnoname Hname Hfwd. split; [| split].
  - unfold Resolver.entry_resolve_forwarders. by rewrite Hfwd, Hnoname, Hname.
  - unfold Resolver.entry_extra_forwarders. by rewrite Hfwd, Hnoname, Hname.
  - destruct (Str.eqb (SpecEntry._ord self) "@") eqn:Hord.
    + apply write_ordinal_fails. unfold ordinal_ok. by rewrite Hname, Hord.
    + rewrite write_stub; [| exact Hfwd | unfold ordinal_ok; by rewrite Hname, Hord].
      unfold noname_opts, stub_name. by rewrite Hnoname, Hname.
Qed.

Lemma unnamed_record_stays_stub_witness :
  @SpecEntry.write insertion_order
    (SpecEntry.mk "api-ms-win-core-sample-l1-1-0" "4" (Some "stub") "@"
                  (Arch.mk Arch.Any) None true)
  = Ok (["4 stub -noname Ordinal4" +:+ SpecEntry.nl], 0x1000).
Proof.
  exact (proj2 (proj2 (@unnamed_record_stays_stub insertion_order
                         (SpecEntry.mk "api-ms-win-core-sample-l1-1-0" "4" (Some "stub") "@"
                                       (Arch.mk Arch.Any) None true)
                         ∅ ∅ [] eq_refl eq_refl eq_refl))).
Defined.

Lemma try_modules_loop_missing (self : SpecEntry.t)
  (module_lookup : gmap string SpecFile.t) (pre post : list string) (candidate : string) :
  module_lookup !! candidate = None ->
  Forall (fun earlier =>
            exists m callconv,
              module_lookup !! earlier = Some m
              /\ Arch.truth (SpecFile.find_arch m (SpecEntry.name self)) = false
              /\ SpecFile.find_callconv m (SpecEntry.name self) = Ok callconv) pre ->
  Resolver.try_modules_loop self module_lookup (pre ++ candidate :: post)
  = Raise AssertionError.
Proof.
  intros Hmissing Hpre. induction Hpre as [| x pre (m & cc & Hm & Ht & Hcc) _ IH]; simpl.
  - by rewrite Hmissing.
  - rewrite Hm, Hcc. simpl. by rewrite Ht.
Qed.

(** Pass 1 needs every candidate it reaches to be a registered module: a
    named record whose search reaches a candidate that the module registry
    does not have (no earlier candidate having the name) fails on an
    assertion.  The pseudo module [self] of a bare forward target is such a
    candidate. *)
Theorem pass1_missing_module (self : SpecEntry.t)
  (module_lookup : gmap string SpecFile.t) (pre post : list string) (candidate : string) :
  match SpecEntry._forwarder self with
  | Some (_, symbol) => symbol = SpecEntry.name self
  | None => True
  end ->
  unsearchable self = false ->
  module_lookup !! candidate = None ->
  Forall (fun earlier =>
            exists m callconv,
              module_lookup !! earlier = Some m
              /\ Arch.truth (SpecFile.find_arch m (SpecEntry.name self)) = false
              /\ SpecFile.find_callconv m (SpecEntry.name self) = Ok callconv) pre ->
  Resolver.entry_resolve_forwarders self module_lookup (pre ++ candidate :: post)
  = Raise AssertionError.
Proof.
  intros Hsym Hsearch Hmissing Hpre. unfold Resolver.entry_resolve_forwarders.
  unfold unsearchable in Hsearch. rewrite Hsearch.
  assert (match SpecEntry._forwarder self with
          | Some (_, symbol) => assert (Str.eqb symbol (SpecEntry.name self))
          | None => Ok ()
          end = Ok ()) as ->.
  { destruct (SpecEntry._forwarder self) as [[m s] |]; [| reflexivity].
    by rewrite Hsym, Str_eqb_refl. }
  cbn [mbind result_bind]. by apply try_modules_loop_missing.
Qed.

Lemma pass1_missing_module_witness :
  Resolver.entry_resolve_forwarders sample_bar_parsed sample_module_lookup
    ([] ++ "self" :: ["kernel32"; "ntdll"])
  = Raise AssertionError.
Proof.
  refine (pass1_missing_module sample_bar_parsed sample_module_lookup
            [] ["kernel32"; "ntdll"] "self" eq_refl eq_refl _ _).
  - vm_compute. reflexivity.
  - constructor.
Defined.

(** ** The registries of [run] *)

Lemma parse_source_name (src : Run.source) (module : SpecFile.t) :
  Run.parse_source src = Ok module -> SpecFile.name module = fst src.
Proof.
  unfold Run.parse_source, SpecFile.parse. intros H.
  apply bind_Ok in H as ([spec totals] & H & Hspec). injection Hspec as <-.
  apply bind_Ok in H as ([entries functions] & _ & Hspec). by injection Hspec as <- _.
Qed.

Lemma add_functions_nonempty (module : SpecFile.t)
  (function_lookup : gmap string (list SpecEntry.t)) :
  (forall symbol, function_lookup !! symbol <> Some []) ->
  forall symbol, SpecFile.add_functions module function_lookup !! symbol <> Some [].
Proof.
  intros Hne symbol. rewrite add_functions_index by exact Hne.
  by destruct (_ ++ _)%list.
Qed.

Lemma register_spec (ros_modules : list Run.source)
  (module_lookup module_lookup' : gmap string SpecFile.t)
  (function_lookup function_lookup' : gmap string (list SpecEntry.t)) :
  Run.register ros_modules module_lookup function_lookup
  = Ok (module_lookup', function_lookup') ->
  (forall symbol, function_lookup !! symbol <> Some []) ->
  exists modules,
    Run.for_each Run.parse_source ros_modules = Ok modules
    /\ map SpecFile.name modules = map fst ros_modules
    /\ NoDup (map fst ros_modules)
    /\ (forall name, name ∈ map fst ros_modules -> module_lookup !! name = None)
    /\ (forall name module,
          module_lookup' !! name = Some module <->
          module_lookup !! name = Some module
          \/ (module ∈ modules /\ SpecFile.name module = name))
    /\ (forall symbol, function_lookup' !! symbol <> Some [])
    /\ (forall symbol,
          default [] (function_lookup' !! symbol)
          = (default [] (function_lookup !! symbol)
             ++ records_named symbol (all_records modules))%list).
Proof.
  revert module_lookup function_lookup.
  induction ros_modules as [| src ros_modules IH]; intros module_lookup function_lookup;
    simpl.
  - intros [= <- <-] Hne. exists []. simpl.
    split; [done |]. split; [done |]. split; [constructor |].
    split; [by intros name Hin; apply elem_of_nil in Hin |].
    split.
    { intros name module. split; [by left |].
      intros [H | [H _]]; [done | by apply elem_of_nil in H]. }
    split; [exact Hne |]. intros symbol. by rewrite app_nil_r.
  - intros H Hne. apply bind_Ok in H as (module & Hparse & H).
    apply bind_Ok in H as ([] & Hassert & H).
    pose proof (parse_source_name _ _ Hparse) as Hname.
    unfold assert in Hassert. destruct (bool_decide _) eqn:Hfresh; [| discriminate].
    apply bool_decide_eq_true in Hfresh. rewrite Hname in Hfresh.
    apply IH in H as (modules & Heach & Hnames & Hnodup & Hnew & Hml & Hne' & Hfl);
      [| by apply add_functions_nonempty].
    exists (module :: modules). rewrite Hparse, Heach. simpl.
    split; [done |]. split; [by rewrite Hname, Hnames |].
    split.
    { constructor; [| exact Hnodup]. intros Hin. apply Hnew in Hin.
      by rewrite Hname, lookup_insert_eq in Hin. }
    split.
    { intros name Hin. apply elem_of_cons in Hin as [-> | Hin]; [exact Hfresh |].
      specialize (Hnew _ Hin). rewrite Hname in Hnew.
      destruct (decide (fst src = name)) as [<- | Hdiff]; [exact Hfresh |].
      by rewrite lookup_insert_ne in Hnew. }
    split.
    { intros name m. rewrite Hml, Hname. split.
      - intros [Hins | [Hin Hm]].
        + destruct (decide (fst src = name)) as [<- | Hdiff].
          * rewrite lookup_insert_eq in Hins. injection Hins as <-.
            right. split; [by left | exact Hname].
          * rewrite lookup_insert_ne in Hins by done. by left.
        + right. split; [by right | exact Hm].
      - intros [Hold | [Hin Hm]].
        + left. rewrite lookup_insert_ne; [exact Hold |].
          intros <-. by rewrite Hfresh in Hold.
        + apply elem_of_cons in Hin as [-> | Hin].
          * left. by rewrite <- Hm, Hname, lookup_insert_eq.
          * right. by split. }
    split; [exact Hne' |].
    intros symbol. rewrite Hfl, add_functions_index by exact Hne.
    rewrite index_entry_default. unfold all_records. simpl.
    fold (all_records modules). by rewrite records_named_app, app_assoc.
Qed.

(** When [run]'s registration loop (lines 411-415) succeeds, the module
    names are pairwise distinct, the module registry holds exactly the
    parsed modules, each under its name, and the function registry holds,
    under each name, the records of that name of all the modules, module
    after module in input order and in file order within a module; a name no
    record has is not a key of it. *)
Theorem register_registries (ros_modules : list Run.source)
  (module_lookup : gmap string SpecFile.t)
  (function_lookup : gmap string (list SpecEntry.t)) :
  Run.register ros_modules ∅ ∅ = Ok (module_lookup, function_lookup) ->
  exists modules,
    Run.for_each Run.parse_source ros_modules = Ok modules
    /\ map SpecFile.name modules = map fst ros_modules
    /\ NoDup (map fst ros_modules)
    /\ (forall name module,
          module_lookup !! name = Some module <->
          module ∈ modules /\ SpecFile.name module = name)
    /\ (forall symbol,
          function_lookup !! symbol
          = index_entry (records_named symbol (all_records modules))).
Proof.
  intros Hreg. apply register_spec in Hreg
    as (modules & Heach & Hnames & Hnodup & _ & Hml & Hne & Hfl);
    [| by intros symbol; rewrite lookup_empty].
  exists modules. repeat (split; [assumption |]). split.
  - intros name module. rewrite Hml, lookup_empty. split; [| by right].
    by intros [Hold | Hnew].
  - intros symbol. specialize (Hfl symbol). specialize (Hne symbol).
    rewrite lookup_empty in Hfl. simpl in Hfl. rewrite <- Hfl.
    destruct (function_lookup !! symbol) as [[| func lst] |]; done.
Qed.

Lemma register_registries_witness :
  exists modules,
    Run.for_each Run.parse_source sample_ros = Ok modules
    /\ map SpecFile.name modules = map fst sample_ros
    /\ NoDup (map fst sample_ros).
Proof.
  destruct (Run.register sample_ros ∅ ∅) as [[module_lookup function_lookup] | e] eqn:Hreg;
    [| vm_compute in Hreg; discriminate].
  destruct (register_registries sample_ros module_lookup function_lookup Hreg)
    as (modules & Heach & Hnames & Hnodup & _).
  exists modules. by repeat split.
Defined.

Lemma register_clash (ros_modules : list Run.source) (modules : list SpecFile.t)
  (module_lookup : gmap string SpecFile.t)
  (function_lookup : gmap string (list SpecEntry.t)) :
  Run.for_each Run.parse_source ros_modules = Ok modules ->
  ~ NoDup (map fst ros_modules)
  \/ (exists name, name ∈ map fst ros_modules /\ is_Some (module_lookup !! name)) ->
  Run.register ros_modules module_lookup function_lookup = Raise AssertionError.
Proof.
  revert modules module_lookup function_lookup.
  induction ros_modules as [| src ros_modules IH];
    intros modules module_lookup function_lookup; simpl.
  - intros _ [Hdup | (name & Hin & _)]; [destruct Hdup; constructor |].
    by apply elem_of_nil in Hin.
  - destruct (Run.parse_source src) as [module | e] eqn:Hparse; [| discriminate]. simpl.
    destruct (Run.for_each Run.parse_source ros_modules) as [rest | e] eqn:Hrest;
      [| discriminate].
    intros _ Hclash. rewrite (parse_source_name _ _ Hparse).
    unfold assert. destruct (bool_decide _) eqn:Hfresh; [| reflexivity].
    apply bool_decide_eq_true in Hfresh. simpl.
    apply (IH rest); [reflexivity |].
    destruct (decide (fst src ∈ map fst ros_modules)) as [Hin | Hnotin].
    { right. exists (fst src). split; [exact Hin |]. rewrite lookup_insert_eq. eauto. }
    destruct Hclash as [Hdup | (name & Hin & Hsome)].
    + left. intros Hnodup. apply Hdup. by constructor.
    + apply elem_of_cons in Hin as [-> | Hin].
      * rewrite Hfresh in Hsome. by destruct Hsome.
      * right. exists name. split; [exact Hin |].
        rewrite lookup_insert_ne; [exact Hsome |]. by intros <-.
Qed.

(** When every module parses and two of them have the same name, the
    registration loop of [run] fails on the assertion of line 413. *)
Theorem register_duplicate_name (ros_modules : list Run.source)
  (modules : list SpecFile.t) :
  Run.for_each Run.parse_source ros_modules = Ok modules ->
  ~ NoDup (map fst ros_modules) ->
  Run.register ros_modules ∅ ∅ = Raise AssertionError.
Proof.
  intros Heach Hdup. eapply register_clash; [exact Heach |]. by left.
Qed.

Lemma register_duplicate_name_witness :
  Run.register [("kernel32", ["@ stdcall Foo()"]); ("kernel32", ["@ stdcall Bar()"])] ∅ ∅
  = Raise AssertionError.
Proof.
  destruct (Run.for_each Run.parse_source
              [("kernel32", ["@ stdcall Foo()"]); ("kernel32", ["@ stdcall Bar()"])])
    as [modules | e] eqn:Heach; [| vm_compute in Heach; discriminate].
  refine (register_duplicate_name _ modules Heach _).
  intros Hnodup. apply NoDup_cons in Hnodup as [Hin _]. apply Hin. by left.
Defined.

(** ** The dependencies of an api-set *)

Lemma fwd_strings_filter (forwarders : list string) (seen : gset string) :
  NoDup forwarders ->
  (forall x, x ∈ forwarders -> x ∉ seen) ->
  SpecFile.fwd_strings forwarders seen
  = List.filter (fun module => negb (ignored module)) forwarders.
Proof.
  intros Hnodup. revert seen.
  induction Hnodup as [| x forwarders Hx _ IH]; intros seen Hseen; [done |].
  cbn [SpecFile.fwd_strings List.filter].
  rewrite bool_decide_eq_false_2 by (apply Hseen; by left).
  fold (ignored x). cbn [orb].
  destruct (ignored x); cbn [negb].
  - apply IH. intros y Hy. apply Hseen. by right.
  - f_equal. apply IH. intros y Hy Hin.
    apply elem_of_union in Hin as [Hin | Hin].
    + apply elem_of_singleton in Hin as ->. by apply Hx.
    + revert Hin. apply Hseen. by right.
Qed.

(** The line [write_cmake] writes names the api-set, the base address and
    the dependencies, and the call returns the size estimate of the last
    [write].  The dependencies are the modules the records of the api-set
    forward to, except the five ignored ones, each once, in the order of
    [forwarder_modules]: the [seen] set of line 352 never filters
    anything. *)
Theorem write_cmake_dependencies `{rt : Runtime} `{!RuntimeOk rt}
  (self : SpecFile.t) (baseaddress : Z) :
  let deps := List.filter (fun module => negb (ignored module))
                          (SpecFile.forwarder_modules self) in
  SpecFile.write_cmake self baseaddress
  = ("add_apiset(" +:+ SpecFile.name self +:+ " " +:+ ("0x" +:+ SpecFile.hex8 baseaddress)
       +:+ " " +:+ Str.join " " deps +:+ ")" +:+ SpecEntry.nl,
     SpecFile._estimate_size self)
  /\ NoDup deps
  /\ (forall module,
        module ∈ deps <->
        module <> "" /\ ignored module = false
        /\ exists entry, entry ∈ SpecFile._entries self
                         /\ SpecEntry.forwarder_module entry = Some module).
Proof.
  intros deps. destruct (forwarder_modules_spec self) as (Hnodup & Helem & _).
  split; [| split].
  - unfold SpecFile.write_cmake.
    rewrite fwd_strings_filter; [reflexivity | exact Hnodup |].
    intros x _. apply not_elem_of_empty.
  - subst deps. clear Helem.
    induction Hnodup as [| x l Hx _ IH]; simpl; [constructor |].
    destruct (negb (ignored x)); [| exact IH].
    constructor; [| exact IH]. intros Hin. apply Hx.
    apply list_elem_of_In, filter_In in Hin as [Hin _]. by apply list_elem_of_In.
  - intros module. subst deps. split.
    + intros Hin. apply list_elem_of_In, filter_In in Hin as [Hin Hkeep].
      apply negb_true_iff in Hkeep. apply list_elem_of_In, Helem in Hin as [Hne Hentry].
      by repeat split.
    + intros (Hne & Hkeep & Hentry). apply list_elem_of_In, filter_In.
      split; [| by apply negb_true_iff].
      apply list_elem_of_In, Helem. by split.
Qed.

Lemma write_cmake_dependencies_witness :
  NoDup (List.filter (fun module => negb (ignored module))
                     (@SpecFile.forwarder_modules insertion_order sample_core)).
Proof.
  exact (proj1 (proj2 (@write_cmake_dependencies insertion_order insertion_order_ok
                         sample_core 0x60000000))).
Defined.

(** ** What [run] writes *)

Lemma Forall2_chain {A B C : Type} (R : A -> B -> Prop) (S : B -> C -> Prop)
  (xs : list A) (ys : list B) (zs : list C) :
  Forall2 R xs ys -> Forall2 S ys zs ->
  Forall2 (fun x z => exists y, R x y /\ S y z) xs zs.
Proof.
  intros HR. revert zs. induction HR as [| x y xs ys Hxy _ IH]; intros zs HS.
  - apply Forall2_nil_inv_l in HS as ->. constructor.
  - apply Forall2_cons_inv_l in HS as (z & zs' & Hyz & HS & ->).
    constructor; [by exists y | by apply IH].
Qed.

Lemma resolve_forwarders_name `{rt : Runtime} (apiset apiset' : SpecFile.t)
  (module_lookup : gmap string SpecFile.t) :
  ('(apiset, _) ← Resolver.resolve_forwarders apiset module_lookup; Ok apiset) = Ok apiset' ->
  SpecFile.name apiset' = SpecFile.name apiset.
Proof.
  unfold Resolver.resolve_forwarders. intros H.
  apply bind_Ok in H as ([spec totals] & H & Hspec). injection Hspec as <-.
  apply bind_Ok in H as ([entries total] & _ & Hspec). by injection Hspec as <- _.
Qed.

Lemma extra_forwarders_name `{rt : Runtime} (apiset apiset' : SpecFile.t)
  (function_lookup : gmap string (list SpecEntry.t))
  (module_lookup : gmap string SpecFile.t) :
  ('(apiset, _) ← Resolver.extra_forwarders apiset function_lookup module_lookup; Ok apiset)
  = Ok apiset' ->
  SpecFile.name apiset' = SpecFile.name apiset.
Proof.
  unfold Resolver.extra_forwarders. intros H.
  apply bind_Ok in H as ([spec totals] & H & Hspec). injection Hspec as <-.
  apply bind_Ok in H as ([entries total] & _ & Hspec). by injection Hspec as <- _.
Qed.

Lemma write_name `{rt : Runtime} (apiset : SpecFile.t) (written : SpecFile.t * list string) :
  SpecFile.write apiset = Ok written -> SpecFile.name (fst written) = SpecFile.name apiset.
Proof.
  unfold SpecFile.write. intros H.
  apply bind_Ok in H as ([lines size] & _ & Hspec). by injection Hspec as <-.
Qed.

Lemma run_files `{rt : Runtime} (wine : list Run.source)
  (written : list (SpecFile.t * list string)) (baseaddress : Z) :
  Forall2 (fun src file => SpecFile.name (fst file) = fst src) wine written ->
  map fst (map (fun '(apiset, lines) =>
                  (SpecFile.name apiset +:+ ".spec", (Run.SPEC_HEADER ++ lines)%list))
               written)
  = map (fun src => fst src +:+ ".spec") wine
  /\ Forall2 (fun src entry =>
                exists apiset,
                  SpecFile.name apiset = fst src
                  /\ snd entry = fst (SpecFile.write_cmake apiset (fst entry)))
             wine (Run.cmake_loop (map fst written) baseaddress).
Proof.
  intros Hall. revert baseaddress.
  induction Hall as [| src [apiset lines] wine written Hname _ IH]; intros baseaddress.
  - split; [reflexivity | constructor].
  - cbn [map fst Run.cmake_loop]. simpl in Hname.
    destruct (SpecFile.write_cmake apiset baseaddress) as [line size] eqn:Hline.
    split.
    + f_equal; [by rewrite Hname | apply (IH baseaddress)].
    + constructor; [| apply IH].
      exists apiset. split; [exact Hname |]. cbn [fst snd]. by rewrite Hline.
Qed.

(** When [run] succeeds it writes one spec file per api-set of Wine, in
    input order, called after the api-set with the suffix [.spec] and
    beginning with the three header lines, and one [add_apiset] line per
    api-set, in the same order and under the name of the api-set. *)
Theorem run_output `{rt : Runtime} (wine ros : list Run.source) (out : Run.output) :
  Run.run wine ros = Ok out ->
  map fst (Run.spec_files out) = map (fun src => fst src +:+ ".spec") wine
  /\ Forall (fun file => exists lines, snd file = (Run.SPEC_HEADER ++ lines)%list)
            (Run.spec_files out)
  /\ Forall2 (fun src entry =>
                exists apiset,
                  SpecFile.name apiset = fst src
                  /\ snd entry = fst (SpecFile.write_cmake apiset (fst entry)))
             wine (Run.cmakelists out).
Proof.
  unfold Run.run. intros H.
  apply bind_Ok in H as (parsed & Hparse & H).
  apply bind_Ok in H as ([module_lookup function_lookup] & _ & H).
  apply bind_Ok in H as (pass1 & Hpass1 & H).
  apply bind_Ok in H as (pass2 & Hpass2 & H).
  apply bind_Ok in H as (written & Hwrite & H). injection H as <-. simpl.
  apply for_each_Forall2 in Hparse, Hpass1, Hpass2, Hwrite.
  pose proof (Forall2_chain _ _ _ _ _
                (Forall2_chain _ _ _ _ _ (Forall2_chain _ _ _ _ _ Hparse Hpass1) Hpass2)
                Hwrite) as Hchain.
  assert (Forall2 (fun src file => SpecFile.name (fst file) = fst src) wine written)
    as Hnames.
  { eapply Forall2_impl; [exact Hchain |].
    intros src file (a2 & (a1 & (a0 & H0 & H1) & H2) & H3).
    rewrite (write_name _ _ H3), (extra_forwarders_name _ _ _ _ H2),
      (resolve_forwarders_name _ _ _ H1). by apply parse_source_name. }
  destruct (run_files wine written 0x60000000 Hnames) as [Hfiles Hcmake].
  split; [exact Hfiles |]. split; [| exact Hcmake].
  apply Forall_forall. intros file Hin.
  apply list_elem_of_fmap in Hin as ([apiset lines] & -> & _). by exists lines.
Qed.

Lemma run_output_witness :
  exists out,
    @Run.run insertion_order sample_wine sample_ros = Ok out
    /\ map fst (Run.spec_files out) = map (fun src => fst src +:+ ".spec") sample_wine.
Proof.
  destruct (@Run.run insertion_order sample_wine sample_ros) as [out | e] eqn:Hrun;
    [| vm_compute in Hrun; discriminate].
  exists out. split; [reflexivity |].
  exact (proj1 (@run_output insertion_order sample_wine sample_ros out Hrun)).
Defined.
